(** * DroneDB: the index engine (src/libs/ddb.cpp) and the EXIF parser
      (src/exif.cpp), embedded as Rocq functions.

    Layout: [Utils] (src/utils.h), [Exif] (src/exif.cpp), then the path and
    file-system model the engine runs on and [Ddb] (src/libs/ddb.cpp);
    the theorems come after the definitions. *)

From Stdlib Require Import ZArith List String Ascii Bool Lia Arith.
From Stdlib Require Import SpecFloat.
Import ListNotations.
Open Scope string_scope.
Set Warnings "-register-all".

(* ================================================================== *)
(** ** src/utils.h : the string helpers *)
(* ================================================================== *)

Module Utils.

(** [std::tolower] / [std::toupper] in the "C" locale: only the 26 ASCII
    letters move. *)
Definition tolower (c : ascii) : ascii :=
  let n := nat_of_ascii c in
  if (65 <=? n)%nat && (n <=? 90)%nat then ascii_of_nat (n + 32) else c.

Definition toupper (c : ascii) : ascii :=
  let n := nat_of_ascii c in
  if (97 <=? n)%nat && (n <=? 122)%nat then ascii_of_nat (n - 32) else c.

(** [std::isspace] in the "C" locale: space, \t, \n, \v, \f, \r. *)
Definition isspace (c : ascii) : bool :=
  let n := nat_of_ascii c in
  (n =? 32)%nat || ((9 <=? n)%nat && (n <=? 13)%nat).

(** [std::transform(s.begin(), s.end(), s.begin(), f)] *)
Fixpoint transform (f : ascii -> ascii) (s : string) : string :=
  match s with
  | EmptyString => EmptyString
  | String c s' => String (f c) (transform f s')
  end.

Definition toLower (s : string) : string := transform tolower s.
Definition toUpper (s : string) : string := transform toupper s.

(** erase from the beginning up to the first character that is not a
    space *)
Fixpoint ltrim (s : string) : string :=
  match s with
  | EmptyString => EmptyString
  | String c s' => if isspace c then ltrim s' else s
  end.

(** erase from just after the last character that is not a space up to
    the end *)
Fixpoint rtrim (s : string) : string :=
  match s with
  | EmptyString => EmptyString
  | String c s' =>
      match rtrim s' with
      | EmptyString => if isspace c then EmptyString else String c EmptyString
      | t => String c t
      end
  end.

Definition trim (s : string) : string := rtrim (ltrim s).

End Utils.

(* ================================================================== *)
(** ** src/exif.cpp *)
(* ================================================================== *)

Module Exif.

(** The arithmetic of a C++ floating type, as the parser uses it.  The
    parser computes in [float] and in [double]; both are instances. *)
Class FloatOps (F : Type) : Type := {
  of_long : Z -> F;              (* conversion of an integer *)
  lit     : Z -> positive -> F;  (* the literal num/den, e.g. 25.4 = 254/10 *)
  fmul    : F -> F -> F;
  fdiv    : F -> F -> F;
  fadd    : F -> F -> F;
  feqb    : F -> F -> bool;      (* == *)
  fgtb    : F -> F -> bool       (* >  *)
}.

(** IEEE 754 binary formats, through the Standard Library's executable
    specification of them: single is (24, 128), double is (53, 1024). *)
Section Ieee.
Variables prec emax : Z.

Definition ieee_of_long (z : Z) : spec_float :=
  binary_normalize prec emax z 0 false.

Definition ieee_ops : FloatOps spec_float := {|
  of_long := ieee_of_long;
  lit n d := SFdiv prec emax (ieee_of_long n) (ieee_of_long (Zpos d));
  fmul := SFmul prec emax;
  fdiv := SFdiv prec emax;
  fadd := SFadd prec emax;
  feqb := SFeqb;
  fgtb x y := SFltb y x
|}.
End Ieee.

Definition binary32 : FloatOps spec_float := ieee_ops 24 128.
Definition binary64 : FloatOps spec_float := ieee_ops 53 1024.

(** [Exiv2::Rational] is [std::pair<int32_t, int32_t>]. *)
Definition Rational : Type := (Z * Z)%type.

(** An [Exiv2::Exifdatum] seen through the accessors the parser calls. *)
Record Value (F : Type) : Type := mkValue {
  toString   : string;
  toLong     : Z;
  toFloat    : F;
  toRational : nat -> Rational
}.
Arguments mkValue {F}.
Arguments toString {F}.
Arguments toLong {F}.
Arguments toFloat {F}.
Arguments toRational {F}.

(** [Exiv2::ExifData]: the data of one image, in file order. *)
Definition ExifData (F : Type) : Type := list (string * Value F).

Record ImageSize : Type := mkImageSize { width : Z; height : Z }.

Record Focal (F : Type) : Type := mkFocal { f35 : F; ratio : F }.
Arguments mkFocal {F}.
Arguments f35 {F}.
Arguments ratio {F}.

(** [static_cast<int>] of a [long]: the low 32 bits, signed. *)
Definition to_int (z : Z) : Z := (z + 2 ^ 31) mod 2 ^ 32 - 2 ^ 31.

Section Parser.
Context {F : Type} {float_ops : FloatOps F}.   (* float  *)
Context {D : Type} {double_ops : FloatOps D}.  (* double *)

(** the parser's state: the image's tags *)
Variable exifData : ExifData F.
(** exif.h's static table: sensor identity -> sensor width (mm) *)
Variable sensorData : list (string * F).

(** [exifData.findKey(Exiv2::ExifKey(k))]; [None] is [exifData.end()] *)
Fixpoint lookupKey (d : ExifData F) (k : string) : option (Value F) :=
  match d with
  | [] => None
  | (k', v) :: d' => if String.eqb k' k then Some v else lookupKey d' k
  end.

(** Find the first available key, or exifData::end() if none exist *)
Fixpoint findKey (keys : list string) : option (Value F) :=
  match keys with
  | [] => None
  | k :: keys' =>
      match lookupKey exifData k with
      | Some v => Some v
      | None => findKey keys'
      end
  end.

Definition extractImageSize : ImageSize :=
  let imgWidth := findKey ["Exif.Photo.PixelXDimension"] in
  let imgHeight := findKey ["Exif.Photo.PixelYDimension"] in
  match imgWidth, imgHeight with
  | Some w, Some h => mkImageSize (to_int (toLong w)) (to_int (toLong h))
  | _, _ => mkImageSize (-1) (-1)
  end.

Definition extractMake : string :=
  match findKey ["Exif.Photo.LensMake"; "Exif.Image.Make"] with
  | Some k => toString k
  | None => "unknown"
  end.

Definition extractModel : string :=
  match findKey ["Exif.Photo.LensModel"; "Exif.Image.Model"] with
  | Some k => toString k
  | None => "unknown"
  end.

(** [model.find(make)]: the first position where [make] occurs *)
Definition find (make model : string) : option nat := index 0 make model.

(** [model.erase(pos, len)] *)
Definition erase (pos len : nat) (s : string) : string :=
  substring 0 pos s ++ substring (pos + len) (length s - (pos + len)) s.

(** The loop of [extractSensor],
      while ((pos = model.find(make)) != npos) model.erase(pos, make.length());
    run for at most [fuel] tests of its condition: [None] when the
    loop is still running after them. *)
Fixpoint stripMake (fuel : nat) (make model : string) : option string :=
  match fuel with
  | O => None
  | S fuel' =>
      match find make model with
      | Some pos => stripMake fuel' make (erase pos (length make) model)
      | None => Some model
      end
  end.

(** Extract "${make} ${model}" lowercase *)
Definition extractSensor (fuel : nat) : option string :=
  let make := Utils.toLower extractMake in
  let model := Utils.toLower extractModel in
  match (if String.eqb make "unknown" then Some model
         else stripMake fuel make model) with
  | Some model' => Some (Utils.trim make ++ " " ++ Utils.trim model')
  | None => None
  end.

(** Length of resolution unit in millimiters *)
Definition getMmPerUnit (resolutionUnit : Z) : F :=
  if (resolutionUnit =? 2)%Z then lit 254 10      (* 25.4f, mm in 1 inch *)
  else if (resolutionUnit =? 3)%Z then lit 10 1   (* 10.0f, mm in 1 cm *)
  else lit 0 1.

(** Extracts sensor width. Returns 0 on failure *)
Definition extractSensorWidth : F :=
  let fUnit := findKey ["Exif.Photo.FocalPlaneResolutionUnit";
                        "Exif.Image.FocalPlaneResolutionUnit"] in
  let fXRes := findKey ["Exif.Photo.FocalPlaneXResolution";
                        "Exif.Image.FocalPlaneXResolution"] in
  match fUnit, fXRes with
  | Some fUnit, Some fXRes =>
      let resolutionUnit := toLong fUnit in
      let mmPerUnit := getMmPerUnit resolutionUnit in
      if feqb mmPerUnit (lit 0 1) then lit 0 1
      else
        let pixelsPerUnit := toFloat fXRes in
        let unitsPerPixel := fdiv (lit 1 1) pixelsPerUnit in
        let widthInPixels := of_long (width extractImageSize) in
        fmul (fmul widthInPixels unitsPerPixel) mmPerUnit
  | _, _ => lit 0 1
  end.

(** [sensorData.count(sensor) > 0] and [sensorData.at(sensor)] *)
Fixpoint sensorLookup (t : list (string * F)) (sensor : string) : option F :=
  match t with
  | [] => None
  | (k, w) :: t' => if String.eqb k sensor then Some w else sensorLookup t' sensor
  end.

(** the [else] branch of [computeFocal] *)
Definition computeFocalFromSensor (fuel : nat) (focal : option (Value F))
  : option (Focal F) :=
  let sensorWidth := extractSensorWidth in
  match extractSensor fuel with
  | None => None
  | Some sensor =>
      let sensorWidth :=
        if feqb sensorWidth (lit 0 1) then
          match sensorLookup sensorData sensor with
          | Some w => w
          | None => sensorWidth
          end
        else sensorWidth in
      match focal with
      | Some vf =>
          if fgtb sensorWidth (lit 0 1) then
            let r := fdiv (toFloat vf) sensorWidth in
            Some (mkFocal (fmul (lit 36 1) r) r)
          else Some (mkFocal (lit 0 1) (lit 0 1))
      | None => Some (mkFocal (lit 0 1) (lit 0 1))
      end
  end.

Definition computeFocal (fuel : nat) : option (Focal F) :=
  let focal35 := findKey ["Exif.Photo.FocalLengthIn35mmFilm";
                          "Exif.Image.FocalLengthIn35mmFilm"] in
  let focal := findKey ["Exif.Photo.FocalLength"; "Exif.Image.FocalLength"] in
  match focal35 with
  | Some v35 =>
      if fgtb (toFloat v35) (of_long 0) then
        let f := toFloat v35 in
        Some (mkFocal f (fdiv f (lit 36 1)))
      else computeFocalFromSensor fuel focal
  | None => computeFocalFromSensor fuel focal
  end.

(** Evaluates a rational *)
Definition evalFrac (rational : Rational) : D :=
  if (snd rational =? 0)%Z then lit 0 1
  else fdiv (of_long (fst rational)) (of_long (snd rational)).

(** Converts a geotag location to decimal degrees *)
Definition geoToDecimal (geoTag geoRefTag : option (Value F)) : D :=
  match geoTag with
  | None => lit 0 1
  | Some geoTag =>
      (* N/S, W/E *)
      let sign :=
        match geoRefTag with
        | Some r =>
            let ref := Utils.toUpper (toString r) in
            if String.eqb ref "S" || String.eqb ref "W"
            then lit (-1) 1 else lit 1 1
        | None => lit 1 1
        end in
      let degrees := evalFrac (toRational geoTag 0) in
      let minutes := evalFrac (toRational geoTag 1) in
      let seconds := evalFrac (toRational geoTag 2) in
      fmul sign (fadd (fadd degrees (fdiv minutes (lit 60 1)))
                      (fdiv seconds (lit 3600 1)))
  end.
End Parser.
End Exif.

(* ================================================================== *)
(** ** std::filesystem::path, generic (POSIX) format

    A path is held as the sequence of elements that iterating the
    [fs::path] yields: the root directory is the element "/", a trailing
    separator is a final empty element ("a/" is ["a"; ""]), the empty
    path is []. *)
(* ================================================================== *)

Module Path.

Local Open Scope list_scope.

Definition path : Type := list string.

Definition path_eqb (p q : path) : bool :=
  if list_eq_dec string_dec p q then true else false.

(** the elements of a pathname: split at '/', separators collapse *)
Fixpoint split (cur : string) (s : string) : list string :=
  match s with
  | EmptyString => [cur]
  | String c s' =>
      if Ascii.eqb c "/"%char
      then (if String.eqb cur "" then split "" s' else cur :: split "" s')
      else split (cur ++ String c "")%string s'
  end.

(** [fs::path(s)] *)
Definition of_string (s : string) : path :=
  match s with
  | EmptyString => []
  | String c _ =>
      let names := split "" s in
      (* a pathname that is only separators is the root directory *)
      let names := match names with [""] => [] | _ => names end in
      if Ascii.eqb c "/"%char then "/" :: names else names
  end.

Fixpoint join (names : list string) : string :=
  match names with
  | [] => ""
  | [n] => n
  | n :: ns => (n ++ "/" ++ join ns)%string
  end.

(** [p.generic_string()]: the elements joined by one separator.  It also
    stands for [p.string()], which is the pathname as it was written and
    differs from it on a pathname with redundant separators. *)
Definition to_string (p : path) : string :=
  match p with
  | "/" :: names => ("/" ++ join names)%string
  | _ => join p
  end.

Definition is_absolute (p : path) : bool :=
  match p with
  | "/" :: _ => true
  | _ => false
  end.

Definition relative_path (p : path) : path :=
  match p with
  | "/" :: names => names
  | _ => p
  end.

Definition has_relative_path (p : path) : bool :=
  match relative_path p with [] => false | _ => true end.

(** [p.filename()]: the last element, empty for a root or empty path *)
Definition filename (p : path) : string :=
  if has_relative_path p then last p "" else "".

(** [p.parent_path()]: [*this] when there is no relative path, else the
    path with one fewer element *)
Definition parent_path (p : path) : path :=
  if has_relative_path p then removelast p else p.

(** [p.has_parent_path()] is [!parent_path().empty()] *)
Definition has_parent_path (p : path) : bool :=
  match parent_path p with [] => false | _ => true end.

Definition strip_trailing (p : path) : path :=
  match rev p with
  | "" :: r => rev r
  | _ => p
  end.

(** [p / q] *)
Definition append (p q : path) : path :=
  if is_absolute q then q
  else match q with
       | [] => if has_relative_path p && negb (String.eqb (filename p) "")
               then p ++ [""] else p
       | _ => strip_trailing p ++ q
       end.

Definition is_dot (s : string) : bool := String.eqb s ".".
Definition is_dotdot (s : string) : bool := String.eqb s "..".
(** a filename that is neither empty, dot nor dot-dot *)
Definition is_name (s : string) : bool :=
  negb (String.eqb s "" || is_dot s || is_dotdot s || String.eqb s "/").

(** [p.lexically_normal()]; [acc] holds the normal form so far, last
    element first *)
Fixpoint normal_elements (acc : list string) (es : list string) : list string :=
  match es with
  | [] => acc
  | e :: es' =>
      if String.eqb e "" || is_dot e then normal_elements acc es'
      else if is_dotdot e then
        match acc with
        | top :: acc' =>
            if is_name top then normal_elements acc' es'
            else if String.eqb top "/" then normal_elements acc es'
            else normal_elements (e :: acc) es'
        | [] => normal_elements [e] es'
        end
      else normal_elements (e :: acc) es'
  end.

Definition lexically_normal (p : path) : path :=
  match p with
  | [] => []
  | _ =>
      let acc := normal_elements [] p in
      let l := last p "" in
      match acc with
      | [] => ["."]
      | top :: _ =>
          if (String.eqb l "" || is_dot l || is_dotdot l) && is_name top
          then rev ("" :: acc) else rev acc
      end
  end.

(** the first mismatch of two element sequences *)
Fixpoint mismatch (a b : list string) : list string * list string :=
  match a, b with
  | x :: a', y :: b' => if String.eqb x y then mismatch a' b' else (a, b)
  | _, _ => (a, b)
  end.

Definition count (f : string -> bool) (l : list string) : Z :=
  Z.of_nat (List.length (filter f l)).

(** [p.lexically_relative(base)] *)
Definition lexically_relative (p base : path) : path :=
  if negb (Bool.eqb (is_absolute p) (is_absolute base)) then []
  else
    let '(a, b) := mismatch p base in
    match a, b with
    | [], [] => ["."]
    | _, _ =>
        let n := (count is_name b - count is_dotdot b)%Z in
        if (n <? 0)%Z then []
        else if (n =? 0)%Z && match a with [] => true | e :: _ => String.eqb e "" end
        then ["."]
        else repeat ".." (Z.to_nat n) ++ a
    end.

End Path.

(* ================================================================== *)
(** ** The file system the engine reads: a tree of directories and
       regular files (no links), and the process's current directory *)
(* ================================================================== *)

Module FS.
Import Path.
Local Open Scope list_scope.

Inductive node : Type :=
| File (mtime : Z) (sha256 : string)                 (* st_mtime, digest of the content *)
| Dir (mtime : Z) (entries : list (string * node)).  (* st_mtime, entries in readdir order *)

Record filesystem : Type := mkFS {
  tree : node;        (* the directory "/" *)
  cwd : list string   (* current_path(): the names from "/" down *)
}.

Definition is_dir (n : node) : bool :=
  match n with Dir _ _ => true | File _ _ => false end.

Fixpoint find_entry (name : string) (es : list (string * node)) : option node :=
  match es with
  | [] => None
  | (k, n) :: es' => if String.eqb k name then Some n else find_entry name es'
  end.

(** the node at a location, given as the names from "/" down *)
Fixpoint get (n : node) (loc : list string) : option node :=
  match loc with
  | [] => Some n
  | name :: loc' =>
      match n with
      | Dir _ es =>
          match find_entry name es with
          | Some c => get c loc'
          | None => None
          end
      | File _ _ => None
      end
  end.

(** pathname resolution: one element, from the directory at [loc] *)
Definition step (fs : filesystem) (loc : list string) (e : string)
  : option (list string) :=
  match get (tree fs) loc with
  | Some (Dir _ _) =>
      if String.eqb e "" || is_dot e || String.eqb e "/" then Some loc
      else if is_dotdot e then Some (removelast loc)
      else match get (tree fs) (loc ++ [e]) with
           | Some _ => Some (loc ++ [e])
           | None => None
           end
  | _ => None
  end.

Fixpoint steps (fs : filesystem) (loc : list string) (es : list string)
  : option (list string) :=
  match es with
  | [] => Some loc
  | e :: es' =>
      match step fs loc e with
      | Some loc' => steps fs loc' es'
      | None => None
      end
  end.

(** the location a path names, when it names one *)
Definition resolve (fs : filesystem) (p : path) : option (list string) :=
  match p with
  | [] => None
  | _ => steps fs (if is_absolute p then [] else cwd fs) p
  end.

(** [fs::status(p)] *)
Definition status (fs : filesystem) (p : path) : option node :=
  match resolve fs p with
  | Some loc => get (tree fs) loc
  | None => None
  end.

Definition exists_ (fs : filesystem) (p : path) : bool :=
  match status fs p with Some _ => true | None => false end.

Definition is_directory (fs : filesystem) (p : path) : bool :=
  match status fs p with Some n => is_dir n | None => false end.

(** [fs::absolute(p)] *)
Definition absolute (fs : filesystem) (p : path) : path :=
  if is_absolute p then p else append ("/" :: cwd fs) p.

(** [fs::canonical(p)], for a path that exists *)
Definition canonical (fs : filesystem) (p : path) : path :=
  match resolve fs p with
  | Some loc => "/" :: loc
  | None => []
  end.

(** [fs::weakly_canonical(p)]: the leading elements of [p] that exist,
    made canonical, then the others, the whole in normal form *)
Fixpoint leading (fs : filesystem) (result : path) (es : list string)
  : path * list string :=
  match es with
  | [] => (result, [])
  | e :: es' =>
      let tmp := append result [e] in
      if exists_ fs tmp then leading fs tmp es' else (result, es)
  end.

Definition weakly_canonical (fs : filesystem) (p : path) : path :=
  if exists_ fs p then canonical fs p
  else
    let '(result, rest) := leading fs [] p in
    let result := match result with [] => [] | _ => canonical fs result end in
    lexically_normal (fold_left (fun r e => append r [e]) rest result).

(** [fs::recursive_directory_iterator(p)]: the entries below the
    directory [p] in the order the iterator yields them, each with its
    [depth()].  The loop body may call [disable_recursion_pending()] on
    the entry it is at; [prune rp depth] is that decision. *)
Fixpoint walk (prune : path -> Z -> bool) (base : path) (depth : Z) (n : node)
  : list (path * Z) :=
  match n with
  | File _ _ => []
  | Dir _ es =>
      (fix each (es : list (string * node)) : list (path * Z) :=
         match es with
         | [] => []
         | (name, c) :: es' =>
             let rp := append base [name] in
             (rp, depth)
               :: (if is_dir c && negb (prune rp depth)
                   then walk prune rp (depth + 1) c else [])
               ++ each es'
         end) es
  end.

Definition recursive_directory_iterator
  (fs : filesystem) (prune : path -> Z -> bool) (p : path) : list (path * Z) :=
  match status fs p with
  | Some n => walk prune p 0 n
  | None => []
  end.

End FS.

(* ================================================================== *)
(** ** src/libs/ddb.cpp *)
(* ================================================================== *)

(** One row of the table [entries], and the [Entry] the engine fills in
    before it writes one.  [meta] is the dumped document and the two
    geometries are their WKT text, as they are bound to the statements. *)
Module Entry.
Record t : Type := mk {
  path : string;
  hash : string;
  type : Z;
  meta : string;
  mtime : Z;
  size : Z;
  depth : Z;
  point_geom : string;
  polygon_geom : string
}.

(** [Entry e;] *)
Definition empty : t := mk "" "" 0 "" 0 0 0 "" "".

Definition with_mtime (m : Z) (e : t) : t :=
  mk (path e) (hash e) (type e) (meta e) m (size e) (depth e)
     (point_geom e) (polygon_geom e).

Definition with_hash (h : string) (e : t) : t :=
  mk (path e) h (type e) (meta e) (mtime e) (size e) (depth e)
     (point_geom e) (polygon_geom e).
End Entry.

Module Ddb.
Import Path FS.
Local Open Scope list_scope.

Inductive Exception : Type :=
| FSException (what : string)
| DBException (what : string)
| AppException (what : string).

(** How a call ends: it returns, it throws, or (for the one loop of this
    file that need not stop) it is still running when the fuel is spent. *)
Inductive Outcome (A : Type) : Type :=
| Returned (a : A)
| Thrown (e : Exception)
| OutOfFuel.
Arguments Returned {A}.
Arguments Thrown {A}.
Arguments OutOfFuel {A}.

Definition obind {A B} (c : Outcome A) (k : A -> Outcome B) : Outcome B :=
  match c with
  | Returned a => k a
  | Thrown e => Thrown e
  | OutOfFuel => OutOfFuel
  end.

Notation "x <~ c ;; k" := (obind c (fun x => k))
  (at level 61, c at next level, right associativity).
Notation "' pat <~ c ;; k" := (obind c (fun x => match x with pat => k end))
  (at level 61, pat pattern, c at next level, right associativity).

Fixpoint ofold {A S} (f : S -> A -> Outcome S) (l : list A) (s : S) : Outcome S :=
  match l with
  | [] => Returned s
  | a :: l' => s' <~ f s a ;; ofold f l' s'
  end.

(** *** What ddb.cpp calls and src/ does not hold *)

(** Modelled from the spec: [utils::getModifiedTime] is declared in
    src/utils.h and its body is not in src/.  "mtime: filesystem
    modification time", read from the live file system; a path that
    names nothing cannot be read. *)
Definition getModifiedTime (fs : filesystem) (p : path) : Outcome Z :=
  match status fs p with
  | Some (File m _) => Returned m
  | Some (Dir m _) => Returned m
  | None => Thrown (FSException ("Cannot stat " ++ to_string p))
  end.

(** Modelled from the spec: [Hash::fileSHA256] is not in src/.  "hash:
    hex content fingerprint (256-bit)" of a file's content. *)
Definition fileSHA256 (fs : filesystem) (p : path) : Outcome string :=
  match status fs p with
  | Some (File _ h) => Returned h
  | _ => Thrown (FSException ("Cannot open " ++ to_string p))
  end.

Fixpoint is_prefix (a b : list string) : bool :=
  match a, b with
  | [], _ => true
  | x :: a', y :: b' => String.eqb x y && is_prefix a' b'
  | _ :: _, [] => false
  end.

(** Modelled from the spec: [utils::pathsAreChildren] is declared in
    src/utils.h and its body is not in src/.  "Every candidate must
    resolve to a location inside the root". *)
Definition pathsAreChildren (fs : filesystem) (parentPath : path)
  (childPaths : list string) : bool :=
  let parent := weakly_canonical fs (absolute fs parentPath) in
  forallb (fun c => is_prefix (strip_trailing parent)
                      (weakly_canonical fs (absolute fs (of_string c))))
          childPaths.

Record ParseEntryOpts : Type := mkOpts { withHash : bool }.

(** *** The storage (classes [Database] and [Statement]) *)

Inductive Sql : Type :=
| Begin                   (* BEGIN TRANSACTION *)
| Commit                  (* COMMIT *)
| Insert (e : Entry.t)    (* INSERT INTO entries (...) VALUES (...) *)
| Update (e : Entry.t)    (* UPDATE_QUERY *)
| Delete (path : string). (* DELETE FROM entries WHERE path = ? *)

Record Database : Type := mkDb {
  openFile : path;                       (* getOpenFile() *)
  entries : list Entry.t;                (* the table as it is persisted *)
  transaction : option (list Entry.t)    (* the table as the open transaction has it *)
}.

(** the table a statement of this connection reads and writes *)
Definition view (db : Database) : list Entry.t :=
  match transaction db with
  | Some t => t
  | None => entries db
  end.

Definition set_view (db : Database) (t : list Entry.t) : Database :=
  match transaction db with
  | Some _ => mkDb (openFile db) (entries db) (Some t)
  | None => mkDb (openFile db) t None
  end.

Definition has_path (p : string) (r : Entry.t) : bool :=
  String.eqb (Entry.path r) p.

(** the rows a statement leaves *)
Definition apply (s : Sql) (t : list Entry.t) : list Entry.t :=
  match s with
  | Insert e => t ++ [e]
  | Update e => map (fun r => if has_path (Entry.path e) r then e else r) t
  | Delete p => filter (fun r => negb (has_path p r)) t
  | Begin | Commit => t
  end.

(** [sqlite3_changes()]: the rows the statement changed *)
Definition changed (s : Sql) (t : list Entry.t) : Z :=
  match s with
  | Insert _ => 1
  | Update e => Z.of_nat (List.length (filter (has_path (Entry.path e)) t))
  | Delete p => Z.of_nat (List.length (filter (has_path p) t))
  | Begin | Commit => 0
  end.

(** The process as the engine changes it: the connection, standard
    output, and (for the statements of the theorems) the data-changing
    statements executed so far. *)
Record World : Type := mkWorld {
  db : Database;
  cout : list string;
  executed : list Sql
}.

Definition M (A : Type) : Type := World -> Outcome A * World.

Definition ret {A} (a : A) : M A := fun w => (Returned a, w).

Definition bind {A B} (c : M A) (k : A -> M B) : M B :=
  fun w =>
    match c w with
    | (Returned a, w') => k a w'
    | (Thrown e, w') => (Thrown e, w')
    | (OutOfFuel, w') => (OutOfFuel, w')
    end.

Definition lift {A} (o : Outcome A) : M A := fun w => (o, w).

Notation "x <- c ;; k" := (bind c (fun x => k))
  (at level 61, c at next level, right associativity).
Notation "' pat <- c ;; k" := (bind c (fun x => match x with pat => k end))
  (at level 61, pat pattern, c at next level, right associativity).
Notation "c ;;; k" := (bind c (fun _ => k))
  (at level 61, right associativity).

Fixpoint forEach {A} (l : list A) (body : A -> M unit) : M unit :=
  match l with
  | [] => ret tt
  | a :: l' => body a ;;; forEach l' body
  end.

(** [std::cout << line << std::endl] *)
Definition print (line : string) : M unit :=
  fun w => (Returned tt, mkWorld (db w) (cout w ++ [line]) (executed w)).

Definition TAB : string := String (ascii_of_nat 9) "".

Section Engine.
(** The file system as a call reads it.  The engine itself writes
    nothing to it; the storage writes its own files under .ddb, which is
    not followed here: a statement about two calls takes the file system
    of each. *)
Variable fs : filesystem.
(** The entry classifier [parseEntry(path, rootDirectory, entry, opts)]
    (entry.h; not in src/): it fills the entry in, or throws. *)
Variable parseEntry : path -> path -> Entry.t -> ParseEntryOpts -> Outcome Entry.t.
(** The storage engine refusing a statement (a constraint, the disk,
    ...) on the table as it is. *)
Variable sqlFails : Sql -> list Entry.t -> bool.

(** [db->exec("BEGIN TRANSACTION")], [db->exec("COMMIT")] *)
Definition exec (s : Sql) : M unit :=
  fun w =>
    let d := db w in
    if sqlFails s (view d) then (Thrown (DBException "exec"), w)
    else
      match s, transaction d with
      | Begin, None =>
          (Returned tt,
           mkWorld (mkDb (openFile d) (entries d) (Some (entries d)))
                   (cout w) (executed w))
      | Begin, Some _ =>
          (Thrown (DBException "cannot start a transaction within a transaction"), w)
      | Commit, Some t =>
          (Returned tt, mkWorld (mkDb (openFile d) t None) (cout w) (executed w))
      | Commit, None =>
          (Thrown (DBException "cannot commit - no transaction is active"), w)
      | _, _ => (Thrown (DBException "not a command"), w)
      end.

(** [stmt->execute()], with the statement's parameters bound; the
    result is [db->changes()] *)
Definition execute (s : Sql) : M Z :=
  fun w =>
    let d := db w in
    if sqlFails s (view d) then (Thrown (DBException "execute"), w)
    else (Returned (changed s (view d)),
          mkWorld (set_view d (apply s (view d))) (cout w) (executed w ++ [s])).

(** [q->bind(1, path); q->fetch()] on
    "SELECT mtime,hash FROM entries WHERE path=?" *)
Definition fetchByPath (p : string) : M (option (Z * string)) :=
  fun w =>
    (Returned (match List.find (has_path p) (view (db w)) with
               | Some r => Some (Entry.mtime r, Entry.hash r)
               | None => None
               end), w).

(** the rows of "SELECT path,mtime,hash FROM entries", as the table is
    when the statement is first stepped (the code steps it while it
    updates and deletes) *)
Definition fetchAll : M (list (string * Z * string)) :=
  fun w =>
    (Returned (map (fun r => (Entry.path r, Entry.mtime r, Entry.hash r))
                   (view (db w))), w).

Definition rootDirectory (d : Database) : path :=
  parent_path (parent_path (openFile d)).

(** [directories[d] = true].  The map of the code is unordered and
    keyed by the pathname as written; here the keys are element
    sequences, kept in the order they came in.  Which keys there are is
    meaningful, their order is not. *)
Definition insertDir (d : path) (directories : list path) : list path :=
  if existsb (path_eqb d) directories then directories else directories ++ [d].

(** while(rp.has_parent_path()) { rp = rp.parent_path(); directories[rp.string()] = true; }
    for at most [fuel] tests of its condition *)
Fixpoint addParents (fuel : nat) (rp : path) (directories : list path)
  : Outcome (list path) :=
  match fuel with
  | O => OutOfFuel
  | S fuel' =>
      if has_parent_path rp then
        let rp := parent_path rp in
        addParents fuel' rp (insertDir rp directories)
      else Returned directories
  end.

Definition DDB_DIR : string := ".ddb".

(** the body of the directory loop of [getIndexPathList] *)
Definition indexVisit (fuel : nat) (includeDirs : bool)
  (st : list path * list path) (rp : path) : Outcome (list path * list path) :=
  let '(result, directories) := st in
  let '(result, directories) :=
    if is_directory fs rp && includeDirs
    then (result, insertDir rp directories)
    else (result ++ [rp], directories) in
  if includeDirs then
    directories <~ addParents fuel rp directories ;;
    Returned (result, directories)
  else Returned (result, directories).

(** the body of the loop over [paths] of [getIndexPathList] *)
Definition indexCandidate (fuel : nat) (includeDirs : bool)
  (st : list path * list path) (s : string) : Outcome (list path * list path) :=
  let p := of_string s in
  if String.eqb (filename p) DDB_DIR then Returned st
  else if is_directory fs p then
    (* Skip .ddb *)
    let prune rp (_ : Z) := String.eqb (filename rp) DDB_DIR in
    '(result, directories) <~
      ofold (indexVisit fuel includeDirs)
            (map fst (recursive_directory_iterator fs prune p)) st ;;
    Returned (result, insertDir p directories)
  else if exists_ fs p then
    (* File *)
    let '(result, directories) := st in
    let result := result ++ [p] in
    if includeDirs then
      directories <~ addParents fuel p directories ;;
      Returned (result, directories)
    else Returned (result, directories)
  else Thrown (FSException ("Path does not exist: " ++ to_string p)).

Definition getIndexPathList (fuel : nat) (rootDirectory : path)
  (paths : list string) (includeDirs : bool) : Outcome (list path) :=
  if negb (pathsAreChildren fs rootDirectory paths) then
    Thrown (FSException ("Some paths are not contained within: "
                         ++ to_string rootDirectory ++ ". Did you run ddb init?"))
  else
    '(result, directories) <~
      ofold (indexCandidate fuel includeDirs) paths ([], []) ;;
    Returned (result ++ directories).

(** the body of the loop over [paths] of [getPathList] *)
Definition pathCandidate (includeDirs : bool) (maxDepth : Z)
  (result : list path) (s : string) : Outcome (list path) :=
  let p := of_string s in
  if String.eqb (filename p) DDB_DIR then Returned result
  else if is_directory fs p then
    let prune rp depth :=
      (* Skip .ddb *)
      String.eqb (filename rp) DDB_DIR
      (* Max depth *)
      || ((maxDepth >? 0)%Z && (depth >=? maxDepth - 1)%Z) in
    Returned
      (fold_left
         (fun result rp =>
            if is_directory fs rp
            then (if includeDirs then result ++ [rp] else result)
            else result ++ [rp])
         (map fst (recursive_directory_iterator fs prune p)) result)
  else if exists_ fs p then
    (* File *)
    Returned (result ++ [p])
  else Thrown (FSException ("Path does not exist: " ++ to_string p)).

Definition getPathList (paths : list string) (includeDirs : bool) (maxDepth : Z)
  : Outcome (list path) :=
  ofold (pathCandidate includeDirs maxDepth) paths [].

Definition checkUpdate (e : Entry.t) (p : path) (dbMtime : Z) (dbHash : string)
  : Outcome (bool * Entry.t) :=
  let folder := is_directory fs p in
  (* Did it change? *)
  mtime <~ getModifiedTime fs p ;;
  let e := Entry.with_mtime mtime e in
  if negb (Entry.mtime e =? dbMtime)%Z then
    if folder then
      (* Don't check hashes for folders *)
      Returned (true, e)
    else
      hash <~ fileSHA256 fs p ;;
      let e := Entry.with_hash hash e in
      if negb (String.eqb dbHash (Entry.hash e)) then Returned (true, e)
      else Returned (false, e)
  else Returned (false, e).

Definition doUpdate (e : Entry.t) : M unit :=
  execute (Update e) ;;;
  print ("U" ++ TAB ++ Entry.path e).

(** fs::weakly_canonical(fs::absolute(p).lexically_relative(fs::absolute(directory))) *)
Definition relativePath (p directory : path) : path :=
  weakly_canonical fs (lexically_relative (absolute fs p) (absolute fs directory)).

Definition opts : ParseEntryOpts := mkOpts true.

(** the body of the loop of [addToIndex] *)
Definition addEntry (directory : path) (p : path) : M unit :=
  let relPath := relativePath p directory in
  row <- fetchByPath (to_string relPath) ;;
  '(update, add, e) <-
    match row with
    | Some (dbMtime, dbHash) =>
        (* Entry exist, update if necessary *)
        '(update, e) <- lift (checkUpdate Entry.empty p dbMtime dbHash) ;;
        ret (update, false, e)
    | None =>
        (* Brand new, add *)
        ret (false, true, Entry.empty)
    end ;;
  if add || update then
    e <- lift (parseEntry p directory e opts) ;;
    if add then
      execute (Insert e) ;;;
      print ("A" ++ TAB ++ Entry.path e)
    else doUpdate e
  else ret tt.

Definition addToIndex (fuel : nat) (paths : list string) : M unit :=
  fun w =>
    let directory := rootDirectory (db w) in
    (pathList <- lift (getIndexPathList fuel directory paths true) ;;
     exec Begin ;;;
     forEach pathList (addEntry directory) ;;;
     exec Commit) w.

(** the body of the loop of [removeFromIndex] *)
Definition removeEntry (directory : path) (p : path) : M unit :=
  let relPath := relativePath p directory in
  changes <- execute (Delete (to_string relPath)) ;;
  if (changes >=? 1)%Z then print ("D" ++ TAB ++ to_string relPath)
  else ret tt.

Definition removeFromIndex (fuel : nat) (paths : list string) : M unit :=
  fun w =>
    let directory := rootDirectory (db w) in
    (pathList <- lift (getIndexPathList fuel directory paths false) ;;
     exec Begin ;;;
     forEach pathList (removeEntry directory) ;;;
     exec Commit) w.

(** the body of the loop of [syncIndex], on one fetched row *)
Definition syncEntry (directory : path) (row : string * Z * string) : M unit :=
  let '(text, dbMtime, dbHash) := row in
  let relPath := of_string text in
  let p := append directory relPath in
  if exists_ fs p then
    '(update, e) <- lift (checkUpdate Entry.empty p dbMtime dbHash) ;;
    if update then
      e <- lift (parseEntry p directory e opts) ;;
      doUpdate e
    else ret tt
  else
    (* Removed *)
    execute (Delete (to_string relPath)) ;;;
    print ("D" ++ TAB ++ to_string relPath).

(** the loop [while(q->fetch()) { ... }] of [syncIndex] *)
Definition syncRows (directory : path) : M unit :=
  rows <- fetchAll ;;
  forEach rows (syncEntry directory).

Definition syncIndex : M unit :=
  fun w =>
    let directory := rootDirectory (db w) in
    (exec Begin ;;;
     syncRows directory ;;;
     exec Commit) w.

End Engine.

(** Modelled from the spec: [parseEntry] (the entry classifier) is not
    in src/.  "path: normalized relative path, forward-slash separated
    ... relative to tracked root"; "hash: empty/absent for directories";
    "mtime: filesystem modification time at last (re)index"; "depth
    equals the count of path separators".  The artifact kind, the
    metadata document, the size and the geometries are opaque to the
    engine and are left as they come in. *)
Definition classify (fs : filesystem) (p rootDirectory : path) (e : Entry.t)
  (o : ParseEntryOpts) : Outcome Entry.t :=
  let relPath :=
    lexically_normal (lexically_relative (absolute fs p) (absolute fs rootDirectory)) in
  mtime <~ getModifiedTime fs p ;;
  hash <~ (if is_directory fs p then Returned ""
           else if withHash o then fileSHA256 fs p else Returned (Entry.hash e)) ;;
  Returned (Entry.mk (to_string relPath) hash (Entry.type e) (Entry.meta e) mtime
                     (Entry.size e) (Z.of_nat (List.length relPath) - 1)
                     (Entry.point_geom e) (Entry.polygon_geom e)).

(** a storage engine that refuses nothing *)
Definition noFault (s : Sql) (t : list Entry.t) : bool := false.

End Ddb.

(* ================================================================== *)
(** ** The EXIF parser: what the text of the specification says, and
       the images the theorems below are evaluated on *)
(* ================================================================== *)

Module ExifSpec.
Import Exif.
Local Open Scope Z_scope.

(** a tag holding text *)
Definition text {F} `{FloatOps F} (s : string) : Value F :=
  mkValue s 0 (lit 0 1) (fun _ => (0, 1)).

(** a tag holding one integer *)
Definition number {F} `{FloatOps F} (n : Z) : Value F :=
  mkValue "" n (of_long n) (fun _ => (n, 1)).

(** a GPS coordinate: degrees, minutes and seconds, each a rational *)
Definition dms {F} `{FloatOps F} (d m s : Rational) : Value F :=
  mkValue "" (fst d) (lit 0 1)
          (fun n => match n with O => d | S O => m | _ => s end).

(** "S"/"W" negate, case-insensitive comparison; all others, including
    an absent reference, are positive *)
Definition negates {F} (ref : option (Value F)) : bool :=
  match ref with
  | Some r => existsb (String.eqb (toString r)) ["S"; "s"; "W"; "w"]
  | None => false
  end.

(** a rational, 0 when its denominator is 0 *)
Definition frac {D} `{FloatOps D} (r : Rational) : D :=
  match snd r with
  | 0 => lit 0 1
  | _ => fdiv (of_long (fst r)) (of_long (snd r))
  end.

(** Focal length, 35mm-equivalent, as section 4.2 words it; [sensor] is
    the normalized sensor identity. *)
Definition focal35mm {F} `{FloatOps F} (data : ExifData F)
  (table : list (string * F)) (sensor : string) : Focal F :=
  let tag35 := findKey data ["Exif.Photo.FocalLengthIn35mmFilm";
                             "Exif.Image.FocalLengthIn35mmFilm"] in
  let raw := findKey data ["Exif.Photo.FocalLength"; "Exif.Image.FocalLength"] in
  let fromTags := extractSensorWidth data in
  let width :=
    match feqb fromTags (lit 0 1), sensorLookup table sensor with
    | true, Some w => w
    | _, _ => fromTags
    end in
  match tag35, raw with
  | Some v, _ =>
      if fgtb (toFloat v) (of_long 0)
      then mkFocal (toFloat v) (fdiv (toFloat v) (lit 36 1))
      else match raw with
           | Some f =>
               if fgtb width (lit 0 1)
               then mkFocal (fmul (lit 36 1) (fdiv (toFloat f) width))
                            (fdiv (toFloat f) width)
               else mkFocal (lit 0 1) (lit 0 1)
           | None => mkFocal (lit 0 1) (lit 0 1)
           end
  | None, Some f =>
      if fgtb width (lit 0 1)
      then mkFocal (fmul (lit 36 1) (fdiv (toFloat f) width)) (fdiv (toFloat f) width)
      else mkFocal (lit 0 1) (lit 0 1)
  | None, None => mkFocal (lit 0 1) (lit 0 1)
  end.

(** An image with a focal-plane resolution (unit 2, 100 pixels per
    unit) and no pixel dimensions. *)
Definition noImageSize : ExifData spec_float :=
  [("Exif.Photo.FocalPlaneResolutionUnit", @number _ binary32 2);
   ("Exif.Photo.FocalPlaneXResolution", @number _ binary32 100)].

(** An image whose make tag is present and empty, with a raw focal
    length of 24. *)
Definition emptyMake {F} `{FloatOps F} (model : string) : ExifData F :=
  [("Exif.Image.Make", text ""); ("Exif.Image.Model", text model);
   ("Exif.Photo.FocalLength", number 24)].

(** An image whose only focal tag is the 35mm one, 50. *)
Definition fifty : ExifData spec_float :=
  [("Exif.Photo.FocalLengthIn35mmFilm", @number _ binary32 50)].

(** the value m * 2^e of a finite float lies strictly between lo/10^4 and
    hi/10^4 *)
Definition within (f : spec_float) (lo hi : Z) : Prop :=
  match f with
  | S754_finite false m e =>
      (lo * 2 ^ (- e) < Zpos m * 10000 < hi * 2 ^ (- e))%Z
  | _ => False
  end.

(** A Canon image: the 35mm tag is absent, the raw focal length is 24. *)
Definition canon : ExifData spec_float :=
  [("Exif.Image.Make", @text _ binary32 "Canon");
   ("Exif.Image.Model", @text _ binary32 "Canon EOS 5D");
   ("Exif.Photo.FocalLength", @number _ binary32 24)].

(** the same image with a focal-plane resolution and no pixel dimensions *)
Definition canonNoImageSize : ExifData spec_float :=
  (noImageSize ++ canon)%list.

Definition canonTable : list (string * spec_float) :=
  [("canon eos 5d", @lit _ binary32 235 10)].

End ExifSpec.

(* ================================================================== *)
(** ** The engine: the calls, and the file systems and indexes the
       theorems below are evaluated on *)
(* ================================================================== *)

Module Scenario.
Import Path FS Ddb.
Local Open Scope Z_scope.
Local Open Scope list_scope.

(** one call of the engine *)
Inductive Call : Type :=
| Add (fuel : nat) (paths : list string)
| Remove (fuel : nat) (paths : list string)
| Sync.

Definition run (fs : filesystem)
(parseEntry : path -> path -> Entry.t -> ParseEntryOpts -> Outcome Entry.t)
(sqlFails : Sql -> list Entry.t -> bool) (c : Call) : M unit :=
match c with
| Add fuel paths => addToIndex fs parseEntry sqlFails fuel paths
| Remove fuel paths => removeFromIndex fs sqlFails fuel paths
| Sync => syncIndex fs parseEntry sqlFails
end.

(** /data/root is the tracked root: it holds the index's own .ddb, a
  picture, and a/b/c.txt. *)
Definition disk : node :=
Dir 1 [("data",
        Dir 2 [("root",
                Dir 3 [(".ddb", Dir 4 [("dbase.sqlite", File 5 "db")]);
                       ("img.jpg", File 6 "h1");
                       ("a", Dir 7 [("b", Dir 8 [("c.txt", File 9 "h2")])])])])].

(** the same disk once the picture has been deleted, the process being in
    the tracked root *)
Definition diskWithoutPicture : node :=
  Dir 1 [("data",
          Dir 2 [("root",
                  Dir 3 [(".ddb", Dir 4 [("dbase.sqlite", File 5 "db")]);
                         ("a", Dir 7 [("b", Dir 8 [("c.txt", File 9 "h2")])])])])].

Definition withoutPicture : filesystem := mkFS diskWithoutPicture ["data"; "root"].

(** the process is in "/" *)
Definition fromSlash : filesystem := mkFS disk [].
(** the process is in the tracked root *)
Definition fromRoot : filesystem := mkFS disk ["data"; "root"].

Definition dbase : path := of_string "/data/root/.ddb/dbase.sqlite".

Definition emptyIndex : World := mkWorld (mkDb dbase [] None) [] [].

Definition row (p h : string) (m : Z) : Entry.t := Entry.mk p h 0 "" m 0 0 "" "".

(** An index of /data/root made some time ago: img.jpg has been touched
  since (mtime 5 then, 6 now, same content), a has changed (mtime 6
  then, 7 now), a/b/c.txt has not, and gone.jpg has been deleted. *)
Definition staleIndex : World :=
mkWorld (mkDb dbase
              [row "img.jpg" "h1" 5; row "a" "" 6;
               row "a/b/c.txt" "h2" 9; row "gone.jpg" "h3" 4]
              None) [] [].

(** the table after the statements [stmts], executed in order *)
Definition replay (stmts : list Sql) (t : list Entry.t) : list Entry.t :=
  fold_left (fun t s => apply s t) stmts t.

(** a computation that, run inside a transaction, stays inside it and
    leaves the persisted table alone *)
Definition keeps {A} (c : M A) : Prop :=
  forall w o w',
    c w = (o, w') -> transaction (db w) <> None ->
    entries (db w') = entries (db w) /\ transaction (db w') <> None.

(** a computation after which the table of the connection is the one
    before it with the statements it executed applied in order *)
Definition tracks {A} (c : M A) : Prop :=
  forall w o w',
    c w = (o, w') ->
    exists stmts,
      executed w' = executed w ++ stmts
      /\ view (db w') = replay stmts (view (db w)).

(** a storage engine that refuses every DELETE *)
Definition refuseDelete (s : Sql) (t : list Entry.t) : bool :=
match s with Delete _ => true | _ => false end.

(** the row as "SELECT path,mtime,hash FROM entries" returns it *)
Definition fetched (r : Entry.t) : string * Z * string :=
(Entry.path r, Entry.mtime r, Entry.hash r).

(** A row as [addToIndex] leaves them: its path is a pathname in generic
  form, and classifying the file at that path gives the same path back
  and records the modification time the file has ("mtime stored is
  always the value observed at the time the entry was last
  (re)computed"). *)
Definition wellKept (fs : filesystem)
(parseEntry : path -> path -> Entry.t -> ParseEntryOpts -> Outcome Entry.t)
(directory : path) (r : Entry.t) : Prop :=
let p := append directory (of_string (Entry.path r)) in
to_string (of_string (Entry.path r)) = Entry.path r
/\ forall e e',
     parseEntry p directory e opts = Returned e' ->
     Entry.path e' = Entry.path r
     /\ getModifiedTime fs p = Returned (Entry.mtime e').

(** a row that [syncIndex] passes over: its file exists and
  [checkUpdate] reports no change *)
Definition settled (fs : filesystem) (directory : path) (r : Entry.t) : Prop :=
let p := append directory (of_string (Entry.path r)) in
exists_ fs p = true
/\ exists e, checkUpdate fs Entry.empty p (Entry.mtime r) (Entry.hash r)
             = Returned (false, e).

(** The depth-limiting sentence of section 8, read on a root [root] of
  [fs] that holds a/b/c.txt. *)
Definition depthLimitClaim (fs : filesystem) (root : string) : Prop :=
forall (includeDirs : bool) (resolved : list path),
  getPathList fs [root] includeDirs 1 = Returned resolved ->
  In (of_string root ++ ["a"]) resolved
  /\ (In (of_string root ++ ["a"; "b"]) resolved <-> includeDirs = true)
  /\ ~ In (of_string root ++ ["a"; "b"; "c.txt"]) resolved.

(** a tracked root /r that holds the directory a, among other things *)
Definition rootWith (before after : list (string * node)) (m : Z)
(inA : list (string * node)) : filesystem :=
mkFS (Dir 0 [("r", Dir 0 (before ++ ("a", Dir m inA) :: after))]) [].

(** *** Two runs of sync *)

(** "running sync twice in succession with no filesystem changes between
    runs produces no output and no storage mutation on the second run",
    read for every index state and every file system state, with the
    classifier as the specification words it and a storage that refuses
    nothing *)
Definition syncTwiceClaim : Prop :=
  forall (fs : filesystem) (w w1 w2 : World) (o : Outcome unit),
    syncIndex fs (classify fs) noFault w = (Returned tt, w1) ->
    syncIndex fs (classify fs) noFault w1 = (o, w2) ->
    cout w2 = cout w1 /\ executed w2 = executed w1.

(** an index of /data/root with one row, whose stored path is not a
    generic pathname and names nothing on the disk *)
Definition doubledSlash : World :=
  mkWorld (mkDb dbase [row "gone//x.jpg" "h3" 4] None) [] [].

(** an index of /data/root with one row, stale, whose stored path is a
    generic pathname that is not in normal form *)
Definition unnormalized : World :=
  mkWorld (mkDb dbase [row "a/./b/c.txt" "h0" 1] None) [] [].

(** the disk once the storage has written to its own files: .ddb and
    dbase.sqlite have a later modification time, the rest is as it was *)
Definition diskAfterCommit : node :=
  Dir 1 [("data",
          Dir 2 [("root",
                  Dir 3 [(".ddb", Dir 10 [("dbase.sqlite", File 10 "db2")]);
                         ("img.jpg", File 6 "h1");
                         ("a", Dir 7 [("b", Dir 8 [("c.txt", File 9 "h2")])])])])].

Definition afterCommit : filesystem := mkFS diskAfterCommit [].

(** an index that tracks its own .ddb directory, as add stores it, and
    the picture with the hash of an earlier content *)
Definition tracksDdb : World :=
  mkWorld (mkDb dbase [row ".ddb" "" 4; row "img.jpg" "h0" 5] None) [] [].

(** two file systems in which the file of the row [r] is in the same
    state: the same kind, modification time and digest *)
Definition sameFile (fs fs' : filesystem) (directory : path) (r : Entry.t) : Prop :=
  let p := append directory (of_string (Entry.path r)) in
  exists_ fs' p = exists_ fs p
  /\ is_directory fs' p = is_directory fs p
  /\ getModifiedTime fs' p = getModifiedTime fs p
  /\ fileSHA256 fs' p = fileSHA256 fs p.

(** *** Errors inside a call

    Where an error can occur in a call of add, remove or sync: in the
    resolution of the paths, in BEGIN TRANSACTION, in one pass of the
    loop (reading the file system, classifying, a statement that the
    storage refuses), in COMMIT. *)

Section Errors.
Variable fs : filesystem.
Variable parseEntry : path -> path -> Entry.t -> ParseEntryOpts -> Outcome Entry.t.
Variable sqlFails : Sql -> list Entry.t -> bool.

(** the row that the SELECT of add finds for [p], if any *)
Definition lookedUp (directory p : path) (w : World) : option (Z * string) :=
  match List.find (has_path (to_string (relativePath fs p directory))) (view (db w)) with
  | Some r => Some (Entry.mtime r, Entry.hash r)
  | None => None
  end.

(** an error in the pass of the loop of add over the path [p] *)
Inductive addEntryError (directory p : path) (w : World) (e : Exception) : Prop :=
| add_reading (dbMtime : Z) (dbHash : string) :
    lookedUp directory p w = Some (dbMtime, dbHash) ->
    checkUpdate fs Entry.empty p dbMtime dbHash = Thrown e ->
    addEntryError directory p w e
| add_classifying_changed (dbMtime : Z) (dbHash : string) (e0 : Entry.t) :
    lookedUp directory p w = Some (dbMtime, dbHash) ->
    checkUpdate fs Entry.empty p dbMtime dbHash = Returned (true, e0) ->
    parseEntry p directory e0 opts = Thrown e ->
    addEntryError directory p w e
| add_updating (dbMtime : Z) (dbHash : string) (e0 e1 : Entry.t) (w' : World) :
    lookedUp directory p w = Some (dbMtime, dbHash) ->
    checkUpdate fs Entry.empty p dbMtime dbHash = Returned (true, e0) ->
    parseEntry p directory e0 opts = Returned e1 ->
    execute sqlFails (Update e1) w = (Thrown e, w') ->
    addEntryError directory p w e
| add_classifying_new :
    lookedUp directory p w = None ->
    parseEntry p directory Entry.empty opts = Thrown e ->
    addEntryError directory p w e
| add_inserting (e1 : Entry.t) (w' : World) :
    lookedUp directory p w = None ->
    parseEntry p directory Entry.empty opts = Returned e1 ->
    execute sqlFails (Insert e1) w = (Thrown e, w') ->
    addEntryError directory p w e.

(** an error in the pass of the loop of remove over the path [p] *)
Inductive removeEntryError (directory p : path) (w : World) (e : Exception) : Prop :=
| remove_deleting (w' : World) :
    execute sqlFails (Delete (to_string (relativePath fs p directory))) w
    = (Thrown e, w') ->
    removeEntryError directory p w e.

(** an error in the pass of the loop of sync over a fetched row *)
Inductive syncEntryError (directory : path) (row : string * Z * string)
  (w : World) (e : Exception) : Prop :=
| sync_reading :
    exists_ fs (append directory (of_string (fst (fst row)))) = true ->
    checkUpdate fs Entry.empty (append directory (of_string (fst (fst row))))
                (snd (fst row)) (snd row) = Thrown e ->
    syncEntryError directory row w e
| sync_classifying (e0 : Entry.t) :
    exists_ fs (append directory (of_string (fst (fst row)))) = true ->
    checkUpdate fs Entry.empty (append directory (of_string (fst (fst row))))
                (snd (fst row)) (snd row) = Returned (true, e0) ->
    parseEntry (append directory (of_string (fst (fst row)))) directory e0 opts
    = Thrown e ->
    syncEntryError directory row w e
| sync_updating (e0 e1 : Entry.t) (w' : World) :
    exists_ fs (append directory (of_string (fst (fst row)))) = true ->
    checkUpdate fs Entry.empty (append directory (of_string (fst (fst row))))
                (snd (fst row)) (snd row) = Returned (true, e0) ->
    parseEntry (append directory (of_string (fst (fst row)))) directory e0 opts
    = Returned e1 ->
    execute sqlFails (Update e1) w = (Thrown e, w') ->
    syncEntryError directory row w e
| sync_deleting (w' : World) :
    exists_ fs (append directory (of_string (fst (fst row)))) = false ->
    execute sqlFails (Delete (to_string (of_string (fst (fst row))))) w
    = (Thrown e, w') ->
    syncEntryError directory row w e.

(** an error in the loop over [l] started in [w0]: the passes over the
    elements before [x] have returned, and the error is in the pass over
    [x] *)
Definition loopError {A} (l : list A) (body : A -> M unit)
  (bodyError : A -> World -> Exception -> Prop) (w0 : World) (e : Exception) : Prop :=
  exists pre x post w1,
    l = pre ++ x :: post
    /\ forEach pre body w0 = (Returned tt, w1)
    /\ bodyError x w1 e.

(** the loop of a call, once its paths are resolved *)
Definition theLoop (c : Call) (w : World) : Outcome (M unit) :=
  let directory := rootDirectory (db w) in
  match c with
  | Add fuel paths =>
      pathList <~ getIndexPathList fs fuel directory paths true ;;
      Returned (forEach pathList (addEntry fs parseEntry sqlFails directory))
  | Remove fuel paths =>
      pathList <~ getIndexPathList fs fuel directory paths false ;;
      Returned (forEach pathList (removeEntry fs sqlFails directory))
  | Sync => Returned (syncRows fs parseEntry sqlFails directory)
  end.

(** the error [e] occurs in the call [c] started in [w] *)
Inductive occurs : Call -> World -> Exception -> Prop :=
| resolving (c : Call) (w : World) (e : Exception) :
    theLoop c w = Thrown e ->
    occurs c w e
| beginning (c : Call) (w : World) (e : Exception) (body : M unit) (w' : World) :
    theLoop c w = Returned body ->
    exec sqlFails Begin w = (Thrown e, w') ->
    occurs c w e
| adding (fuel : nat) (paths : list string) (w : World) (e : Exception)
         (pathList : list path) (w0 : World) :
    getIndexPathList fs fuel (rootDirectory (db w)) paths true = Returned pathList ->
    exec sqlFails Begin w = (Returned tt, w0) ->
    loopError pathList (addEntry fs parseEntry sqlFails (rootDirectory (db w)))
              (addEntryError (rootDirectory (db w))) w0 e ->
    occurs (Add fuel paths) w e
| removing (fuel : nat) (paths : list string) (w : World) (e : Exception)
           (pathList : list path) (w0 : World) :
    getIndexPathList fs fuel (rootDirectory (db w)) paths false = Returned pathList ->
    exec sqlFails Begin w = (Returned tt, w0) ->
    loopError pathList (removeEntry fs sqlFails (rootDirectory (db w)))
              (removeEntryError (rootDirectory (db w))) w0 e ->
    occurs (Remove fuel paths) w e
| syncing (w : World) (e : Exception) (w0 : World) :
    exec sqlFails Begin w = (Returned tt, w0) ->
    loopError (map fetched (view (db w0)))
              (syncEntry fs parseEntry sqlFails (rootDirectory (db w)))
              (syncEntryError (rootDirectory (db w))) w0 e ->
    occurs Sync w e
| committing (c : Call) (w : World) (e : Exception) (body : M unit)
             (w0 w1 w' : World) :
    theLoop c w = Returned body ->
    exec sqlFails Begin w = (Returned tt, w0) ->
    body w0 = (Returned tt, w1) ->
    exec sqlFails Commit w1 = (Thrown e, w') ->
    occurs c w e.
End Errors.

(** a classifier that cannot read anything *)
Definition unreadable (p rootDirectory : path) (e : Entry.t) (o : ParseEntryOpts)
  : Outcome Entry.t :=
  Thrown (AppException "cannot read").

End Scenario.

(* ================================================================== *)
(** ** Vocabulary of the further theorems on the parser and the
       string helpers *)
(* ================================================================== *)

Module MoreSpec.
Import Exif.

(** every character is a space in the sense of [std::isspace] *)
Fixpoint blank (s : string) : bool :=
  match s with
  | EmptyString => true
  | String c s' => Utils.isspace c && blank s'
  end.

(** the first and the last character, when there is one *)
Definition first_char (s : string) : option ascii := get 0 s.
Definition last_char (s : string) : option ascii := get (length s - 1) s.

Definition not_space (c : option ascii) : Prop :=
  match c with
  | Some c => Utils.isspace c = false
  | None => False
  end.

(** an ASCII letter *)
Definition is_letter (c : ascii) : bool :=
  let n := nat_of_ascii c in
  ((65 <=? n)%nat && (n <=? 90)%nat) || ((97 <=? n)%nat && (n <=? 122)%nat).

(** the range of a C++ [int] *)
Definition in_int_range (z : Z) : Prop := (- 2 ^ 31 <= z < 2 ^ 31)%Z.

(** an image with the two pixel dimensions and make and model tags *)
Definition sized (w h : Z) : ExifData spec_float :=
  [("Exif.Photo.PixelXDimension", @ExifSpec.number _ binary32 w);
   ("Exif.Photo.PixelYDimension", @ExifSpec.number _ binary32 h);
   ("Exif.Photo.LensMake", @ExifSpec.text _ binary32 "Sigma");
   ("Exif.Image.Make", @ExifSpec.text _ binary32 "Canon");
   ("Exif.Image.Model", @ExifSpec.text _ binary32 "  Canon EOS 5D  ")].

End MoreSpec.

(* ================================================================== *)
(** ** Vocabulary of the further theorems on the engine *)
(* ================================================================== *)

Module EngineSpec.
Import Path FS Ddb Scenario.
Local Open Scope list_scope.

(** the line the engine prints for a statement *)
Definition lineOf (s : Sql) : string :=
  match s with
  | Insert e => "A" ++ TAB ++ Entry.path e
  | Update e => "U" ++ TAB ++ Entry.path e
  | Delete p => "D" ++ TAB ++ p
  | Begin | Commit => ""
  end.

(** a computation that prints one line for each statement it executes, in
    order, and executes only statements that [may] allows *)
Definition logs (may : Sql -> Prop) {A} (c : M A) : Prop :=
  forall w o w',
    c w = (o, w') ->
    exists stmts,
      executed w' = executed w ++ stmts
      /\ cout w' = cout w ++ map lineOf stmts
      /\ Forall may stmts.

Section May.
Variable fs : filesystem.
Variable parseEntry : path -> path -> Entry.t -> ParseEntryOpts -> Outcome Entry.t.
Variable directory : path.

(** what add may execute: the INSERT of a classified path, the UPDATE of
    a path that [checkUpdate] reported changed *)
Definition addMay (s : Sql) : Prop :=
  match s with
  | Insert e => exists p, parseEntry p directory Entry.empty opts = Returned e
  | Update e =>
      exists p dbMtime dbHash e0,
        checkUpdate fs Entry.empty p dbMtime dbHash = Returned (true, e0)
        /\ parseEntry p directory e0 opts = Returned e
  | _ => False
  end.

(** what sync may execute on the rows [rows]: the UPDATE of a row whose
    file exists and was reported changed, the DELETE of a row whose file
    does not exist *)
Definition syncMay (rows : list Entry.t) (s : Sql) : Prop :=
  match s with
  | Update e =>
      exists r e0,
        In r rows
        /\ exists_ fs (append directory (of_string (Entry.path r))) = true
        /\ checkUpdate fs Entry.empty (append directory (of_string (Entry.path r)))
                       (Entry.mtime r) (Entry.hash r) = Returned (true, e0)
        /\ parseEntry (append directory (of_string (Entry.path r))) directory e0 opts
           = Returned e
  | Delete p =>
      exists r,
        In r rows
        /\ p = to_string (of_string (Entry.path r))
        /\ exists_ fs (append directory (of_string (Entry.path r))) = false
  | _ => False
  end.
End May.

(** the paths inserted, and the paths deleted, by a list of statements *)
Definition inserted (stmts : list Sql) : list string :=
  flat_map (fun s => match s with Insert e => [Entry.path e] | _ => [] end) stmts.

Definition deleted (stmts : list Sql) : list string :=
  flat_map (fun s => match s with Delete p => [p] | _ => [] end) stmts.

Definition among (l : list string) (p : string) : bool :=
  existsb (String.eqb p) l.

(** the path column of a stored row is a pathname in generic form *)
Definition genericPath (r : Entry.t) : Prop :=
  to_string (of_string (Entry.path r)) = Entry.path r.

(** the file of the stored path [q] exists under [directory] *)
Definition present (fs : filesystem) (directory : path) (q : string) : bool :=
  exists_ fs (append directory (of_string q)).

(** the stored path of a row is relative: it does not start with "/" *)
Definition relativeRow (r : Entry.t) : Prop :=
  prefix "/" (Entry.path r) = false.

(** the key under which add and remove look a path up *)
Definition keyOf (fs : filesystem) (directory p : path) : string :=
  to_string (relativePath fs p directory).

(** every name in the tree is a file name: not empty, not ".", ".." or "/" *)
Fixpoint wellNamed (n : node) : bool :=
  match n with
  | File _ _ => true
  | Dir _ es =>
      (fix each (es : list (string * node)) : bool :=
         match es with
         | [] => true
         | (name, c) :: es' => is_name name && wellNamed c && each es'
         end) es
  end.

(** a candidate that the listings accept: it is named .ddb (and is
    skipped), or it names something *)
Definition listable (fs : filesystem) (s : string) : bool :=
  String.eqb (filename (of_string s)) DDB_DIR || exists_ fs (of_string s).

(** [names] lead from the node [n] down to the node [c], one directory
    entry after the other *)
Fixpoint leads (n : node) (names : list string) (c : node) : Prop :=
  match names with
  | [] => c = n
  | name :: rest =>
      match n with
      | Dir _ es => exists c', In (name, c') es /\ leads c' rest c
      | File _ _ => False
      end
  end.

(** the names lead from a directory to an entry without going through a
    .ddb directory: no name but the last is ".ddb" *)
Definition outsideDdb (names : list string) : Prop :=
  ~ In DDB_DIR (removelast names).

(** [rp] is [p] or an ancestor of [p] *)
Definition ancestorOrSelf (rp p : path) : Prop := exists rest, p = rp ++ rest.

(** [rp] is the entry that [names] leads to from the directory [p] *)
Definition entryBelow (p : path) (names : list string) (rp : path) : Prop :=
  names <> [] /\ rp = strip_trailing p ++ names.

End EngineSpec.

(* ================================================================== *)
(** ** Opening an index ([ddb::open], src/libs/ddb.cpp) *)
(* ================================================================== *)

Module Opening.
Import Path FS Ddb.
Local Open Scope list_scope.

Section Open.
Variable fs : filesystem.
(** What the database file at a path holds: [Database::open] and
    [Database::tableExists] are not in src/. *)
Variable tableExists : path -> string -> bool.
Variable stored : path -> list Entry.t.

(** [open(directory, traverseUp)], for at most [fuel] calls.  The
    argument is the path that the string denotes: the recursive call
    [open(dirPath.parent_path(), true)] converts the path to a string and
    back, which gives the same path. *)
Fixpoint open (fuel : nat) (directory : path) (traverseUp : bool)
  : Outcome Database :=
  match fuel with
  | O => OutOfFuel
  | S fuel' =>
      let dirPath := absolute fs directory in
      let ddbDirPath := append dirPath (of_string ".ddb") in
      let dbasePath := append ddbDirPath (of_string "dbase.sqlite") in
      if exists_ fs dbasePath then
        if negb (tableExists dbasePath "entries") then
          Thrown (DBException ("Table 'entries' not found (not a valid database: "
                               ++ to_string dbasePath ++ ")"))
        else Returned (mkDb dbasePath (stored dbasePath) None)
      else if traverseUp && negb (path_eqb (parent_path dirPath) dirPath) then
        open fuel' (parent_path dirPath) true
      else
        Thrown (FSException
                  "Not a valid DroneDB directory, .ddb does not exist. Did you run ddb init?")
  end.
End Open.

(** .ddb/dbase.sqlite in a directory *)
Definition dbaseOf (dirPath : path) : path :=
  append (append dirPath (of_string ".ddb")) (of_string "dbase.sqlite").

(** the directory [i] levels above [dirPath]; "/" is above itself *)
Definition above (i : nat) (dirPath : path) : path :=
  Nat.iter i parent_path dirPath.

(** a database file holds a valid index with no rows *)
Definition valid (p : path) (table : string) : bool := String.eqb table "entries".
Definition invalid (p : path) (table : string) : bool := false.
Definition noRows (p : path) : list Entry.t := [].

End Opening.

(* ================================================================== *)
(** ** Theorems: the EXIF parser *)
(* ================================================================== *)

Module ExifFacts.
Import Exif ExifSpec.

(** *** Case-insensitive comparison with a one-letter reference *)

Lemma toUpper_single (s : string) (u l : ascii) :
  (forall a, Ascii.eqb (Utils.toupper a) u = Ascii.eqb a u || Ascii.eqb a l) ->
  String.eqb (Utils.toUpper s) (String u "") =
  String.eqb s (String u "") || String.eqb s (String l "").
Proof.
  intros H. destruct s as [|a s]; [reflexivity|].
  cbn [Utils.toUpper Utils.transform String.eqb]. rewrite H.
  destruct s as [|b s]; cbn [Utils.transform String.eqb];
    destruct (Ascii.eqb a u), (Ascii.eqb a l); reflexivity.
Qed.

Lemma toupper_S a :
  Ascii.eqb (Utils.toupper a) "S" = Ascii.eqb a "S" || Ascii.eqb a "s".
Proof. destruct a as [[] [] [] [] [] [] [] []]; vm_compute; reflexivity. Qed.

Lemma toupper_W a :
  Ascii.eqb (Utils.toupper a) "W" = Ascii.eqb a "W" || Ascii.eqb a "w".
Proof. destruct a as [[] [] [] [] [] [] [] []]; vm_compute; reflexivity. Qed.

Lemma evalFrac_frac {D} `{FloatOps D} (r : Rational) : evalFrac r = frac r.
Proof.
  unfold evalFrac, frac. destruct (snd r); reflexivity.
Qed.

(** C9.  For every degrees/minutes/seconds triple and every hemisphere
    reference (present or absent), [geoToDecimal] is
    sign * (deg + min/60 + sec/3600), the sign being -1 exactly when the
    reference is "S" or "W" in either case and +1 otherwise; a component
    whose denominator is 0 counts as 0.  In double precision (45,30,0)
    gives 45.5 with "N" and -45.5 with "S". *)
Theorem geoToDecimal_decimal_degrees :
  (forall (F D : Type) (double_ops : FloatOps D) (tag : Value F)
          (ref : option (Value F)),
      @geoToDecimal F D double_ops (Some tag) ref =
      fmul (if negates ref then lit (-1) 1 else lit 1 1)
           (fadd (fadd (frac (toRational tag 0))
                       (fdiv (frac (toRational tag 1)) (lit 60 1)))
                 (fdiv (frac (toRational tag 2)) (lit 3600 1))))
  /\ (forall (D : Type) (double_ops : FloatOps D) (n : Z),
         @evalFrac D double_ops (n, 0%Z) = lit 0 1)
  /\ (forall (D : Type) (double_ops : FloatOps D) (n d : Z),
         d <> 0%Z -> @evalFrac D double_ops (n, d) = fdiv (of_long n) (of_long d))
  /\ @geoToDecimal _ _ binary64
       (Some (@dms _ binary32 (45, 1) (30, 1) (0, 1))%Z)
       (Some (@text _ binary32 "N"))
     = S754_finite false (91 * 2 ^ 46) (-47)      (* 45.5 *)
  /\ @geoToDecimal _ _ binary64
       (Some (@dms _ binary32 (45, 1) (30, 1) (0, 1))%Z)
       (Some (@text _ binary32 "S"))
     = S754_finite true (91 * 2 ^ 46) (-47).      (* -45.5 *)
Proof.
  split; [|split; [|split; [|split]]].
  - intros F D ops tag ref. unfold geoToDecimal.
    rewrite !evalFrac_frac. f_equal.
    destruct ref as [r|]; [|reflexivity].
    unfold negates. cbn [existsb].
    rewrite (toUpper_single _ "S" "s" toupper_S).
    rewrite (toUpper_single _ "W" "w" toupper_W).
    rewrite orb_false_r, <- !orb_assoc. reflexivity.
  - intros. reflexivity.
  - intros D ops n d Hd. unfold evalFrac. cbn [snd fst].
    destruct (Z.eqb_spec d 0); [contradiction|reflexivity].
  - vm_compute. reflexivity.
  - vm_compute. reflexivity.
Qed.

(** *** The loop that strips the make from the model *)

Lemma find_empty (model : string) : find "" model = Some 0.
Proof. destruct model; reflexivity. Qed.

Lemma erase_nothing (model : string) : erase 0 0 model = model.
Proof.
  unfold erase. cbn [substring Nat.add]. rewrite Nat.sub_0_r.
  destruct model as [|a model]; [reflexivity|].
  cbn [substring String.append length].
  f_equal. clear a. induction model as [|b m IH]; [reflexivity|].
  cbn [length substring]. f_equal. exact IH.
Qed.

Lemma stripMake_empty (fuel : nat) (model : string) :
  stripMake fuel "" model = None.
Proof.
  induction fuel as [|fuel IH]; [reflexivity|].
  cbn [stripMake]. rewrite find_empty. cbn [length].
  rewrite erase_nothing. exact IH.
Qed.

Lemma extractSensor_emptyMake {F} `{FloatOps F} (model : string) (fuel : nat) :
  extractSensor (emptyMake model) fuel = None.
Proof.
  unfold extractSensor.
  change (extractMake (emptyMake model)) with "".
  change (Utils.toLower "") with "".
  cbn [String.eqb]. rewrite stripMake_empty. reflexivity.
Qed.

(** C10 (the code does not do what the claim says).  When the make tag
    is present and empty, the loop of [extractSensor] finds the empty
    make at position 0 of the model, erases no character and tests
    again: whatever the model and however long it runs, it has not
    returned. *)
Theorem extractSensor_empty_make_never_returns :
  forall (F : Type) (ops : FloatOps F) (model : string) (fuel : nat),
    extractSensor (emptyMake model) fuel = None.
Proof.
  intros F ops model fuel. apply extractSensor_emptyMake.
Qed.

(** C8 (the code does not do what the claim says).  On the same image
    (no 35mm tag, a raw focal length, an empty make) [computeFocal]
    asks for the sensor identity and so never returns either: neither
    focal/sensorWidth nor the pair of zeros comes out, whatever the
    lookup table holds. *)
Theorem computeFocal_empty_make_never_returns :
  forall (F : Type) (ops : FloatOps F) (model : string)
         (sensorData : list (string * F)) (fuel : nat),
    computeFocal (emptyMake model) sensorData fuel = None.
Proof.
  intros F ops model table fuel. unfold computeFocal.
  change (findKey (emptyMake model) _) with (@None (Value F)) at 1.
  unfold computeFocalFromSensor.
  rewrite extractSensor_emptyMake. reflexivity.
Qed.

(** C7 (the code does not do what the claim says).  With the resolution
    unit and the X resolution present and the pixel dimensions absent,
    [extractSensorWidth] multiplies the sentinel width -1 through:
    in single precision -1 * (1/100) * 25.4 = -0.254, which is not 0. *)
Theorem extractSensorWidth_without_image_size :
  width (extractImageSize noImageSize) = (-1)%Z
  /\ @extractSensorWidth _ binary32 noImageSize
     = S754_finite true 8522825 (-25)
  /\ @feqb _ binary32 (@extractSensorWidth _ binary32 noImageSize)
            (@lit _ binary32 0 1)
     = false.
Proof.
  split; [|split]; vm_compute; reflexivity.
Qed.

(** *** Termination of the loop when the make is not empty *)

Lemma substring_length (s : string) :
  forall n m, length (substring n m s) = Nat.min m (length s - n).
Proof.
  induction s as [|c s IH]; intros n m.
  - destruct n, m; reflexivity.
  - destruct n as [|n].
    + destruct m as [|m]; [reflexivity|].
      cbn [substring length]. rewrite IH. cbn. rewrite Nat.sub_0_r. reflexivity.
    + cbn [substring length]. rewrite IH. reflexivity.
Qed.

Lemma append_length (a b : string) : length (a ++ b) = length a + length b.
Proof.
  induction a as [|c a IH]; [reflexivity|].
  cbn [String.append length]. rewrite IH. reflexivity.
Qed.

Lemma find_bound (make model : string) (pos : nat) :
  find make model = Some pos -> length make <= length model - pos.
Proof.
  unfold find. intros Hf.
  apply index_correct1 in Hf.
  apply (f_equal length) in Hf. rewrite substring_length in Hf. lia.
Qed.

Lemma erase_length (make model : string) (pos : nat) :
  make <> "" -> find make model = Some pos ->
  length (erase pos (length make) model) < length model.
Proof.
  intros Hne Hf. pose proof (find_bound _ _ _ Hf) as Hb.
  assert (0 < length make) by (destruct make; [congruence|cbn; lia]).
  unfold erase. rewrite append_length, !substring_length. lia.
Qed.

Lemma stripMake_terminates (fuel : nat) :
  forall make model,
    make <> "" -> length model < fuel ->
    exists model', stripMake fuel make model = Some model'.
Proof.
  induction fuel as [|fuel IH]; intros make model Hne Hlen; [lia|].
  cbn [stripMake]. destruct (find make model) as [pos|] eqn:Hf.
  - apply IH; [exact Hne|].
    pose proof (erase_length _ _ _ Hne Hf). lia.
  - exists model. reflexivity.
Qed.

Lemma extractSensor_terminates {F} (data : ExifData F) (fuel : nat) :
  Utils.toLower (extractMake data) <> "" ->
  length (Utils.toLower (extractModel data)) < fuel ->
  exists sensor, extractSensor data fuel = Some sensor.
Proof.
  intros Hne Hlen. unfold extractSensor.
  destruct (String.eqb (Utils.toLower (extractMake data)) "unknown").
  - eexists. reflexivity.
  - destruct (stripMake_terminates fuel _ _ Hne Hlen) as [m Hm].
    rewrite Hm. eexists. reflexivity.
Qed.

(** With a make that is not empty the sensor identity is returned, and
    [computeFocal] then returns what section 4.2 says: the 35mm tag
    when it is present and positive, else focal/sensorWidth with the
    width of the resolution tags or, when that is 0, of the table. *)
Theorem computeFocal_refines_focal35mm :
  forall (F : Type) (ops : FloatOps F) (data : ExifData F)
         (sensorData : list (string * F)) (fuel : nat),
    Utils.toLower (extractMake data) <> "" ->
    length (Utils.toLower (extractModel data)) < fuel ->
    exists sensor,
      extractSensor data fuel = Some sensor
      /\ computeFocal data sensorData fuel = Some (focal35mm data sensorData sensor).
Proof.
  intros F ops data table fuel Hne Hlen.
  destruct (extractSensor_terminates data fuel Hne Hlen) as [sensor Hs].
  exists sensor. split; [exact Hs|].
  unfold computeFocal, focal35mm, computeFocalFromSensor. rewrite Hs.
  destruct (findKey data ["Exif.Photo.FocalLengthIn35mmFilm";
                          "Exif.Image.FocalLengthIn35mmFilm"]) as [v35|];
    destruct (findKey data ["Exif.Photo.FocalLength"; "Exif.Image.FocalLength"])
      as [vf|];
    try destruct (fgtb (toFloat v35) (of_long 0));
    destruct (feqb (extractSensorWidth data) (lit 0 1));
    destruct (sensorLookup table sensor);
    try destruct (fgtb _ (lit 0 1)); reflexivity.
Qed.

Lemma computeFocal_refines_focal35mm_witness :
  exists sensor,
    extractSensor canon 13 = Some sensor
    /\ @computeFocal _ binary32 canon canonTable 13
       = Some (@focal35mm _ binary32 canon canonTable sensor).
Proof.
  apply (computeFocal_refines_focal35mm spec_float binary32 canon canonTable 13).
  - vm_compute. discriminate.
  - vm_compute. lia.
Defined.

(** The sensor identity is returned whenever the make, in lower case, is
    not empty: the loop then erases at least one character at each turn,
    so a fuel above the length of the model is enough. *)
Theorem extractSensor_returns_when_make_not_empty :
  forall (F : Type) (data : ExifData F) (fuel : nat),
    Utils.toLower (extractMake data) <> "" ->
    length (Utils.toLower (extractModel data)) < fuel ->
    exists sensor, extractSensor data fuel = Some sensor.
Proof.
  intros F data fuel Hne Hlen. apply extractSensor_terminates; assumption.
Qed.

Lemma extractSensor_returns_when_make_not_empty_witness :
  exists sensor, extractSensor canon 13 = Some sensor.
Proof.
  apply (extractSensor_returns_when_make_not_empty spec_float canon 13).
  - vm_compute. discriminate.
  - vm_compute. lia.
Defined.

(** What [extractSensorWidth] computes, in single precision: 0 when the
    resolution unit or the X resolution is missing or the unit is neither
    2 nor 3; otherwise width * (1 / pixelsPerUnit) * mmPerUnit with 25.4
    for unit 2 and 10.0 for unit 3, the width being that of
    [extractImageSize] (-1 when the pixel dimensions are missing). *)
Theorem extractSensorWidth_cases :
  forall (data : ExifData spec_float),
    let fUnit := findKey data ["Exif.Photo.FocalPlaneResolutionUnit";
                               "Exif.Image.FocalPlaneResolutionUnit"] in
    let fXRes := findKey data ["Exif.Photo.FocalPlaneXResolution";
                               "Exif.Image.FocalPlaneXResolution"] in
    let widthInPixels := @of_long _ binary32 (width (extractImageSize data)) in
    (fUnit = None \/ fXRes = None ->
     @extractSensorWidth _ binary32 data = S754_zero false)
    /\ (forall u x, fUnit = Some u -> fXRes = Some x ->
                    toLong u <> 2%Z -> toLong u <> 3%Z ->
                    @extractSensorWidth _ binary32 data = S754_zero false)
    /\ (forall u x, fUnit = Some u -> fXRes = Some x -> toLong u = 2%Z ->
                    @extractSensorWidth _ binary32 data
                    = SFmul 24 128
                        (SFmul 24 128 widthInPixels
                               (SFdiv 24 128 (@lit _ binary32 1 1) (toFloat x)))
                        (@lit _ binary32 254 10))
    /\ (forall u x, fUnit = Some u -> fXRes = Some x -> toLong u = 3%Z ->
                    @extractSensorWidth _ binary32 data
                    = SFmul 24 128
                        (SFmul 24 128 widthInPixels
                               (SFdiv 24 128 (@lit _ binary32 1 1) (toFloat x)))
                        (@lit _ binary32 10 1)).
Proof.
  intros data fUnit fXRes widthInPixels. unfold extractSensorWidth.
  fold fUnit fXRes. repeat split.
  - intros [-> | ->]; [reflexivity|]. destruct fUnit; reflexivity.
  - intros u x -> -> H2 H3. unfold getMmPerUnit.
    destruct (Z.eqb_spec (toLong u) 2); [contradiction|].
    destruct (Z.eqb_spec (toLong u) 3); [contradiction|]. reflexivity.
  - intros u x -> -> H2. unfold getMmPerUnit. rewrite H2. reflexivity.
  - intros u x -> -> H3. unfold getMmPerUnit. rewrite H3. reflexivity.
Qed.

(** The two focal examples of section 8, in single precision: a 35mm tag
    of 50 alone gives f35 = 50 and ratio = 50/36.0, about 1.389; a raw
    focal of 24 with a sensor width of 23.5 (from the table) gives a ratio
    of about 1.0213 and f35 of about 36.77. *)
Theorem focal_examples :
  (exists r,
      @computeFocal _ binary32 fifty [] 0
      = Some (mkFocal (@of_long _ binary32 50) r)
      /\ within r 13888 13889)
  /\ (exists f r,
         @computeFocal _ binary32 canon canonTable 13 = Some (mkFocal f r)
         /\ within r 10212 10213
         /\ within f 367659 367660).
Proof.
  split.
  - eexists. split; [vm_compute; reflexivity|]. vm_compute. split; reflexivity.
  - do 2 eexists. split; [vm_compute; reflexivity|].
    split; vm_compute; split; reflexivity.
Qed.

(** What the negative width of C7 does next: the table holds the sensor
    of the image (23.5 mm), but the width from the tags is -0.254, not 0,
    so [computeFocal] does not look the sensor up, finds no positive
    width, and returns the pair of zeros. *)
Theorem negative_width_hides_the_table :
  extractSensor canonNoImageSize 13 = Some "canon eos 5d"
  /\ sensorLookup canonTable "canon eos 5d" = Some (@lit _ binary32 235 10)
  /\ @computeFocal _ binary32 canonNoImageSize canonTable 13
     = Some (mkFocal (S754_zero false) (S754_zero false)).
Proof.
  repeat split; vm_compute; reflexivity.
Qed.

End ExifFacts.

(* ================================================================== *)
(** ** Theorems: the index engine *)
(* ================================================================== *)

Module DdbFacts.
Import Path FS Ddb Scenario.
Local Open Scope list_scope.

(** *** The change detector on a file that was only touched *)

Section Touched.
Variable fs : filesystem.
Variable parseEntry : path -> path -> Entry.t -> ParseEntryOpts -> Outcome Entry.t.
Variable sqlFails : Sql -> list Entry.t -> bool.

Lemma status_exists (p : path) (n : node) :
  status fs p = Some n -> exists_ fs p = true.
Proof. unfold exists_. intros ->. reflexivity. Qed.

Lemma checkUpdate_touched (e : Entry.t) (p : path) (t dbMtime : Z) (h : string) :
  status fs p = Some (File t h) -> t <> dbMtime ->
  checkUpdate fs e p dbMtime h
  = Returned (false, Entry.with_hash h (Entry.with_mtime t e)).
Proof.
  intros Hst Hne. unfold checkUpdate, is_directory, getModifiedTime, fileSHA256.
  rewrite Hst. cbn.
  destruct (Z.eqb_spec t dbMtime) as [Heq|_]; [contradiction|].
  cbn. rewrite String.eqb_refl. reflexivity.
Qed.

(** A tracked file (not a directory) whose modification time on disk
    differs from the stored one while its recomputed hash equals the
    stored hash: [checkUpdate] reports no change, and the pass of
    [syncIndex] over its row leaves the whole process state as it was: no
    line printed, no statement executed, every stored row (its old
    modification time included) as before.  So does the pass of
    [addToIndex] over its path when the SELECT of add finds its row. *)
Theorem touched_file_is_left_alone :
  forall (directory : path) (text : string) (candidate : path)
         (stored : Entry.t) (w : World) (t : Z) (e : Entry.t),
    (* on disk: a file, modified at [t], whose digest is the stored one;
       sync reaches it from its row, add from a candidate path *)
    status fs (append directory (of_string text))
    = Some (File t (Entry.hash stored)) ->
    status fs candidate = Some (File t (Entry.hash stored)) ->
    t <> Entry.mtime stored ->
    (* the row [addToIndex] finds for it *)
    List.find (has_path (to_string (relativePath fs candidate directory)))
              (view (db w)) = Some stored ->
    (exists e', checkUpdate fs e candidate (Entry.mtime stored) (Entry.hash stored)
                = Returned (false, e'))
    /\ syncEntry fs parseEntry sqlFails directory
                 (text, Entry.mtime stored, Entry.hash stored) w
       = (Returned tt, w)
    /\ addEntry fs parseEntry sqlFails directory candidate w = (Returned tt, w).
Proof.
  intros directory text candidate stored w t e Hst Hcand Hne Hfind.
  split; [|split].
  - eexists. apply (checkUpdate_touched e candidate t _ _ Hcand Hne).
  - unfold syncEntry.
    rewrite (status_exists _ _ Hst).
    unfold bind, lift. rewrite (checkUpdate_touched _ _ t _ _ Hst Hne).
    reflexivity.
  - unfold addEntry.
    unfold bind at 1. unfold fetchByPath. rewrite Hfind.
    unfold bind, lift, ret.
    rewrite (checkUpdate_touched _ candidate t _ _ Hcand Hne).
    reflexivity.
Qed.
End Touched.

(** the picture of [staleIndex]: stored with mtime 5, on disk with
    mtime 6 and the stored content *)
Lemma touched_file_is_left_alone_witness :
  (exists e', checkUpdate fromSlash Entry.empty (of_string "data/root/img.jpg")
                          5 "h1" = Returned (false, e'))
  /\ syncEntry fromSlash (classify fromSlash) noFault (of_string "/data/root")
               ("img.jpg", 5%Z, "h1") staleIndex
     = (Returned tt, staleIndex)
  /\ addEntry fromSlash (classify fromSlash) noFault (of_string "/data/root")
              (of_string "data/root/img.jpg") staleIndex
     = (Returned tt, staleIndex).
Proof.
  apply (touched_file_is_left_alone fromSlash (classify fromSlash) noFault
           (of_string "/data/root") "img.jpg" (of_string "data/root/img.jpg")
           (row "img.jpg" "h1" 5) staleIndex 6%Z Entry.empty).
  - reflexivity.
  - reflexivity.
  - discriminate.
  - reflexivity.
Defined.


(** *** What a call does to the persisted table *)

Section Atomic.
Variable fs : filesystem.
Variable parseEntry : path -> path -> Entry.t -> ParseEntryOpts -> Outcome Entry.t.
Variable sqlFails : Sql -> list Entry.t -> bool.

Lemma view_set_view (d : Database) (t : list Entry.t) :
  view (set_view d t) = t.
Proof. unfold set_view, view. destruct (transaction d); reflexivity. Qed.

Lemma openFile_set_view (d : Database) (t : list Entry.t) :
  openFile (set_view d t) = openFile d.
Proof. unfold set_view. destruct (transaction d); reflexivity. Qed.

Lemma keeps_ret {A} (a : A) : keeps (ret a).
Proof. intros w o w' H Ht. inversion H; subst. auto. Qed.

Lemma keeps_lift {A} (o : Outcome A) : keeps (lift o).
Proof. intros w o' w' H Ht. inversion H; subst. auto. Qed.

Lemma keeps_bind {A B} (c : M A) (k : A -> M B) :
  keeps c -> (forall a, keeps (k a)) -> keeps (bind c k).
Proof.
  intros Hc Hk w o w' H Ht. unfold bind in H.
  destruct (c w) as [[a|e|] w1] eqn:Hcw.
  - destruct (Hc _ _ _ Hcw Ht) as [He1 Ht1].
    destruct (Hk a _ _ _ H Ht1) as [He2 Ht2].
    split; [congruence|assumption].
  - inversion H; subst. exact (Hc _ _ _ Hcw Ht).
  - inversion H; subst. exact (Hc _ _ _ Hcw Ht).
Qed.

Lemma keeps_print (line : string) : keeps (print line).
Proof. intros w o w' H Ht. inversion H; subst. auto. Qed.

Lemma keeps_execute (s : Sql) : keeps (execute sqlFails s).
Proof.
  intros w o w' H Ht. unfold execute in H.
  destruct (sqlFails s (view (db w))).
  - inversion H; subst. auto.
  - inversion H; subst. cbn [db]. unfold set_view.
    destruct (transaction (db w)); [|contradiction].
    cbn. split; [reflexivity|discriminate].
Qed.

Lemma keeps_fetchByPath (p : string) : keeps (fetchByPath p).
Proof. intros w o w' H Ht. inversion H; subst. auto. Qed.

Lemma keeps_fetchAll : keeps fetchAll.
Proof. intros w o w' H Ht. inversion H; subst. auto. Qed.

Lemma keeps_forEach {A} (l : list A) (body : A -> M unit) :
  (forall a, keeps (body a)) -> keeps (forEach l body).
Proof.
  intros Hb. induction l as [|a l IH]; cbn [forEach].
  - apply keeps_ret.
  - apply keeps_bind; [apply Hb|intros _; exact IH].
Qed.

Lemma keeps_doUpdate (e : Entry.t) : keeps (doUpdate sqlFails e).
Proof.
  unfold doUpdate. apply keeps_bind; [apply keeps_execute|].
  intros _. apply keeps_print.
Qed.

Lemma keeps_addEntry (directory p : path) :
  keeps (addEntry fs parseEntry sqlFails directory p).
Proof.
  unfold addEntry. apply keeps_bind; [apply keeps_fetchByPath|].
  intros row. apply keeps_bind.
  - destruct row as [[m h]|]; [|apply keeps_ret].
    apply keeps_bind; [apply keeps_lift|].
    intros [u e]. apply keeps_ret.
  - intros [[update add] e].
    destruct (add || update); [|apply keeps_ret].
    apply keeps_bind; [apply keeps_lift|]. intros e'.
    destruct add.
    + apply keeps_bind; [apply keeps_execute|]. intros _. apply keeps_print.
    + apply keeps_doUpdate.
Qed.

Lemma keeps_removeEntry (directory p : path) :
  keeps (removeEntry fs sqlFails directory p).
Proof.
  unfold removeEntry. apply keeps_bind; [apply keeps_execute|].
  intros changes. destruct (changes >=? 1)%Z; [apply keeps_print|apply keeps_ret].
Qed.

Lemma keeps_syncEntry (directory : path) (row : string * Z * string) :
  keeps (syncEntry fs parseEntry sqlFails directory row).
Proof.
  destruct row as [[text m] h]. unfold syncEntry.
  destruct (exists_ fs (append directory (of_string text))).
  - apply keeps_bind; [apply keeps_lift|]. intros [u e].
    destruct u; [|apply keeps_ret].
    apply keeps_bind; [apply keeps_lift|]. intros e'. apply keeps_doUpdate.
  - apply keeps_bind; [apply keeps_execute|]. intros _. apply keeps_print.
Qed.

(** BEGIN, a body that keeps to the transaction, COMMIT: the persisted
    table changes only when all three return. *)
Lemma transaction_atomic (body : M unit) :
  keeps body ->
  forall w o w',
    (exec sqlFails Begin ;;; body ;;; exec sqlFails Commit) w = (o, w') ->
    o <> Returned tt ->
    entries (db w') = entries (db w).
Proof.
  intros Hk w o w' H Ho. unfold bind at 1 in H.
  destruct (exec sqlFails Begin w) as [[[]|e|] w1] eqn:Hb.
  - assert (Hb1 : entries (db w1) = entries (db w) /\ transaction (db w1) <> None).
    { unfold exec in Hb. destruct (sqlFails Begin (view (db w))); [discriminate|].
      destruct (transaction (db w)); [discriminate|].
      inversion Hb; subst. cbn. split; [reflexivity|discriminate]. }
    destruct Hb1 as [He1 Ht1].
    unfold bind at 1 in H.
    destruct (body w1) as [[[]|e|] w2] eqn:Hbody.
    + destruct (Hk _ _ _ Hbody Ht1) as [He2 Ht2].
      unfold exec in H. destruct (sqlFails Commit (view (db w2))).
      * inversion H; subst. congruence.
      * destruct (transaction (db w2)); [|contradiction].
        inversion H; subst. contradiction.
    + inversion H; subst. destruct (Hk _ _ _ Hbody Ht1). congruence.
    + inversion H; subst. destruct (Hk _ _ _ Hbody Ht1). congruence.
  - assert (w1 = w).
    { unfold exec in Hb. destruct (sqlFails Begin (view (db w)));
        [inversion Hb; reflexivity|].
      destruct (transaction (db w)); inversion Hb; reflexivity. }
    inversion H; subst. reflexivity.
  - unfold exec in Hb. destruct (sqlFails Begin (view (db w))); [discriminate|].
    destruct (transaction (db w)); discriminate.
Qed.

(** Whatever stops a call of add, remove or sync short of returning,
    the persisted table is exactly the one it started from: the inserts,
    updates and deletes made so far live only in the transaction that
    was never committed. *)
Lemma unreturned_call_persists_nothing (c : Call) (w : World)
  (o : Outcome unit) (w' : World) :
  run fs parseEntry sqlFails c w = (o, w') ->
  o <> Returned tt ->
  entries (db w') = entries (db w).
Proof.
  intros H Ho. destruct c as [fuel paths|fuel paths|]; cbn [run] in H.
  - unfold addToIndex in H. unfold bind at 1, lift in H.
    destruct (getIndexPathList fs fuel (rootDirectory (db w)) paths true)
      as [pathList|e|]; [|inversion H; reflexivity|inversion H; reflexivity].
    apply (transaction_atomic _ (keeps_forEach pathList _ (keeps_addEntry _))
             _ _ _ H Ho).
  - unfold removeFromIndex in H. unfold bind at 1, lift in H.
    destruct (getIndexPathList fs fuel (rootDirectory (db w)) paths false)
      as [pathList|e|]; [|inversion H; reflexivity|inversion H; reflexivity].
    apply (transaction_atomic _ (keeps_forEach pathList _ (keeps_removeEntry _))
             _ _ _ H Ho).
  - unfold syncIndex in H.
    refine (transaction_atomic _ _ _ _ _ H Ho).
    unfold syncRows.
    apply keeps_bind; [apply keeps_fetchAll|]. intros rows.
    apply keeps_forEach. intros row. apply keeps_syncEntry.
Qed.

(** **** An error in a pass of a loop ends the pass with that error *)

Lemma addEntry_throws (directory p : path) (w : World) (e : Exception) :
  addEntryError fs parseEntry sqlFails directory p w e ->
  exists w', addEntry fs parseEntry sqlFails directory p w = (Thrown e, w').
Proof.
  intros Herr. unfold addEntry. unfold bind at 1. unfold fetchByPath.
  fold (lookedUp fs directory p w).
  destruct Herr as [m h Hl Hc|m h e0 Hl Hc Hp|m h e0 e1 w' Hl Hc Hp Hx
                   |Hl Hp|e1 w' Hl Hp Hx];
    rewrite Hl; unfold bind at 1.
  - unfold bind at 1, lift. rewrite Hc. eauto.
  - unfold bind at 1, lift, ret. rewrite Hc. cbn [orb].
    unfold bind at 1. rewrite Hp. eauto.
  - unfold bind at 1, lift, ret. rewrite Hc. cbn [orb].
    unfold bind at 1. rewrite Hp. unfold doUpdate, bind. rewrite Hx. eauto.
  - unfold ret. cbn [orb]. unfold bind at 1, lift. rewrite Hp. eauto.
  - unfold ret. cbn [orb]. unfold bind at 1, lift. rewrite Hp.
    unfold bind. rewrite Hx. eauto.
Qed.

Lemma addEntry_thrown (directory p : path) (w : World) (e : Exception) (w' : World) :
  addEntry fs parseEntry sqlFails directory p w = (Thrown e, w') ->
  addEntryError fs parseEntry sqlFails directory p w e.
Proof.
  unfold addEntry. unfold bind at 1. unfold fetchByPath.
  fold (lookedUp fs directory p w).
  destruct (lookedUp fs directory p w) as [[m h]|] eqn:Hl; unfold bind at 1.
  - unfold bind at 1, lift, ret.
    destruct (checkUpdate fs Entry.empty p m h) as [[u e0]|ex|] eqn:Hc.
    + cbn [orb]. destruct u; [|discriminate].
      unfold bind at 1.
      destruct (parseEntry p directory e0 opts) as [e1|ex|] eqn:Hp.
      * unfold doUpdate, bind.
        destruct (execute sqlFails (Update e1) w) as [[z|ex|] w2] eqn:Hx;
          intros H; inversion H; subst.
        exact (add_updating _ _ _ _ _ _ _ m h e0 e1 w' Hl Hc Hp Hx).
      * intros H; inversion H; subst.
        exact (add_classifying_changed _ _ _ _ _ _ _ m h e0 Hl Hc Hp).
      * discriminate.
    + intros H; inversion H; subst. exact (add_reading _ _ _ _ _ _ _ m h Hl Hc).
    + discriminate.
  - unfold ret. cbn [orb]. unfold bind at 1, lift.
    destruct (parseEntry p directory Entry.empty opts) as [e1|ex|] eqn:Hp.
    + unfold bind.
      destruct (execute sqlFails (Insert e1) w) as [[z|ex|] w2] eqn:Hx;
        intros H; inversion H; subst.
      exact (add_inserting _ _ _ _ _ _ _ e1 w' Hl Hp Hx).
    + intros H; inversion H; subst.
      exact (add_classifying_new _ _ _ _ _ _ _ Hl Hp).
    + discriminate.
Qed.

Lemma removeEntry_throws (directory p : path) (w : World) (e : Exception) :
  removeEntryError fs sqlFails directory p w e ->
  exists w', removeEntry fs sqlFails directory p w = (Thrown e, w').
Proof.
  intros [w' Hx]. unfold removeEntry, bind. rewrite Hx. eauto.
Qed.

Lemma removeEntry_thrown (directory p : path) (w : World) (e : Exception)
  (w' : World) :
  removeEntry fs sqlFails directory p w = (Thrown e, w') ->
  removeEntryError fs sqlFails directory p w e.
Proof.
  unfold removeEntry, bind.
  destruct (execute sqlFails (Delete _) w) as [[z|ex|] w2] eqn:Hx.
  - destruct (z >=? 1)%Z; discriminate.
  - intros H; inversion H; subst. exact (remove_deleting _ _ _ _ _ _ w' Hx).
  - discriminate.
Qed.

Lemma syncEntry_throws (directory : path) (row : string * Z * string)
  (w : World) (e : Exception) :
  syncEntryError fs parseEntry sqlFails directory row w e ->
  exists w', syncEntry fs parseEntry sqlFails directory row w = (Thrown e, w').
Proof.
  destruct row as [[text m] h]. cbn [fst snd]. unfold syncEntry.
  intros [Hex Hc|e0 Hex Hc Hp|e0 e1 w' Hex Hc Hp Hx|w' Hex Hx];
    cbn [fst snd] in *; rewrite Hex.
  - unfold bind, lift. rewrite Hc. eauto.
  - unfold bind at 1, lift. rewrite Hc. unfold bind at 1. rewrite Hp. eauto.
  - unfold bind at 1, lift. rewrite Hc. unfold bind at 1. rewrite Hp.
    unfold doUpdate, bind. rewrite Hx. eauto.
  - unfold bind. rewrite Hx. eauto.
Qed.

Lemma syncEntry_thrown (directory : path) (row : string * Z * string)
  (w : World) (e : Exception) (w' : World) :
  syncEntry fs parseEntry sqlFails directory row w = (Thrown e, w') ->
  syncEntryError fs parseEntry sqlFails directory row w e.
Proof.
  destruct row as [[text m] h]. unfold syncEntry.
  destruct (exists_ fs (append directory (of_string text))) eqn:Hex.
  - unfold bind at 1, lift.
    destruct (checkUpdate fs Entry.empty _ m h) as [[u e0]|ex|] eqn:Hc.
    + destruct u; [|discriminate]. unfold bind at 1.
      destruct (parseEntry _ directory e0 opts) as [e1|ex|] eqn:Hp.
      * unfold doUpdate, bind.
        destruct (execute sqlFails (Update e1) w) as [[z|ex|] w2] eqn:Hx;
          intros H; inversion H; subst.
        exact (sync_updating _ _ _ _ (text, m, h) _ _ e0 e1 w' Hex Hc Hp Hx).
      * intros H; inversion H; subst.
        exact (sync_classifying _ _ _ _ (text, m, h) _ _ e0 Hex Hc Hp).
      * discriminate.
    + intros H; inversion H; subst.
      exact (sync_reading _ _ _ _ (text, m, h) _ _ Hex Hc).
    + discriminate.
  - unfold bind.
    destruct (execute sqlFails (Delete _) w) as [[z|ex|] w2] eqn:Hx;
      intros H; inversion H; subst.
    exact (sync_deleting _ _ _ _ (text, m, h) _ _ w' Hex Hx).
Qed.

(** **** An error in a pass ends the loop with that error *)

Lemma loop_throws {A} (l : list A) (body : A -> M unit)
  (bodyError : A -> World -> Exception -> Prop) :
  (forall x w e, bodyError x w e -> exists w', body x w = (Thrown e, w')) ->
  forall w0 e,
    loopError l body bodyError w0 e ->
    exists w', forEach l body w0 = (Thrown e, w').
Proof.
  intros Hb w0 e [pre [x [post [w1 [-> [Hpre Herr]]]]]].
  revert w0 Hpre. induction pre as [|a pre IH]; intros w0 Hpre.
  - inversion Hpre; subst. cbn [app forEach]. unfold bind.
    destruct (Hb _ _ _ Herr) as [w' ->]. eauto.
  - cbn [app forEach] in *. unfold bind at 1 in Hpre. unfold bind at 1.
    destruct (body a w0) as [[[]|ex|] w2]; [|discriminate ..].
    exact (IH _ Hpre).
Qed.

Lemma loop_thrown {A} (l : list A) (body : A -> M unit)
  (bodyError : A -> World -> Exception -> Prop) :
  (forall x w e w', body x w = (Thrown e, w') -> bodyError x w e) ->
  forall w0 e w',
    forEach l body w0 = (Thrown e, w') ->
    loopError l body bodyError w0 e.
Proof.
  intros Hb. induction l as [|a l IH]; intros w0 e w' H; cbn [forEach] in H;
    [discriminate|].
  unfold bind at 1 in H.
  destruct (body a w0) as [[[]|ex|] w2] eqn:Ha.
  - destruct (IH _ _ _ H) as [pre [x [post [w1 [-> [Hpre Herr]]]]]].
    exists (a :: pre), x, post, w1. split; [reflexivity|]. split; [|exact Herr].
    cbn [forEach]. unfold bind at 1. rewrite Ha. exact Hpre.
  - inversion H; subst. exists [], a, l, w0.
    split; [reflexivity|]. split; [reflexivity|]. exact (Hb _ _ _ _ Ha).
  - discriminate.
Qed.

(** **** The call *)

Lemma run_theLoop (c : Call) (w : World) :
  run fs parseEntry sqlFails c w
  = match theLoop fs parseEntry sqlFails c w with
    | Returned body => (exec sqlFails Begin ;;; body ;;; exec sqlFails Commit) w
    | Thrown e => (Thrown e, w)
    | OutOfFuel => (OutOfFuel, w)
    end.
Proof.
  destruct c as [fuel paths|fuel paths|]; cbn [run theLoop].
  - unfold addToIndex, bind at 1, lift.
    destruct (getIndexPathList fs fuel (rootDirectory (db w)) paths true);
      reflexivity.
  - unfold removeFromIndex, bind at 1, lift.
    destruct (getIndexPathList fs fuel (rootDirectory (db w)) paths false);
      reflexivity.
  - reflexivity.
Qed.

Lemma exec_ends (s : Sql) (w : World) : fst (exec sqlFails s w) <> OutOfFuel.
Proof.
  unfold exec. destruct (sqlFails s (view (db w))); [discriminate|].
  destruct s, (transaction (db w)); discriminate.
Qed.

(** an error that occurs in a call is the outcome of the call *)
Lemma error_propagates (c : Call) (w : World) (e : Exception) :
  occurs fs parseEntry sqlFails c w e ->
  exists w', run fs parseEntry sqlFails c w = (Thrown e, w').
Proof.
  intros Herr. rewrite run_theLoop.
  destruct Herr as [c w e Hr|c w e body w' Hr Hb
                   |fuel paths w e pathList w0 Hl Hb Hloop
                   |fuel paths w e pathList w0 Hl Hb Hloop
                   |w e w0 Hb Hloop
                   |c w e body w0 w1 w' Hr Hb Hbody Hc].
  - rewrite Hr. eauto.
  - rewrite Hr. unfold bind at 1. rewrite Hb. eauto.
  - cbn [theLoop]. rewrite Hl. cbn [obind]. unfold bind at 1. rewrite Hb.
    unfold bind at 1.
    destruct (loop_throws _ _ _ (addEntry_throws _) _ _ Hloop) as [w1 ->]. eauto.
  - cbn [theLoop]. rewrite Hl. cbn [obind]. unfold bind at 1. rewrite Hb.
    unfold bind at 1.
    destruct (loop_throws _ _ _ (removeEntry_throws _) _ _ Hloop) as [w1 ->]. eauto.
  - cbn [theLoop]. unfold bind at 1. rewrite Hb.
    unfold bind at 1. unfold syncRows. unfold bind at 1. unfold fetchAll.
    change (map (fun r => (Entry.path r, Entry.mtime r, Entry.hash r)) (view (db w0)))
      with (map fetched (view (db w0))).
    destruct (loop_throws _ _ _ (syncEntry_throws _) _ _ Hloop) as [w1 ->]. eauto.
  - rewrite Hr. unfold bind at 1. rewrite Hb. unfold bind at 1. rewrite Hbody.
    rewrite Hc. eauto.
Qed.

(** an exception that ends a call is an error that occurred in it *)
Lemma thrown_occurred (c : Call) (w : World) (e : Exception) (w' : World) :
  run fs parseEntry sqlFails c w = (Thrown e, w') ->
  occurs fs parseEntry sqlFails c w e.
Proof.
  rewrite run_theLoop.
  destruct (theLoop fs parseEntry sqlFails c w) as [body|ex|] eqn:Hr;
    [|intros H; inversion H; subst; exact (resolving _ _ _ _ _ _ Hr)|discriminate].
  unfold bind at 1.
  destruct (exec sqlFails Begin w) as [[[]|ex|] w0] eqn:Hb;
    [|intros H; inversion H; subst; exact (beginning _ _ _ _ _ _ _ _ Hr Hb)
     |discriminate].
  unfold bind at 1.
  destruct (body w0) as [[[]|ex|] w1] eqn:Hbody; [| |discriminate].
  - intros Hc. exact (committing _ _ _ _ _ _ _ _ _ _ Hr Hb Hbody Hc).
  - intros H; inversion H; subst ex w1; clear H.
    destruct c as [fuel paths|fuel paths|]; cbn [theLoop] in Hr.
    + destruct (getIndexPathList fs fuel (rootDirectory (db w)) paths true)
        as [pathList|ex|] eqn:Hl; cbn [obind] in Hr; [|discriminate ..].
      inversion Hr; subst body; clear Hr.
      apply (adding _ _ _ _ _ _ _ pathList w0 Hl Hb).
      exact (loop_thrown _ _ _ (addEntry_thrown _) _ _ _ Hbody).
    + destruct (getIndexPathList fs fuel (rootDirectory (db w)) paths false)
        as [pathList|ex|] eqn:Hl; cbn [obind] in Hr; [|discriminate ..].
      inversion Hr; subst body; clear Hr.
      apply (removing _ _ _ _ _ _ _ pathList w0 Hl Hb).
      exact (loop_thrown _ _ _ (removeEntry_thrown _) _ _ _ Hbody).
    + inversion Hr; subst body; clear Hr.
      apply (syncing _ _ _ _ _ w0 Hb).
      unfold syncRows, bind, fetchAll in Hbody.
      exact (loop_thrown _ _ _ (syncEntry_thrown _) _ _ _ Hbody).
Qed.

(** C3.  Add, remove and sync are atomic.  An error that occurs inside
    a call (in the resolution of the paths, in BEGIN, in a pass of the
    loop while reading the file system, classifying or executing a
    statement, in COMMIT) ends the call with that very exception, and
    the persisted table is exactly the one the call started from: the
    inserts, updates and deletes made before the error live only in the
    transaction that was never committed.  Conversely a call ends with
    an exception only when such an error has occurred, and whatever
    keeps a call from returning, the persisted table is the one it
    started from. *)
Theorem failed_call_persists_nothing :
  forall (c : Call) (w : World),
    (forall e,
        occurs fs parseEntry sqlFails c w e ->
        exists w',
          run fs parseEntry sqlFails c w = (Thrown e, w')
          /\ entries (db w') = entries (db w))
    /\ (forall o w',
           run fs parseEntry sqlFails c w = (o, w') ->
           o <> Returned tt ->
           entries (db w') = entries (db w)
           /\ forall e, o = Thrown e -> occurs fs parseEntry sqlFails c w e).
Proof.
  intros c w. split.
  - intros e Herr. destruct (error_propagates c w e Herr) as [w' Hrun].
    exists w'. split; [exact Hrun|].
    apply (unreturned_call_persists_nothing c w _ _ Hrun). discriminate.
  - intros o w' Hrun Ho. split.
    + exact (unreturned_call_persists_nothing c w o w' Hrun Ho).
    + intros e ->. exact (thrown_occurred c w e w' Hrun).
Qed.
End Atomic.

(** the storage refuses the DELETE of sync after an UPDATE was executed;
    the classifier cannot read the directory that sync finds changed *)
Lemma failed_call_persists_nothing_witness :
  (occurs fromSlash (classify fromSlash) refuseDelete Sync staleIndex
          (DBException "execute")
   /\ exists w',
        run fromSlash (classify fromSlash) refuseDelete Sync staleIndex
        = (Thrown (DBException "execute"), w')
        /\ executed w' <> []
        /\ entries (db w') = entries (db staleIndex))
  /\ (occurs fromSlash unreadable noFault Sync staleIndex
             (AppException "cannot read")
      /\ exists w',
           run fromSlash unreadable noFault Sync staleIndex
           = (Thrown (AppException "cannot read"), w')
           /\ entries (db w') = entries (db staleIndex)).
Proof.
  assert (Hrefused : occurs fromSlash (classify fromSlash) refuseDelete Sync
                            staleIndex (DBException "execute")).
  { eapply syncing; [reflexivity|].
    exists [fetched (row "img.jpg" "h1" 5); fetched (row "a" "" 6);
            fetched (row "a/b/c.txt" "h2" 9)],
           (fetched (row "gone.jpg" "h3" 4)), []. eexists.
    split; [reflexivity|]. split; [vm_compute; reflexivity|].
    eapply sync_deleting; vm_compute; reflexivity. }
  assert (Hunread : occurs fromSlash unreadable noFault Sync staleIndex
                           (AppException "cannot read")).
  { eapply syncing; [reflexivity|].
    exists [fetched (row "img.jpg" "h1" 5)], (fetched (row "a" "" 6)),
           [fetched (row "a/b/c.txt" "h2" 9); fetched (row "gone.jpg" "h3" 4)].
    eexists.
    split; [reflexivity|]. split; [vm_compute; reflexivity|].
    eapply sync_classifying; vm_compute; reflexivity. }
  split; (split; [assumption|]).
  - destruct (proj1 (failed_call_persists_nothing fromSlash (classify fromSlash)
                       refuseDelete Sync staleIndex) _ Hrefused)
      as [w' [Hrun Hkept]].
    exists w'. split; [exact Hrun|]. split; [|exact Hkept].
    vm_compute in Hrun. inversion Hrun. discriminate.
  - exact (proj1 (failed_call_persists_nothing fromSlash unreadable noFault
                    Sync staleIndex) _ Hunread).
Defined.

(** *** What a call that returns has persisted *)

Section Committed.
Variable fs : filesystem.
Variable parseEntry : path -> path -> Entry.t -> ParseEntryOpts -> Outcome Entry.t.
Variable sqlFails : Sql -> list Entry.t -> bool.

Lemma tracks_nothing {A} (c : M A) :
  (forall w, exists o, c w = (o, w)) -> tracks c.
Proof.
  intros Hc w o w' H. destruct (Hc w) as [o' Ho]. rewrite Ho in H.
  inversion H; subst. exists []. rewrite app_nil_r. split; reflexivity.
Qed.

Lemma tracks_ret {A} (a : A) : tracks (ret a).
Proof. apply tracks_nothing. intros w. eexists. reflexivity. Qed.

Lemma tracks_lift {A} (o : Outcome A) : tracks (lift o).
Proof. apply tracks_nothing. intros w. eexists. reflexivity. Qed.

Lemma tracks_fetchByPath (p : string) : tracks (fetchByPath p).
Proof. apply tracks_nothing. intros w. eexists. reflexivity. Qed.

Lemma tracks_fetchAll : tracks fetchAll.
Proof. apply tracks_nothing. intros w. eexists. reflexivity. Qed.

Lemma tracks_print (line : string) : tracks (print line).
Proof.
  intros w o w' H. inversion H; subst. exists []. cbn.
  rewrite app_nil_r. split; reflexivity.
Qed.

Lemma tracks_bind {A B} (c : M A) (k : A -> M B) :
  tracks c -> (forall a, tracks (k a)) -> tracks (bind c k).
Proof.
  intros Hc Hk w o w' H. unfold bind in H.
  destruct (c w) as [[a|e|] w1] eqn:Hcw.
  - destruct (Hc _ _ _ Hcw) as [s1 [He1 Hv1]].
    destruct (Hk a _ _ _ H) as [s2 [He2 Hv2]].
    exists (s1 ++ s2). rewrite He2, He1, Hv2, Hv1, app_assoc.
    unfold replay. rewrite fold_left_app. split; reflexivity.
  - inversion H; subst. exact (Hc _ _ _ Hcw).
  - inversion H; subst. exact (Hc _ _ _ Hcw).
Qed.

Lemma tracks_forEach {A} (l : list A) (body : A -> M unit) :
  (forall a, tracks (body a)) -> tracks (forEach l body).
Proof.
  intros Hb. induction l as [|a l IH]; cbn [forEach].
  - apply tracks_ret.
  - apply tracks_bind; [apply Hb|intros _; exact IH].
Qed.

Lemma tracks_execute (s : Sql) : tracks (execute sqlFails s).
Proof.
  intros w o w' H. unfold execute in H.
  destruct (sqlFails s (view (db w))); inversion H; subst.
  - exists []. rewrite app_nil_r. split; reflexivity.
  - exists [s]. cbn [db executed]. rewrite view_set_view. split; reflexivity.
Qed.

Lemma tracks_exec (s : Sql) : tracks (exec sqlFails s).
Proof.
  intros w o w' H. exists []. rewrite app_nil_r. cbn [replay fold_left].
  unfold exec in H. destruct (sqlFails s (view (db w))); [inversion H; auto|].
  unfold view in *.
  destruct s, (transaction (db w)) eqn:Ht; inversion H; subst; cbn;
    rewrite ?Ht; auto.
Qed.

Lemma tracks_doUpdate (e : Entry.t) : tracks (doUpdate sqlFails e).
Proof.
  unfold doUpdate. apply tracks_bind; [apply tracks_execute|].
  intros _. apply tracks_print.
Qed.

Lemma tracks_addEntry (directory p : path) :
  tracks (addEntry fs parseEntry sqlFails directory p).
Proof.
  unfold addEntry. apply tracks_bind; [apply tracks_fetchByPath|].
  intros row. apply tracks_bind.
  - destruct row as [[m h]|]; [|apply tracks_ret].
    apply tracks_bind; [apply tracks_lift|].
    intros [u e]. apply tracks_ret.
  - intros [[update add] e].
    destruct (add || update); [|apply tracks_ret].
    apply tracks_bind; [apply tracks_lift|]. intros e'.
    destruct add.
    + apply tracks_bind; [apply tracks_execute|]. intros _. apply tracks_print.
    + apply tracks_doUpdate.
Qed.

Lemma tracks_removeEntry (directory p : path) :
  tracks (removeEntry fs sqlFails directory p).
Proof.
  unfold removeEntry. apply tracks_bind; [apply tracks_execute|].
  intros changes. destruct (changes >=? 1)%Z; [apply tracks_print|apply tracks_ret].
Qed.

Lemma tracks_syncEntry (directory : path) (row : string * Z * string) :
  tracks (syncEntry fs parseEntry sqlFails directory row).
Proof.
  destruct row as [[text m] h]. unfold syncEntry.
  destruct (exists_ fs (append directory (of_string text))).
  - apply tracks_bind; [apply tracks_lift|]. intros [u e].
    destruct u; [|apply tracks_ret].
    apply tracks_bind; [apply tracks_lift|]. intros e'. apply tracks_doUpdate.
  - apply tracks_bind; [apply tracks_execute|]. intros _. apply tracks_print.
Qed.

Lemma tracks_run (c : Call) : tracks (run fs parseEntry sqlFails c).
Proof.
  destruct c as [fuel paths|fuel paths|]; cbn [run]; intros w o w' H.
  - unfold addToIndex in H. revert H. generalize (rootDirectory (db w)). intros d H.
    revert w o w' H. change (tracks (pathList <- lift (getIndexPathList fs fuel d paths true) ;;
      exec sqlFails Begin ;;; forEach pathList (addEntry fs parseEntry sqlFails d) ;;;
      exec sqlFails Commit)).
    apply tracks_bind; [apply tracks_lift|]. intros pathList.
    apply tracks_bind; [apply tracks_exec|]. intros _.
    apply tracks_bind; [|intros _; apply tracks_exec].
    apply tracks_forEach. intros p. apply tracks_addEntry.
  - unfold removeFromIndex in H. revert H. generalize (rootDirectory (db w)). intros d H.
    revert w o w' H. change (tracks (pathList <- lift (getIndexPathList fs fuel d paths false) ;;
      exec sqlFails Begin ;;; forEach pathList (removeEntry fs sqlFails d) ;;;
      exec sqlFails Commit)).
    apply tracks_bind; [apply tracks_lift|]. intros pathList.
    apply tracks_bind; [apply tracks_exec|]. intros _.
    apply tracks_bind; [|intros _; apply tracks_exec].
    apply tracks_forEach. intros p. apply tracks_removeEntry.
  - unfold syncIndex in H. revert H. generalize (rootDirectory (db w)). intros d H.
    revert w o w' H. change (tracks (exec sqlFails Begin ;;;
      syncRows fs parseEntry sqlFails d ;;; exec sqlFails Commit)).
    apply tracks_bind; [apply tracks_exec|]. intros _.
    apply tracks_bind; [|intros _; apply tracks_exec].
    unfold syncRows. apply tracks_bind; [apply tracks_fetchAll|]. intros rows.
    apply tracks_forEach. intros row. apply tracks_syncEntry.
Qed.

(** a call that returns started outside a transaction and ends outside one *)
Lemma returned_outside_transaction (body : M unit) (w w' : World) :
  (exec sqlFails Begin ;;; body ;;; exec sqlFails Commit) w = (Returned tt, w') ->
  transaction (db w) = None /\ transaction (db w') = None.
Proof.
  intros H. unfold bind at 1 in H. unfold exec at 1 in H.
  destruct (sqlFails Begin (view (db w))); [discriminate|].
  destruct (transaction (db w)) eqn:Ht; [discriminate|].
  split; [reflexivity|].
  unfold bind in H.
  match type of H with context [body ?w0] => destruct (body w0) as [[[]|e|] w2] end;
    [|discriminate|discriminate].
  unfold exec in H. destruct (sqlFails Commit (view (db w2))); [discriminate|].
  destruct (transaction (db w2)); [|discriminate].
  inversion H; subst. reflexivity.
Qed.

(** All or nothing, the other half: a call of add, remove or sync that
    returns leaves no transaction open, and the persisted table is the
    one before the call with exactly the inserts, updates and deletes it
    executed applied in order. *)
Theorem returned_call_persists_what_it_executed :
  forall (c : Call) (w w' : World),
    run fs parseEntry sqlFails c w = (Returned tt, w') ->
    transaction (db w') = None
    /\ exists stmts,
         executed w' = executed w ++ stmts
         /\ entries (db w') = replay stmts (entries (db w)).
Proof.
  intros c w w' H.
  assert (Ht : transaction (db w) = None /\ transaction (db w') = None).
  { destruct c as [fuel paths|fuel paths|]; cbn [run] in H.
    - unfold addToIndex in H. unfold bind at 1, lift in H.
      destruct (getIndexPathList fs fuel (rootDirectory (db w)) paths true);
        [|discriminate|discriminate].
      exact (returned_outside_transaction _ _ _ H).
    - unfold removeFromIndex in H. unfold bind at 1, lift in H.
      destruct (getIndexPathList fs fuel (rootDirectory (db w)) paths false);
        [|discriminate|discriminate].
      exact (returned_outside_transaction _ _ _ H).
    - exact (returned_outside_transaction _ _ _ H). }
  destruct Ht as [Ht Ht']. split; [exact Ht'|].
  destruct (tracks_run c _ _ _ H) as [stmts [He Hv]].
  exists stmts. split; [exact He|].
  unfold view in Hv. rewrite Ht, Ht' in Hv. exact Hv.
Qed.
End Committed.

Lemma returned_call_persists_what_it_executed_witness :
  exists w',
    run fromSlash (classify fromSlash) noFault Sync staleIndex = (Returned tt, w')
    /\ transaction (db w') = None
    /\ exists stmts,
         executed w' = executed staleIndex ++ stmts
         /\ entries (db w') = replay stmts (entries (db staleIndex)).
Proof.
  eexists. split; [vm_compute; reflexivity|].
  apply (returned_call_persists_what_it_executed fromSlash (classify fromSlash)
           noFault Sync staleIndex _).
  vm_compute. reflexivity.
Defined.

(** *** Two runs of sync *)

Section Idempotent.
Variable fs : filesystem.
Variable parseEntry : path -> path -> Entry.t -> ParseEntryOpts -> Outcome Entry.t.
Variable sqlFails : Sql -> list Entry.t -> bool.
Variable directory : path.

Lemma syncEntry_settled (r : Entry.t) (w : World) :
  settled fs directory r ->
  syncEntry fs parseEntry sqlFails directory (fetched r) w = (Returned tt, w).
Proof.
  intros [Hex [e He]]. unfold syncEntry, fetched.
  rewrite Hex. unfold bind, lift. rewrite He. reflexivity.
Qed.

Lemma forEach_settled (rows : list Entry.t) (w : World) :
  Forall (settled fs directory) rows ->
  forEach (map fetched rows) (syncEntry fs parseEntry sqlFails directory) w
  = (Returned tt, w).
Proof.
  induction 1 as [|r rows Hr _ IH]; [reflexivity|].
  cbn [map forEach]. unfold bind. rewrite (syncEntry_settled r w Hr). exact IH.
Qed.

(** what [checkUpdate] says of a row whose stored modification time is
    the file's *)
Lemma checkUpdate_same_mtime (e : Entry.t) (p : path) (m : Z) (h : string) :
  getModifiedTime fs p = Returned m ->
  checkUpdate fs e p m h = Returned (false, Entry.with_mtime m e).
Proof.
  intros Hm. unfold checkUpdate. rewrite Hm. cbn.
  rewrite Z.eqb_refl. reflexivity.
Qed.

Lemma getModifiedTime_exists (p : path) (m : Z) :
  getModifiedTime fs p = Returned m -> exists_ fs p = true.
Proof.
  unfold getModifiedTime, exists_. destruct (status fs p); [reflexivity|discriminate].
Qed.

(** One row of the first run: the rows of the table are, before it,
    settled or still to come ([r] or one of [rest]); after it, settled
    or one of [rest]. *)
Lemma syncEntry_settles (r : Entry.t) (rest : list Entry.t) (w w' : World) :
  wellKept fs parseEntry directory r ->
  (forall x, In x (view (db w)) -> settled fs directory x \/ x = r \/ In x rest) ->
  syncEntry fs parseEntry sqlFails directory (fetched r) w = (Returned tt, w') ->
  (forall x, In x (view (db w')) -> settled fs directory x \/ In x rest)
  /\ openFile (db w') = openFile (db w).
Proof.
  intros [Hgen Hcls] Hinv H. unfold syncEntry, fetched in H.
  set (p := append directory (of_string (Entry.path r))) in *.
  destruct (exists_ fs p) eqn:Hex.
  - unfold bind at 1, lift in H.
    destruct (checkUpdate fs Entry.empty p (Entry.mtime r) (Entry.hash r))
      as [[u e]|ex|] eqn:Hcu; [|discriminate|discriminate].
    destruct u.
    + unfold bind at 1 in H.
      destruct (parseEntry p directory e opts) as [e'|ex|] eqn:Hpe;
        [|discriminate|discriminate].
      destruct (Hcls e e' Hpe) as [Hpath Hmtime].
      unfold doUpdate, bind, execute, print in H.
      destruct (sqlFails (Update e') (view (db w))); [discriminate|].
      inversion H; subst w'; clear H. cbn [db].
      rewrite view_set_view, openFile_set_view. split; [|reflexivity].
      intros x Hx. cbn [apply] in Hx. apply in_map_iff in Hx.
      destruct Hx as [y [Hy Hin]].
      destruct (has_path (Entry.path e') y) eqn:Hhp.
      * subst x. left. unfold settled. rewrite Hpath. fold p.
        split; [exact Hex|]. eexists.
        apply checkUpdate_same_mtime. exact Hmtime.
      * subst x. destruct (Hinv y Hin) as [Hs|[Heq|Hr]]; [left; exact Hs| |right; exact Hr].
        subst y. unfold has_path in Hhp. rewrite Hpath, String.eqb_refl in Hhp.
        discriminate.
    + inversion H; subst w'. split; [|reflexivity].
      intros x Hx. destruct (Hinv x Hx) as [Hs|[Heq|Hr]];
        [left; exact Hs| |right; exact Hr].
      subst x. left. split; [exact Hex|]. exists e. exact Hcu.
  - rewrite Hgen in H. unfold bind, execute, print in H.
    destruct (sqlFails (Delete (Entry.path r)) (view (db w))); [discriminate|].
    inversion H; subst w'; clear H. cbn [db].
    rewrite view_set_view, openFile_set_view. split; [|reflexivity].
    intros x Hx. cbn [apply] in Hx. apply filter_In in Hx.
    destruct Hx as [Hin Hhp].
    destruct (Hinv x Hin) as [Hs|[Heq|Hr]]; [left; exact Hs| |right; exact Hr].
    subst x. unfold has_path in Hhp. rewrite String.eqb_refl in Hhp. discriminate.
Qed.

Lemma forEach_settles (rest : list Entry.t) :
  forall w w',
    (forall r, In r rest -> wellKept fs parseEntry directory r) ->
    (forall x, In x (view (db w)) -> settled fs directory x \/ In x rest) ->
    forEach (map fetched rest) (syncEntry fs parseEntry sqlFails directory) w
    = (Returned tt, w') ->
    Forall (settled fs directory) (view (db w'))
    /\ openFile (db w') = openFile (db w).
Proof.
  induction rest as [|r rest IH]; intros w w' Hwk Hinv H.
  - inversion H; subst w'. split; [|reflexivity].
    apply Forall_forall. intros x Hx. destruct (Hinv x Hx) as [Hs|[]]. exact Hs.
  - cbn [map forEach] in H. unfold bind at 1 in H.
    destruct (syncEntry fs parseEntry sqlFails directory (fetched r) w)
      as [[[]|ex|] w1] eqn:Hstep; [|discriminate|discriminate].
    destruct (syncEntry_settles r rest w w1 (Hwk r (or_introl eq_refl))) as [Hinv1 Hof1];
      [|exact Hstep|].
    { intros x Hx. destruct (Hinv x Hx) as [Hs|[Heq|Hr]]; auto. }
    destruct (IH w1 w' (fun x Hx => Hwk x (or_intror Hx)) Hinv1 H) as [Hall Hof].
    split; [exact Hall|congruence].
Qed.
End Idempotent.

(** the first run: when it has returned, every row left is settled, and
    the connection is outside a transaction *)
Lemma first_run_settles (fs : filesystem)
  (parseEntry : path -> path -> Entry.t -> ParseEntryOpts -> Outcome Entry.t)
  (sqlFails : Sql -> list Entry.t -> bool) (w w1 : World) :
  (forall r, In r (entries (db w)) ->
             wellKept fs parseEntry (rootDirectory (db w)) r) ->
  syncIndex fs parseEntry sqlFails w = (Returned tt, w1) ->
  Forall (settled fs (rootDirectory (db w1))) (entries (db w1))
  /\ transaction (db w1) = None
  /\ sqlFails Commit (entries (db w1)) = false.
Proof.
  intros Hwk H.
  unfold syncIndex in H. unfold bind at 1 in H. unfold exec at 1 in H.
  destruct (sqlFails Begin (view (db w))); [discriminate|].
  destruct (transaction (db w)) eqn:Htx; [discriminate|].
  set (w0 := mkWorld _ _ _) in H.
  unfold bind at 1 in H.
  destruct (syncRows fs parseEntry sqlFails (rootDirectory (db w)) w0)
    as [[[]|ex|] w2] eqn:Hrows; [|discriminate|discriminate].
  unfold syncRows, bind, fetchAll in Hrows.
  destruct (forEach_settles fs parseEntry sqlFails (rootDirectory (db w))
              (view (db w0)) w0 w2) as [Hall Hof]; [| |exact Hrows|].
  { intros r Hr. apply Hwk. exact Hr. }
  { intros x Hx. right. exact Hx. }
  unfold exec in H.
  destruct (sqlFails Commit (view (db w2))) eqn:Hcommit; [discriminate|].
  unfold view in Hcommit, Hall.
  destruct (transaction (db w2)) as [t|] eqn:Htx2; [|discriminate].
  inversion H; subst w1; clear H.
  cbn [db openFile] in Hof. cbn [db entries transaction].
  assert (Hdir : rootDirectory (mkDb (openFile (db w2)) t None)
                 = rootDirectory (db w)).
  { unfold rootDirectory. cbn [openFile]. rewrite Hof. reflexivity. }
  rewrite Hdir. auto.
Qed.

(** a run on an index whose rows are all settled *)
Lemma settled_index_is_silent (fs : filesystem)
  (parseEntry : path -> path -> Entry.t -> ParseEntryOpts -> Outcome Entry.t)
  (sqlFails : Sql -> list Entry.t -> bool) (w1 : World) :
  transaction (db w1) = None ->
  Forall (settled fs (rootDirectory (db w1))) (entries (db w1)) ->
  sqlFails Commit (entries (db w1)) = false ->
  syncIndex fs parseEntry sqlFails w1
  = (if sqlFails Begin (entries (db w1))
     then Thrown (DBException "exec") else Returned tt, w1).
Proof.
  destruct w1 as [[file rows tx] out stmts]. cbn [db entries transaction].
  intros -> Hall Hcommit.
  unfold syncIndex. cbn [db]. unfold bind at 1. unfold exec at 1.
  cbn [db view transaction entries].
  destruct (sqlFails Begin rows); [reflexivity|].
  unfold bind at 1. unfold syncRows. unfold bind at 1. unfold fetchAll.
  cbn [db view transaction].
  change (map (fun r => (Entry.path r, Entry.mtime r, Entry.hash r)) rows)
    with (map fetched rows).
  rewrite (forEach_settled fs parseEntry sqlFails _ rows _ Hall).
  unfold exec. cbn [db view transaction].
  rewrite Hcommit. reflexivity.
Qed.

(** a row that is settled stays settled while its file reads the same *)
Lemma settled_sameFile (fs fs' : filesystem) (directory : path) (r : Entry.t) :
  sameFile fs fs' directory r ->
  settled fs directory r -> settled fs' directory r.
Proof.
  intros [Hex [Hdir [Hm Hh]]] [Hthere [e He]]. split; [congruence|].
  exists e. unfold checkUpdate in *. rewrite Hdir, Hm, Hh. exact He.
Qed.

(** C2.  An index whose rows are as add leaves them (the stored path is
    the generic pathname under which the classifier files the entry,
    with the modification time the file has), any file system: after a
    run of sync that returned, a second run that reads the file of every
    row as the first one did prints nothing, executes no insert, update
    or delete, and leaves the connection and the persisted table as they
    were: the whole process state is the same; the run returns unless
    the storage refuses its BEGIN.  The file systems of the two runs may
    differ elsewhere, as they do in the files of the storage under .ddb
    once the first run has written. *)
Theorem sync_twice_second_run_is_silent :
  forall (fs fs' : filesystem)
         (parseEntry parseEntry' :
            path -> path -> Entry.t -> ParseEntryOpts -> Outcome Entry.t)
         (sqlFails : Sql -> list Entry.t -> bool) (w w1 : World),
    (forall r, In r (entries (db w)) ->
               wellKept fs parseEntry (rootDirectory (db w)) r) ->
    syncIndex fs parseEntry sqlFails w = (Returned tt, w1) ->
    (forall r, In r (entries (db w1)) ->
               sameFile fs fs' (rootDirectory (db w1)) r) ->
    syncIndex fs' parseEntry' sqlFails w1
    = (if sqlFails Begin (entries (db w1))
       then Thrown (DBException "exec") else Returned tt, w1).
Proof.
  intros fs fs' parseEntry parseEntry' sqlFails w w1 Hwk H Hsame.
  destruct (first_run_settles fs parseEntry sqlFails w w1 Hwk H)
    as [Hall [Htx Hcommit]].
  apply settled_index_is_silent; [exact Htx| |exact Hcommit].
  rewrite Forall_forall in *. intros r Hr.
  exact (settled_sameFile fs fs' _ r (Hsame r Hr) (Hall r Hr)).
Qed.

(** the second run is on the disk as it is once the storage has written
    to .ddb *)
Lemma sync_twice_second_run_is_silent_witness :
  exists w1,
    syncIndex fromSlash (classify fromSlash) noFault staleIndex = (Returned tt, w1)
    /\ cout w1 <> []
    /\ syncIndex afterCommit (classify afterCommit) noFault w1 = (Returned tt, w1).
Proof.
  eexists. split; [vm_compute; reflexivity|]. split; [discriminate|].
  apply (sync_twice_second_run_is_silent fromSlash afterCommit
           (classify fromSlash) (classify afterCommit) noFault staleIndex _).
  - intros r Hr. cbn in Hr.
    destruct Hr as [<-|[<-|[<-|[<-|[]]]]]; (split; [reflexivity|]);
      intros e e' He; vm_compute in He; inversion He; split; reflexivity.
  - vm_compute. reflexivity.
  - intros r Hr. cbn in Hr.
    destruct Hr as [<-|[<-|[<-|[]]]]; repeat split; reflexivity.
Defined.

(** The sentence on two runs does not hold of every index state: a row
    whose stored path is not a generic pathname and whose file is gone
    is never deleted, because the DELETE is given the generic form of
    the path; every run prints its "D" line and executes its DELETE
    again. *)
Lemma sync_twice_claim_fails : ~ syncTwiceClaim.
Proof.
  intros H.
  set (first := syncIndex fromSlash (classify fromSlash) noFault doubledSlash).
  set (second := syncIndex fromSlash (classify fromSlash) noFault (snd first)).
  assert (H1 : syncIndex fromSlash (classify fromSlash) noFault doubledSlash
               = (Returned tt, snd first)) by (vm_compute; reflexivity).
  assert (H2 : syncIndex fromSlash (classify fromSlash) noFault (snd first)
               = (fst second, snd second)) by (vm_compute; reflexivity).
  destruct (H _ _ _ _ _ H1 H2) as [Hout _].
  vm_compute in Hout. discriminate.
Qed.

(** Nor does it hold of a row whose stored path is not the one the
    classifier gives the file: the UPDATE goes to the classifier's path,
    the row stays stale, and every run prints its "U" line again. *)
Lemma unnormalized_row_is_updated_again :
  exists w1 w2,
    syncIndex fromSlash (classify fromSlash) noFault unnormalized = (Returned tt, w1)
    /\ cout w1 = ["U" ++ TAB ++ "a/b/c.txt"]%string
    /\ entries (db w1) = entries (db unnormalized)
    /\ syncIndex fromSlash (classify fromSlash) noFault w1 = (Returned tt, w2)
    /\ cout w2 = cout w1 ++ ["U" ++ TAB ++ "a/b/c.txt"]%string.
Proof.
  do 2 eexists. split; [vm_compute; reflexivity|].
  split; [reflexivity|]. split; [reflexivity|].
  split; [vm_compute; reflexivity|]. reflexivity.
Qed.

(** A row for the .ddb directory of the index itself, which add stores:
    once a run of sync has written (here the UPDATE of the picture) the
    storage has moved the modification time of .ddb, and the next run
    updates the row .ddb and prints its "U" line. *)
Lemma tracked_ddb_directory_is_updated_again :
  exists w1 w2,
    syncIndex fromSlash (classify fromSlash) noFault tracksDdb = (Returned tt, w1)
    /\ cout w1 = ["U" ++ TAB ++ "img.jpg"]%string
    /\ syncIndex afterCommit (classify afterCommit) noFault w1 = (Returned tt, w2)
    /\ cout w2 = cout w1 ++ ["U" ++ TAB ++ ".ddb"]%string.
Proof.
  do 2 eexists. split; [vm_compute; reflexivity|].
  split; [reflexivity|]. split; [vm_compute; reflexivity|]. reflexivity.
Qed.

(** *** Path resolution *)

(** on an absolute path the loop over the parents never stops: the
    parent of "/" is "/" *)
Lemma parent_path_absolute (p : path) :
  is_absolute p = true ->
  has_parent_path p = true /\ is_absolute (parent_path p) = true.
Proof.
  destruct p as [|e p]; [discriminate|].
  intros Habs. assert (e = "/") as ->.
  { cbn in Habs. destruct (string_dec e "/") as [->|Hn]; [reflexivity|].
    destruct e as [|c e]; [discriminate|].
    destruct c as [[] [] [] [] [] [] [] []]; try discriminate.
    destruct e; [contradiction Hn; reflexivity|discriminate]. }
  destruct p as [|f p]; [split; reflexivity|].
  unfold has_parent_path, parent_path, has_relative_path, relative_path.
  cbn [removelast]. destruct p; split; reflexivity.
Qed.

Lemma addParents_absolute (fuel : nat) :
  forall rp directories,
    is_absolute rp = true -> addParents fuel rp directories = OutOfFuel.
Proof.
  induction fuel as [|fuel IH]; intros rp dirs Habs; [reflexivity|].
  cbn [addParents]. destruct (parent_path_absolute rp Habs) as [-> Hp].
  apply IH. exact Hp.
Qed.

(** C4 (the code does not do what the claim says).  The tracked root is
    /data/root and the process is in "/".  For the candidate
    data/root/img.jpg, which is inside the root, [getIndexPathList]
    walks the parents up to the first element of the candidate and
    hands data/root and data to [addToIndex]; with the classifier of
    the specification the rows stored are "img.jpg", "." and "..": the
    last one names /data, which is outside the root.  For the absolute
    candidate /data/root/img.jpg the walk over the parents never ends. *)
Theorem add_indexes_the_parents_of_the_root :
  getIndexPathList fromSlash 3 (of_string "/data/root") ["data/root/img.jpg"] true
  = Returned [of_string "data/root/img.jpg"; of_string "data/root"; of_string "data"]
  /\ (exists w',
         addToIndex fromSlash (classify fromSlash) noFault 3 ["data/root/img.jpg"]
                    emptyIndex = (Returned tt, w')
         /\ map Entry.path (entries (db w')) = ["img.jpg"; "."; ".."])
  /\ (forall fuel,
         getIndexPathList fromSlash fuel (of_string "/data/root")
                          ["/data/root/img.jpg"] true = OutOfFuel).
Proof.
  split; [vm_compute; reflexivity|]. split.
  - eexists. split; vm_compute; reflexivity.
  - intros fuel. unfold getIndexPathList.
    replace (pathsAreChildren fromSlash (of_string "/data/root")
               ["/data/root/img.jpg"]) with true by (vm_compute; reflexivity).
    cbn [negb ofold]. unfold indexCandidate.
    replace (String.eqb (filename (of_string "/data/root/img.jpg")) DDB_DIR)
      with false by (vm_compute; reflexivity).
    replace (is_directory fromSlash (of_string "/data/root/img.jpg"))
      with false by (vm_compute; reflexivity).
    replace (exists_ fromSlash (of_string "/data/root/img.jpg"))
      with true by (vm_compute; reflexivity).
    rewrite addParents_absolute; reflexivity.
Qed.

(** C6 (the code does not do what the claim says).  The process is in
    the tracked root and the candidate is ".": the iterator yields
    ./.ddb, the loop disables the recursion into it and then lists the
    entry like any other, in both modes of [getIndexPathList] and in
    [getPathList]; add then stores a row for ".ddb". *)
Theorem the_ddb_directory_is_listed :
  filename (of_string "./.ddb") = ".ddb"
  /\ (exists resolved,
         getIndexPathList fromRoot 4 (of_string "/data/root") ["."] true
         = Returned resolved /\ In (of_string "./.ddb") resolved)
  /\ (exists resolved,
         getIndexPathList fromRoot 4 (of_string "/data/root") ["."] false
         = Returned resolved /\ In (of_string "./.ddb") resolved)
  /\ (exists resolved,
         getPathList fromRoot ["."] true 0
         = Returned resolved /\ In (of_string "./.ddb") resolved)
  /\ (exists w',
         addToIndex fromRoot (classify fromRoot) noFault 4 ["."] emptyIndex
         = (Returned tt, w') /\ In ".ddb" (map Entry.path (entries (db w')))).
Proof.
  split; [reflexivity|].
  repeat split; eexists; (split; [vm_compute; reflexivity|]); cbn; tauto.
Qed.

(** *** Depth limiting *)

Lemma walk_one_level (prune : path -> Z -> bool) (base : path) (d m : Z)
  (es : list (string * node)) :
  (forall rp, prune rp d = true) ->
  walk prune base d (Dir m es) = map (fun e => (append base [fst e], d)) es.
Proof.
  intros Hp. cbn [walk].
  induction es as [|[name c] es IH]; [reflexivity|].
  cbn [map fst]. rewrite Hp, andb_false_r. cbn [app]. f_equal. exact IH.
Qed.

Lemma In_listed (fs : filesystem) (includeDirs : bool) (x : path) (l : list path) :
  forall acc,
    In x (fold_left
            (fun result rp =>
               if is_directory fs rp
               then (if includeDirs then result ++ [rp] else result)
               else result ++ [rp]) l acc)
    <-> In x acc \/ (In x l /\ (is_directory fs x = false \/ includeDirs = true)).
Proof.
  induction l as [|rp l IH]; intros acc; cbn [fold_left].
  - cbn. tauto.
  - rewrite IH. cbn [In].
    destruct (is_directory fs rp) eqn:Hd; [destruct includeDirs|];
      rewrite ?in_app_iff; cbn [In]; split; intros H;
      repeat match goal with
             | H : _ \/ _ |- _ => destruct H
             | H : _ /\ _ |- _ => destruct H
             | H : False |- _ => destruct H
             end; subst; try congruence; auto 6.
Qed.

Lemma find_entry_app (name : string) (n : node) (before after : list (string * node)) :
  ~ In name (map fst before) ->
  find_entry name (before ++ (name, n) :: after) = Some n.
Proof.
  induction before as [|[k c] before IH]; intros Hn; cbn.
  - rewrite String.eqb_refl. reflexivity.
  - destruct (String.eqb_spec k name) as [->|_].
    + contradiction Hn. left. reflexivity.
    + apply IH. intros Hin. apply Hn. right. exact Hin.
Qed.

(** C5, as the code has it.  The tracked root /r holds a directory a
    (which may hold b/c.txt, or anything else).  With maxDepth = 1 the
    root is resolved to its own entries only: a is listed exactly when
    directory inclusion is requested, and neither a/b nor a/b/c.txt is
    ever listed. *)
Theorem depth_one_lists_the_entries_of_the_root :
  forall (before after inA : list (string * node)) (m : Z) (includeDirs : bool),
    ~ In "a" (map fst before) ->
    exists resolved,
      getPathList (rootWith before after m inA) ["/r"] includeDirs 1
      = Returned resolved
      /\ (In (of_string "/r/a") resolved <-> includeDirs = true)
      /\ ~ In (of_string "/r/a/b") resolved
      /\ ~ In (of_string "/r/a/b/c.txt") resolved.
Proof.
  intros before after inA m includeDirs Hfirst.
  set (fs := rootWith before after m inA).
  set (es := before ++ ("a", Dir m inA) :: after).
  assert (Hroot : status fs ["/"; "r"] = Some (Dir 0 es)) by reflexivity.
  assert (Ha : is_directory fs ["/"; "r"; "a"] = true).
  { assert (Hget : get (tree fs) ["r"; "a"] = Some (Dir m inA)).
    { cbn. unfold es. rewrite (find_entry_app "a" _ before after Hfirst).
      reflexivity. }
    assert (Hstep : step fs ["r"] "a" = Some ["r"; "a"]).
    { unfold step. change (get (tree fs) ["r"]) with (Some (Dir 0 es)).
      cbn [String.eqb Ascii.eqb Bool.eqb is_dot is_dotdot orb app].
      rewrite Hget. reflexivity. }
    unfold is_directory, status, resolve. cbn [is_absolute steps].
    change (step fs [] "/") with (Some (@nil string)). cbn iota.
    change (step fs [] "r") with (Some ["r"]). cbn iota.
    rewrite Hstep, Hget. reflexivity. }
  eexists. split.
  - unfold getPathList. cbn [ofold]. unfold pathCandidate.
    change (of_string "/r") with ["/"; "r"].
    change (String.eqb (filename ["/"; "r"]) DDB_DIR) with false.
    change (is_directory fs ["/"; "r"]) with true.
    cbn iota. unfold recursive_directory_iterator. rewrite Hroot.
    rewrite walk_one_level by (intros rp; apply orb_true_r).
    reflexivity.
  - rewrite map_map. cbn [fst].
    change (of_string "/r/a") with ["/"; "r"; "a"].
    change (of_string "/r/a/b") with ["/"; "r"; "a"; "b"].
    change (of_string "/r/a/b/c.txt") with ["/"; "r"; "a"; "b"; "c.txt"].
    assert (Hshape : forall x, In x (map (fun e : string * node => append ["/"; "r"] [fst e]) es) ->
                               List.length x <= 3).
    { intros x Hx. apply in_map_iff in Hx. destruct Hx as [[name c] [<- _]].
      cbn [fst]. unfold append. destruct (is_absolute [name]) eqn:Habs.
      - destruct name as [|ch name]; [discriminate|]. cbn; lia.
      - cbn. lia. }
    rewrite !In_listed. cbn [In]. repeat split.
    + intros [[]|[_ [Hd|Hi]]]; [congruence|exact Hi].
    + intros Hi. right. split; [|right; exact Hi].
      apply in_map_iff. exists ("a", Dir m inA). split; [reflexivity|].
      unfold es. apply in_or_app. right. left. reflexivity.
    + intros [[]|[Hx _]]. apply Hshape in Hx. cbn in Hx. lia.
    + intros [[]|[Hx _]]. apply Hshape in Hx. cbn in Hx. lia.
Qed.

Lemma depth_one_lists_the_entries_of_the_root_witness :
  exists resolved,
    getPathList
      (rootWith [("img.jpg", File 6 "h1")] []
                7 [("b", Dir 8 [("c.txt", File 9 "h2")])])
      ["/r"] true 1 = Returned resolved
    /\ (In (of_string "/r/a") resolved <-> true = true)
    /\ ~ In (of_string "/r/a/b") resolved
    /\ ~ In (of_string "/r/a/b/c.txt") resolved.
Proof.
  apply (depth_one_lists_the_entries_of_the_root
           [("img.jpg", File 6 "h1")] [] [("b", Dir 8 [("c.txt", File 9 "h2")])]
           7%Z true).
  cbn. intros [H|[]]. discriminate H.
Defined.

(** C5, as the specification words it, fails on /data/root, which holds
    a/b/c.txt: without directory inclusion only the picture is listed, so
    a is missing; with it .ddb, the picture and a are listed, so a/b is
    missing. *)
Lemma depth_limit_claim_fails :
  getPathList fromSlash ["/data/root"] false 1
  = Returned [of_string "/data/root/img.jpg"]
  /\ getPathList fromSlash ["/data/root"] true 1
     = Returned [of_string "/data/root/.ddb"; of_string "/data/root/img.jpg";
                 of_string "/data/root/a"]
  /\ ~ depthLimitClaim fromSlash "/data/root".
Proof.
  split; [reflexivity|]. split; [reflexivity|].
  intros H. destruct (H false _ eq_refl) as [Hin _].
  cbn in Hin. destruct Hin as [Heq|[]]. discriminate Heq.
Qed.

(** *** The walk over the parents *)

Lemma parent_path_relative (p : path) :
  is_absolute p = false ->
  has_parent_path p = true ->
  is_absolute (parent_path p) = false
  /\ List.length (parent_path p) < List.length p.
Proof.
  intros Hrel Hpar.
  assert (Hrp : relative_path p = p).
  { destruct p as [|e p]; [reflexivity|].
    cbn in Hrel |- *. destruct e as [|c e]; [reflexivity|].
    destruct c as [[] [] [] [] [] [] [] []]; try reflexivity.
    destruct e; [discriminate|reflexivity]. }
  unfold has_parent_path, parent_path, has_relative_path in *.
  rewrite Hrp in *. destruct p as [|e p]; [discriminate|].
  destruct p as [|f p]; [discriminate|]. split.
  - cbn [removelast]. cbn in Hrel |- *. exact Hrel.
  - change (e :: f :: p) with ([e] ++ f :: p).
    rewrite removelast_app by discriminate.
    rewrite !length_app. cbn [List.length].
    assert (List.length (removelast (f :: p)) < List.length (f :: p)); [|cbn in *; lia].
    clear. revert f. induction p as [|g p IH]; intros f; [cbn; lia|].
    change (removelast (f :: g :: p)) with (f :: removelast (g :: p)).
    cbn [List.length]. specialize (IH g). cbn [List.length] in IH. lia.
Qed.

Lemma addParents_relative (fuel : nat) :
  forall rp directories,
    is_absolute rp = false -> List.length rp < fuel ->
    exists directories', addParents fuel rp directories = Returned directories'.
Proof.
  induction fuel as [|fuel IH]; intros rp dirs Hrel Hlen; [lia|].
  cbn [addParents]. destruct (has_parent_path rp) eqn:Hpar.
  - destruct (parent_path_relative rp Hrel Hpar) as [Hrel' Hlt].
    apply IH; [exact Hrel'|lia].
  - eexists. reflexivity.
Qed.

(** The loop over the parents in [getIndexPathList] stops on every
    relative path (after at most as many steps as the path has
    elements) and on no absolute path. *)
Theorem parents_walk_stops_on_relative_paths_only :
  forall (rp : path) (directories : list path),
    (is_absolute rp = false ->
     forall fuel, List.length rp < fuel ->
                  exists directories', addParents fuel rp directories
                                       = Returned directories')
    /\ (is_absolute rp = true ->
        forall fuel, addParents fuel rp directories = OutOfFuel).
Proof.
  intros rp dirs. split.
  - intros Hrel fuel Hlen. apply addParents_relative; assumption.
  - intros Habs fuel. apply addParents_absolute. exact Habs.
Qed.

(** *** Other properties of section 8 *)

(** Mtime trust: when the modification time on disk is the stored one,
    [checkUpdate] reports no change without reading the content, whatever
    the stored hash and the content are. *)
Theorem unchanged_mtime_reports_no_change :
  forall (fs : filesystem) (e : Entry.t) (p : path) (m : Z) (dbHash : string),
    getModifiedTime fs p = Returned m ->
    checkUpdate fs e p m dbHash = Returned (false, Entry.with_mtime m e).
Proof.
  intros fs e p m dbHash Hm. apply checkUpdate_same_mtime. exact Hm.
Qed.

Lemma unchanged_mtime_reports_no_change_witness :
  checkUpdate fromSlash Entry.empty (of_string "/data/root/img.jpg") 6 "another hash"
  = Returned (false, Entry.with_mtime 6 Entry.empty).
Proof.
  apply (unchanged_mtime_reports_no_change fromSlash Entry.empty
           (of_string "/data/root/img.jpg") 6%Z "another hash").
  reflexivity.
Defined.

(** Containment: one candidate outside the tracked root makes
    [getIndexPathList] throw before any candidate is looked at, and add
    and remove then end with that exception, the process state
    untouched. *)
Theorem outside_candidate_stops_the_call :
  forall (fs : filesystem)
         (parseEntry : path -> path -> Entry.t -> ParseEntryOpts -> Outcome Entry.t)
         (sqlFails : Sql -> list Entry.t -> bool)
         (fuel : nat) (paths : list string) (w : World),
    pathsAreChildren fs (rootDirectory (db w)) paths = false ->
    exists what,
      addToIndex fs parseEntry sqlFails fuel paths w = (Thrown (FSException what), w)
      /\ removeFromIndex fs sqlFails fuel paths w = (Thrown (FSException what), w).
Proof.
  intros fs parseEntry sqlFails fuel paths w Hout.
  eexists. unfold addToIndex, removeFromIndex, bind, lift, getIndexPathList.
  rewrite Hout. cbn [negb]. split; reflexivity.
Qed.

Lemma outside_candidate_stops_the_call_witness :
  exists what,
    addToIndex fromSlash (classify fromSlash) noFault 3
               ["data/root/img.jpg"; "data"] emptyIndex
    = (Thrown (FSException what), emptyIndex)
    /\ removeFromIndex fromSlash noFault 3 ["data/root/img.jpg"; "data"] emptyIndex
       = (Thrown (FSException what), emptyIndex).
Proof.
  apply (outside_candidate_stops_the_call fromSlash (classify fromSlash) noFault 3
           ["data/root/img.jpg"; "data"] emptyIndex).
  reflexivity.
Defined.

(** End to end: on an empty index of /data/root, from the root, add of
    img.jpg prints "A<TAB>img.jpg" and stores one row with the file's hash
    and modification time; with the file gone from the disk, sync prints
    "D<TAB>img.jpg" and leaves no row. *)
Theorem add_then_delete_then_sync :
  exists w1 w2,
    addToIndex fromRoot (classify fromRoot) noFault 1 ["img.jpg"] emptyIndex
    = (Returned tt, w1)
    /\ cout w1 = ["A" ++ TAB ++ "img.jpg"]%string
    /\ entries (db w1) = [row "img.jpg" "h1" 6]
    /\ syncIndex withoutPicture (classify withoutPicture) noFault
                 (mkWorld (db w1) [] []) = (Returned tt, w2)
    /\ cout w2 = ["D" ++ TAB ++ "img.jpg"]%string
    /\ entries (db w2) = [].
Proof.
  do 2 eexists. split; [vm_compute; reflexivity|].
  split; [reflexivity|]. split; [reflexivity|].
  split; [vm_compute; reflexivity|]. split; reflexivity.
Qed.

End DdbFacts.

(* ================================================================== *)
(** ** Further theorems: the string helpers and the parser *)
(* ================================================================== *)

Module MoreExifFacts.
Import Exif ExifSpec MoreSpec.

(** *** src/utils.h: toLower, toUpper *)

Lemma transform_length (f : ascii -> ascii) (s : string) :
  length (Utils.transform f s) = length s.
Proof. induction s as [|c s IH]; [reflexivity|]. cbn. rewrite IH. reflexivity. Qed.

Lemma transform_compose (f g h : ascii -> ascii) (s : string) :
  (forall c, f (g c) = h c) ->
  Utils.transform f (Utils.transform g s) = Utils.transform h s.
Proof.
  intros H. induction s as [|c s IH]; [reflexivity|].
  cbn. rewrite H, IH. reflexivity.
Qed.

Lemma transform_fixes (f : ascii -> ascii) (s : string) :
  (forall c, f c <> c -> is_letter c = true) ->
  forall n c, get n s = Some c -> is_letter c = false ->
              get n (Utils.transform f s) = Some c.
Proof.
  intros H. induction s as [|a s IH]; intros n c Hget Hl; [discriminate|].
  destruct n as [|n]; cbn in Hget |- *.
  - inversion Hget; subst a. f_equal.
    destruct (ascii_dec (f c) c) as [->|Hne]; [reflexivity|].
    apply H in Hne. congruence.
  - apply IH; assumption.
Qed.

Ltac by_cases_on_ascii c :=
  destruct c as [[] [] [] [] [] [] [] []]; vm_compute; try reflexivity;
  try (intros; congruence).

Lemma tolower_tolower c : Utils.tolower (Utils.tolower c) = Utils.tolower c.
Proof. by_cases_on_ascii c. Qed.
Lemma toupper_toupper c : Utils.toupper (Utils.toupper c) = Utils.toupper c.
Proof. by_cases_on_ascii c. Qed.
Lemma toupper_tolower c : Utils.toupper (Utils.tolower c) = Utils.toupper c.
Proof. by_cases_on_ascii c. Qed.
Lemma tolower_toupper c : Utils.tolower (Utils.toupper c) = Utils.tolower c.
Proof. by_cases_on_ascii c. Qed.
Lemma tolower_moves_letters c : Utils.tolower c <> c -> is_letter c = true.
Proof. by_cases_on_ascii c. Qed.
Lemma toupper_moves_letters c : Utils.toupper c <> c -> is_letter c = true.
Proof. by_cases_on_ascii c. Qed.

(** [toLower] and [toUpper] keep the length of the string and every
    character that is not an ASCII letter where it is; each is
    idempotent, and either one applied after the other gives what it
    gives alone. *)
Theorem case_folding_laws :
  forall s : string,
    length (Utils.toLower s) = length s
    /\ length (Utils.toUpper s) = length s
    /\ Utils.toLower (Utils.toLower s) = Utils.toLower s
    /\ Utils.toUpper (Utils.toUpper s) = Utils.toUpper s
    /\ Utils.toUpper (Utils.toLower s) = Utils.toUpper s
    /\ Utils.toLower (Utils.toUpper s) = Utils.toLower s
    /\ (forall n c, get n s = Some c -> is_letter c = false ->
                    get n (Utils.toLower s) = Some c
                    /\ get n (Utils.toUpper s) = Some c).
Proof.
  intros s. unfold Utils.toLower, Utils.toUpper.
  rewrite !transform_length.
  rewrite (transform_compose _ _ _ s tolower_tolower).
  rewrite (transform_compose _ _ _ s toupper_toupper).
  rewrite (transform_compose _ _ _ s toupper_tolower).
  rewrite (transform_compose _ _ _ s tolower_toupper).
  repeat split; try reflexivity.
  - apply (transform_fixes _ s tolower_moves_letters); assumption.
  - apply (transform_fixes _ s toupper_moves_letters); assumption.
Qed.

(** *** src/utils.h: ltrim, rtrim, trim *)

Lemma last_char_cons (c : ascii) (s : string) :
  last_char (String c s) = match s with EmptyString => Some c | _ => last_char s end.
Proof.
  unfold last_char. destruct s as [|d s]; [reflexivity|].
  cbn [length Nat.sub]. rewrite Nat.sub_0_r. reflexivity.
Qed.

Lemma ltrim_split (s : string) :
  exists pre, s = pre ++ Utils.ltrim s /\ blank pre = true
              /\ (Utils.ltrim s = "" \/ not_space (first_char (Utils.ltrim s))).
Proof.
  induction s as [|c s IH].
  - exists "". repeat split. left. reflexivity.
  - cbn [Utils.ltrim]. destruct (Utils.isspace c) eqn:Hc.
    + destruct IH as [pre [Heq [Hb Hh]]]. exists (String c pre).
      cbn. rewrite Hc, Hb, <- Heq. repeat split. exact Hh.
    + exists "". repeat split. right. exact Hc.
Qed.

Lemma rtrim_split (s : string) :
  exists post, s = Utils.rtrim s ++ post /\ blank post = true
               /\ (Utils.rtrim s = "" \/ not_space (last_char (Utils.rtrim s))).
Proof.
  induction s as [|c s IH].
  - exists "". repeat split. left. reflexivity.
  - destruct IH as [post [Heq [Hb Hl]]]. cbn [Utils.rtrim].
    destruct (Utils.rtrim s) as [|d t] eqn:Hr.
    + cbn in Heq. subst post. destruct (Utils.isspace c) eqn:Hc.
      * exists (String c s). cbn. rewrite Hc, Hb. repeat split. left. reflexivity.
      * exists s. cbn. repeat split; [exact Hb|]. right. exact Hc.
    + exists post. cbn [String.append] in Heq |- *. rewrite <- Heq.
      repeat split; [exact Hb|]. right. rewrite last_char_cons.
      destruct Hl as [Hl|Hl]; [discriminate|exact Hl].
Qed.

Lemma rtrim_cons (c : ascii) (s : string) :
  Utils.rtrim (String c s)
  = match Utils.rtrim s with
    | EmptyString => if Utils.isspace c then EmptyString else String c EmptyString
    | t => String c t
    end.
Proof. reflexivity. Qed.

Lemma rtrim_rtrim (s : string) : Utils.rtrim (Utils.rtrim s) = Utils.rtrim s.
Proof.
  induction s as [|c s IH]; [reflexivity|].
  rewrite rtrim_cons. destruct (Utils.rtrim s) as [|d t] eqn:Hr.
  - destruct (Utils.isspace c) eqn:Hc; [reflexivity|].
    rewrite rtrim_cons. cbn [Utils.rtrim]. rewrite Hc. reflexivity.
  - rewrite rtrim_cons, IH. reflexivity.
Qed.

Lemma rtrim_keeps_head (c : ascii) (s : string) :
  Utils.isspace c = false ->
  exists t, Utils.rtrim (String c s) = String c t.
Proof.
  intros Hc. cbn [Utils.rtrim]. destruct (Utils.rtrim s); [rewrite Hc|]; eexists; reflexivity.
Qed.

(** [trim] takes away a run of spaces at the front and one at the back
    and nothing else: what is left does not begin or end with a space,
    and trimming it again changes nothing. *)
Theorem trim_takes_the_spaces_at_both_ends :
  forall s : string,
    (exists pre post,
        s = pre ++ Utils.trim s ++ post
        /\ blank pre = true /\ blank post = true)
    /\ (Utils.trim s = ""
        \/ (not_space (first_char (Utils.trim s))
            /\ not_space (last_char (Utils.trim s))))
    /\ Utils.trim (Utils.trim s) = Utils.trim s.
Proof.
  intros s. unfold Utils.trim.
  destruct (ltrim_split s) as [pre [Hs [Hpre Hhead]]].
  destruct (rtrim_split (Utils.ltrim s)) as [post [Ht [Hpost Hlast]]].
  split; [|split].
  - exists pre, post. rewrite <- Ht. auto.
  - destruct Hhead as [He|Hhead].
    + left. rewrite He. reflexivity.
    + right. destruct (Utils.ltrim s) as [|c r] eqn:Hl; [contradiction|].
      cbn in Hhead. destruct (rtrim_keeps_head c r Hhead) as [t Hr].
      split.
      * rewrite Hr. exact Hhead.
      * destruct Hlast as [Hl'|Hl']; [rewrite Hr in Hl'; discriminate|exact Hl'].
  - destruct Hhead as [He|Hhead].
    + rewrite He. reflexivity.
    + destruct (Utils.ltrim s) as [|c r] eqn:Hl; [contradiction|].
      cbn in Hhead. destruct (rtrim_keeps_head c r Hhead) as [t Hr].
      rewrite Hr. cbn [Utils.ltrim]. rewrite Hhead, <- Hr. apply rtrim_rtrim.
Qed.

(** *** src/exif.cpp: findKey *)

Lemma lookupKey_In {F} (data : ExifData F) (k : string) (v : Value F) :
  lookupKey data k = Some v -> In (k, v) data.
Proof.
  induction data as [|[k' v'] data IH]; [discriminate|].
  cbn [lookupKey]. destruct (String.eqb_spec k' k) as [->|_].
  - intros H. inversion H; subst. left. reflexivity.
  - intros H. right. apply IH. exact H.
Qed.

(** [findKey] answers for the first key of its list that the image
    holds: every key before it in the list is absent, the value is one
    the image holds under that key, and the answer is "none" exactly when
    the image holds none of the keys.  The order of the tags in the image
    plays no part; the order of the keys does. *)
Theorem findKey_takes_the_first_key_present :
  forall (F : Type) (data : ExifData F) (keys : list string),
    (findKey data keys = None <-> forall k, In k keys -> lookupKey data k = None)
    /\ (forall v, findKey data keys = Some v ->
                  exists before k after,
                    keys = (before ++ k :: after)%list
                    /\ (forall k', In k' before -> lookupKey data k' = None)
                    /\ lookupKey data k = Some v
                    /\ In (k, v) data).
Proof.
  intros F data keys. induction keys as [|k keys [IHn IHs]].
  - split; [split; [intros _ k []|reflexivity]|discriminate].
  - cbn [findKey]. destruct (lookupKey data k) as [v|] eqn:Hk; split.
    + split; [discriminate|]. intros H. rewrite (H k (or_introl eq_refl)) in Hk.
      discriminate.
    + intros v' Hv. inversion Hv; subst v'. exists [], k, keys.
      repeat split; [intros k' []|exact Hk|apply lookupKey_In; exact Hk].
    + rewrite IHn. split.
      * intros H k' [<-|Hin]; [exact Hk|apply H; exact Hin].
      * intros H k' Hin. apply H. right. exact Hin.
    + intros v Hv. destruct (IHs v Hv) as [before [k0 [after [Heq [Hb [Hl Hin]]]]]].
      exists (k :: before), k0, after. rewrite Heq. repeat split; try assumption.
      intros k' [<-|Hk']; [exact Hk|apply Hb; exact Hk'].
Qed.

(** *** src/exif.cpp: extractImageSize *)

Lemma to_int_range (z : Z) : in_int_range (to_int z).
Proof.
  unfold in_int_range, to_int.
  pose proof (Z.mod_pos_bound (z + 2 ^ 31) (2 ^ 32) ltac:(lia)) as H. lia.
Qed.

Lemma to_int_small (z : Z) : in_int_range z -> to_int z = z.
Proof.
  unfold in_int_range, to_int. intros H.
  rewrite Z.mod_small by lia. lia.
Qed.

(** [extractImageSize] gives both dimensions or neither: when either
    pixel-dimension tag is missing the other one is discarded and the
    size is (-1,-1); when both are there and fit an int the size is
    theirs; in every case both numbers are in the range of an int. *)
Theorem extractImageSize_both_or_neither :
  forall (F : Type) (data : ExifData F),
    let x := findKey data ["Exif.Photo.PixelXDimension"] in
    let y := findKey data ["Exif.Photo.PixelYDimension"] in
    in_int_range (width (extractImageSize data))
    /\ in_int_range (height (extractImageSize data))
    /\ (x = None \/ y = None ->
        extractImageSize data = mkImageSize (-1) (-1))
    /\ (forall w h,
           x = Some w -> y = Some h ->
           in_int_range (toLong w) -> in_int_range (toLong h) ->
           extractImageSize data = mkImageSize (toLong w) (toLong h)).
Proof.
  intros F data x y. unfold extractImageSize. fold x y.
  destruct x as [w|], y as [h|]; cbn [width height];
    (split; [try apply to_int_range; unfold in_int_range; lia|]);
    (split; [try apply to_int_range; unfold in_int_range; lia|]);
    (split; [intros [H|H]; try discriminate; reflexivity|]);
    intros w' h' Hw Hh Hrw Hrh; try discriminate.
  inversion Hw; inversion Hh; subst.
  rewrite !to_int_small by assumption. reflexivity.
Qed.

(** *** src/exif.cpp: extractSensor *)

Lemma erase_no_longer (pos len : nat) (s : string) :
  length (erase pos len s) <= length s.
Proof.
  unfold erase. rewrite ExifFacts.append_length, !ExifFacts.substring_length. lia.
Qed.

Lemma stripMake_post (fuel : nat) :
  forall make model m,
    stripMake fuel make model = Some m ->
    find make m = None
    /\ length m <= length model
    /\ (find make model = None -> m = model).
Proof.
  induction fuel as [|fuel IH]; intros make model m H; [discriminate|].
  cbn [stripMake] in H. destruct (find make model) as [pos|] eqn:Hf.
  - destruct (IH _ _ _ H) as [Hn [Hl _]]. split; [exact Hn|]. split.
    + pose proof (erase_no_longer pos (length make) model). lia.
    + discriminate.
  - inversion H; subst m. auto.
Qed.

(** When [extractSensor] returns, the sensor identity is the trimmed
    make, one space, and a trimmed model; with a make tag present ("known")
    that model holds no occurrence of the lower-cased make any more, also
    none that erasing an earlier one has put together; it is never longer
    than the model of the image, and it is that model unchanged when
    the make is unknown or does not occur in it. *)
Theorem extractSensor_leaves_no_make_in_the_model :
  forall (F : Type) (data : ExifData F) (fuel : nat) (sensor : string),
    extractSensor data fuel = Some sensor ->
    let make := Utils.toLower (extractMake data) in
    let model := Utils.toLower (extractModel data) in
    exists model',
      sensor = Utils.trim make ++ " " ++ Utils.trim model'
      /\ length model' <= length model
      /\ (make <> "unknown" -> find make model' = None)
      /\ (make = "unknown" \/ find make model = None -> model' = model).
Proof.
  intros F data fuel sensor H make model. unfold extractSensor in H.
  fold make model in H.
  destruct (String.eqb_spec make "unknown") as [Hu|Hu].
  - inversion H. exists model. repeat split; [lia|contradiction].
  - destruct (stripMake fuel make model) as [m|] eqn:Hs; [|discriminate].
    inversion H. destruct (stripMake_post _ _ _ _ Hs) as [Hn [Hl Hsame]].
    exists m. repeat split; [exact Hl|intros _; exact Hn|].
    intros [Hc|Hc]; [contradiction|apply Hsame; exact Hc].
Qed.

Lemma extractSensor_leaves_no_make_in_the_model_witness :
  exists model',
    "canon eos 5d" = Utils.trim "canon" ++ " " ++ Utils.trim model'
    /\ length model' <= length "canon eos 5d"
    /\ ("canon" <> "unknown" -> find "canon" model' = None)
    /\ ("canon" = "unknown" \/ find "canon" "canon eos 5d" = None
        -> model' = "canon eos 5d").
Proof.
  apply (extractSensor_leaves_no_make_in_the_model spec_float canon 13 "canon eos 5d").
  vm_compute. reflexivity.
Defined.

(** *** src/exif.cpp: computeFocal and the lookup table *)

(** [computeFocal] reads the table of sensors only on one path: no
    positive 35mm tag, and a width from the resolution tags that is
    exactly 0.  With a positive 35mm tag, or with any other width from
    the tags (negative included), the result is the same whatever the
    table holds. *)
Theorem computeFocal_reads_the_table_only_for_a_zero_width :
  forall (F : Type) (ops : FloatOps F) (data : ExifData F)
         (table1 table2 : list (string * F)) (fuel : nat),
    (feqb (extractSensorWidth data) (lit 0 1) = false
     \/ exists v,
         findKey data ["Exif.Photo.FocalLengthIn35mmFilm";
                       "Exif.Image.FocalLengthIn35mmFilm"] = Some v
         /\ fgtb (toFloat v) (of_long 0) = true) ->
    computeFocal data table1 fuel = computeFocal data table2 fuel.
Proof.
  intros F ops data t1 t2 fuel H. unfold computeFocal.
  assert (Hs : feqb (extractSensorWidth data) (lit 0 1) = false ->
               forall focal, computeFocalFromSensor data t1 fuel focal
                             = computeFocalFromSensor data t2 fuel focal).
  { intros Hw focal. unfold computeFocalFromSensor. rewrite Hw. reflexivity. }
  destruct H as [Hw|[v [Hv Hpos]]].
  - destruct (findKey data _) as [v35|]; [|apply Hs; exact Hw].
    destruct (fgtb (toFloat v35) (of_long 0)); [reflexivity|apply Hs; exact Hw].
  - rewrite Hv, Hpos. reflexivity.
Qed.

Lemma computeFocal_reads_the_table_only_for_a_zero_width_witness :
  @computeFocal _ binary32 canonNoImageSize canonTable 13
  = @computeFocal _ binary32 canonNoImageSize [] 13.
Proof.
  apply (computeFocal_reads_the_table_only_for_a_zero_width
           spec_float binary32 canonNoImageSize canonTable [] 13).
  left. vm_compute. reflexivity.
Defined.

End MoreExifFacts.

(* ================================================================== *)
(** ** Further theorems: the index engine *)
(* ================================================================== *)

Module MoreDdbFacts.
Import Path FS Ddb Scenario EngineSpec.
Local Open Scope list_scope.

(** *** checkUpdate *)

(** [checkUpdate], case by case.  A path that names nothing: it throws.
    A directory: changed exactly when the modification times differ, and
    the hash of the entry is never touched.  A file: changed exactly when
    the modification times differ and the digests differ too; the digest
    is read only when the times differ.  The modification time on disk is
    always put into the entry. *)
Theorem checkUpdate_cases :
  forall (fs : filesystem) (e : Entry.t) (p : path) (dbMtime : Z) (dbHash : string),
    (status fs p = None ->
     exists what, checkUpdate fs e p dbMtime dbHash = Thrown (FSException what))
    /\ (forall t es,
           status fs p = Some (Dir t es) ->
           checkUpdate fs e p dbMtime dbHash
           = Returned (negb (t =? dbMtime)%Z, Entry.with_mtime t e))
    /\ (forall t h,
           status fs p = Some (File t h) ->
           checkUpdate fs e p dbMtime dbHash
           = Returned (negb (t =? dbMtime)%Z && negb (String.eqb dbHash h),
                       if (t =? dbMtime)%Z then Entry.with_mtime t e
                       else Entry.with_hash h (Entry.with_mtime t e))).
Proof.
  intros fs e p dbMtime dbHash.
  unfold checkUpdate, getModifiedTime, fileSHA256, is_directory.
  split; [|split].
  - intros ->. eexists. reflexivity.
  - intros t es ->. cbn. destruct (t =? dbMtime)%Z; reflexivity.
  - intros t h ->. cbn. destruct (t =? dbMtime)%Z; [reflexivity|].
    cbn. destruct (String.eqb dbHash h); reflexivity.
Qed.

(** *** What add and sync execute and print *)

Section Logs.
Variable fs : filesystem.
Variable parseEntry : path -> path -> Entry.t -> ParseEntryOpts -> Outcome Entry.t.
Variable sqlFails : Sql -> list Entry.t -> bool.

Lemma logs_nothing (may : Sql -> Prop) {A} (c : M A) :
  (forall w o w', c w = (o, w') -> executed w' = executed w /\ cout w' = cout w) ->
  logs may c.
Proof.
  intros Hc w o w' H. destruct (Hc w o w' H) as [He Hc'].
  exists []. cbn [map]. rewrite !app_nil_r. auto.
Qed.

Lemma logs_ret (may : Sql -> Prop) {A} (a : A) : logs may (ret a).
Proof. apply logs_nothing. intros w o w' H. inversion H; subst. auto. Qed.

Lemma logs_lift (may : Sql -> Prop) {A} (o : Outcome A) : logs may (lift o).
Proof. apply logs_nothing. intros w o' w' H. inversion H; subst. auto. Qed.

Lemma logs_exec (may : Sql -> Prop) (s : Sql) : logs may (exec sqlFails s).
Proof.
  apply logs_nothing. intros w o w' H. unfold exec in H.
  destruct (sqlFails s (view (db w))); [inversion H; auto|].
  destruct s, (transaction (db w)); inversion H; subst; auto.
Qed.

Lemma logs_bind (may : Sql -> Prop) {A B} (c : M A) (k : A -> M B) :
  logs may c -> (forall a, logs may (k a)) -> logs may (bind c k).
Proof.
  intros Hc Hk w o w' H. unfold bind in H.
  destruct (c w) as [[a|e|] w1] eqn:Hcw.
  - destruct (Hc _ _ _ Hcw) as [s1 [He1 [Hc1 Hm1]]].
    destruct (Hk a _ _ _ H) as [s2 [He2 [Hc2 Hm2]]].
    exists (s1 ++ s2). rewrite He2, He1, Hc2, Hc1, map_app, !app_assoc.
    repeat split. apply Forall_app. auto.
  - inversion H; subst. exact (Hc _ _ _ Hcw).
  - inversion H; subst. exact (Hc _ _ _ Hcw).
Qed.

Lemma logs_forEach (may : Sql -> Prop) {A} (l : list A) (body : A -> M unit) :
  (forall a, In a l -> logs may (body a)) -> logs may (forEach l body).
Proof.
  induction l as [|a l IH]; intros Hb; cbn [forEach].
  - apply logs_ret.
  - apply logs_bind; [apply Hb; left; reflexivity|].
    intros _. apply IH. intros b Hin. apply Hb. right. exact Hin.
Qed.

Lemma logs_execute_print (may : Sql -> Prop) (s : Sql) (line : string) :
  line = lineOf s -> may s -> logs may (execute sqlFails s ;;; print line).
Proof.
  intros -> Hs w o w' H. unfold bind, execute, print in H.
  destruct (sqlFails s (view (db w))); inversion H; subst.
  - exists []. cbn [map]. rewrite !app_nil_r. auto.
  - exists [s]. cbn. auto.
Qed.

Ltac no_statement :=
  exists []; cbn [map]; rewrite !app_nil_r; repeat split; constructor.

Lemma logs_addEntry (directory p : path) :
  logs (addMay fs parseEntry directory)
       (addEntry fs parseEntry sqlFails directory p).
Proof.
  intros w o w' H.
  unfold addEntry, doUpdate, bind, fetchByPath, lift, ret, execute, print in H.
  destruct (List.find _ (view (db w))) as [r|].
  - destruct (checkUpdate fs Entry.empty p (Entry.mtime r) (Entry.hash r))
      as [[u e]|ex|] eqn:Hcu; [|inversion H; subst; no_statement ..].
    cbn [orb] in H. destruct u; [|inversion H; subst; no_statement].
    destruct (parseEntry p directory e opts) as [e1|ex|] eqn:Hpe;
      [|inversion H; subst; no_statement ..].
    destruct (sqlFails (Update e1) (view (db w)));
      inversion H; subst; [no_statement|].
    exists [Update e1]. cbn. repeat split. constructor; [|constructor].
    exists p, (Entry.mtime r), (Entry.hash r), e. auto.
  - cbn [orb] in H.
    destruct (parseEntry p directory Entry.empty opts) as [e1|ex|] eqn:Hpe;
      [|inversion H; subst; no_statement ..].
    destruct (sqlFails (Insert e1) (view (db w)));
      inversion H; subst; [no_statement|].
    exists [Insert e1]. cbn. repeat split. constructor; [|constructor].
    exists p. exact Hpe.
Qed.

Lemma logs_syncEntry (directory : path) (r : Entry.t) :
  logs (syncMay fs parseEntry directory [r])
       (syncEntry fs parseEntry sqlFails directory (fetched r)).
Proof.
  intros w o w' H.
  unfold syncEntry, fetched, doUpdate, bind, lift, ret, execute, print in H.
  destruct (exists_ fs (append directory (of_string (Entry.path r)))) eqn:Hex.
  - destruct (checkUpdate fs Entry.empty _ (Entry.mtime r) (Entry.hash r))
      as [[u e]|ex|] eqn:Hcu; [|inversion H; subst; no_statement ..].
    destruct u; [|inversion H; subst; no_statement].
    destruct (parseEntry _ directory e opts) as [e1|ex|] eqn:Hpe;
      [|inversion H; subst; no_statement ..].
    destruct (sqlFails (Update e1) (view (db w)));
      inversion H; subst; [no_statement|].
    exists [Update e1]. cbn. repeat split. constructor; [|constructor].
    exists r, e. cbn. auto.
  - destruct (sqlFails (Delete _) (view (db w)));
      inversion H; subst; [no_statement|].
    eexists [Delete _]. cbn. repeat split. constructor; [|constructor].
    exists r. cbn. auto.
Qed.

Lemma syncMay_more (directory : path) (rows : list Entry.t) (r : Entry.t) (s : Sql) :
  In r rows ->
  syncMay fs parseEntry directory [r] s -> syncMay fs parseEntry directory rows s.
Proof.
  intros Hin. destruct s; cbn; try tauto.
  - intros [r' [e0 [[<-|[]] H]]]. exists r, e0. auto.
  - intros [r' [[<-|[]] H]]. exists r. auto.
Qed.

Lemma logs_weaken (may may' : Sql -> Prop) {A} (c : M A) :
  (forall s, may s -> may' s) -> logs may c -> logs may' c.
Proof.
  intros Hm Hc w o w' H. destruct (Hc _ _ _ H) as [stmts [He [Hl Hf]]].
  exists stmts. repeat split; try assumption.
  eapply Forall_impl; [exact Hm|exact Hf].
Qed.

Lemma logs_addToIndex_run (fuel : nat) (paths : list string)
  (w : World) (o : Outcome unit) (w' : World) :
  addToIndex fs parseEntry sqlFails fuel paths w = (o, w') ->
  exists stmts,
    executed w' = executed w ++ stmts
    /\ cout w' = cout w ++ map lineOf stmts
    /\ Forall (addMay fs parseEntry (rootDirectory (db w))) stmts.
Proof.
  unfold addToIndex.
  set (d := rootDirectory (db w)).
  set (c := pathList <- lift (getIndexPathList fs fuel d paths true) ;;
            exec sqlFails Begin ;;;
            forEach pathList (addEntry fs parseEntry sqlFails d) ;;;
            exec sqlFails Commit).
  assert (Hc : logs (addMay fs parseEntry d) c).
  { apply logs_bind; [apply logs_lift|]. intros pathList.
    apply logs_bind; [apply logs_exec|]. intros _.
    apply logs_bind; [|intros _; apply logs_exec].
    apply logs_forEach. intros p _. apply logs_addEntry. }
  intros Hrun. exact (Hc _ _ _ Hrun).
Qed.

Lemma logs_addToIndex (fuel : nat) (paths : list string) (w : World) :
  exists stmts,
    executed (snd (addToIndex fs parseEntry sqlFails fuel paths w))
    = executed w ++ stmts
    /\ cout (snd (addToIndex fs parseEntry sqlFails fuel paths w))
       = cout w ++ map lineOf stmts
    /\ Forall (addMay fs parseEntry (rootDirectory (db w))) stmts.
Proof.
  destruct (addToIndex fs parseEntry sqlFails fuel paths w) as [o w'] eqn:Hrun.
  exact (logs_addToIndex_run _ _ _ _ _ Hrun).
Qed.

Lemma logs_syncLoop (directory : path) (rows : list Entry.t) :
  logs (syncMay fs parseEntry directory rows)
       (forEach (map fetched rows) (syncEntry fs parseEntry sqlFails directory)).
Proof.
  apply logs_forEach. intros a Ha. apply in_map_iff in Ha.
  destruct Ha as [r [<- Hr]].
  apply (logs_weaken (syncMay fs parseEntry directory [r])).
  - intros s. apply syncMay_more. exact Hr.
  - apply logs_syncEntry.
Qed.

Lemma logs_syncIndex_run (w : World) (o : Outcome unit) (w' : World) :
  syncIndex fs parseEntry sqlFails w = (o, w') ->
  exists stmts,
    executed w' = executed w ++ stmts
    /\ cout w' = cout w ++ map lineOf stmts
    /\ Forall (syncMay fs parseEntry (rootDirectory (db w)) (entries (db w))) stmts.
Proof.
  unfold syncIndex. set (d := rootDirectory (db w)).
  unfold bind at 1.
  destruct (exec sqlFails Begin w) as [[[]|ex|] w0] eqn:Hb.
  - assert (Hw0 : executed w0 = executed w /\ cout w0 = cout w
                  /\ view (db w0) = entries (db w)).
    { unfold exec in Hb. destruct (sqlFails Begin (view (db w))); [discriminate|].
      destruct (transaction (db w)); [discriminate|].
      inversion Hb; subst. cbn. auto. }
    destruct Hw0 as [He0 [Hc0 Hv0]].
    set (c := forEach (map fetched (view (db w0)))
                      (syncEntry fs parseEntry sqlFails d) ;;; exec sqlFails Commit).
    change ((syncRows fs parseEntry sqlFails d ;;; exec sqlFails Commit) w0)
      with (c w0).
    assert (Hc : logs (syncMay fs parseEntry d (view (db w0))) c).
    { apply logs_bind; [apply logs_syncLoop|intros _; apply logs_exec]. }
    intros Hrun.
    destruct (Hc _ _ _ Hrun) as [stmts [He [Hl Hf]]].
    exists stmts. rewrite He, Hl, He0, Hc0, <- Hv0. auto.
  - assert (w0 = w).
    { unfold exec in Hb. destruct (sqlFails Begin (view (db w)));
        [inversion Hb; reflexivity|].
      destruct (transaction (db w)); inversion Hb; reflexivity. }
    subst w0. intros H. inversion H; subst. no_statement.
  - unfold exec in Hb. destruct (sqlFails Begin (view (db w))); [discriminate|].
    destruct (transaction (db w)); discriminate.
Qed.

Lemma logs_syncIndex (w : World) :
  exists stmts,
    executed (snd (syncIndex fs parseEntry sqlFails w)) = executed w ++ stmts
    /\ cout (snd (syncIndex fs parseEntry sqlFails w)) = cout w ++ map lineOf stmts
    /\ Forall (syncMay fs parseEntry (rootDirectory (db w)) (entries (db w))) stmts.
Proof.
  destruct (syncIndex fs parseEntry sqlFails w) as [o w'] eqn:Hrun.
  exact (logs_syncIndex_run _ _ _ Hrun).
Qed.

End Logs.

(** Whatever [addToIndex] is given and however it ends, what it has
    printed is one line per statement it executed, in the order of
    execution: "A<TAB>path" for an INSERT, "U<TAB>path" for an UPDATE.
    It executes nothing else: never a DELETE, an INSERT only of what the
    classifier made of a fresh entry, an UPDATE only of what it made of
    an entry that [checkUpdate] reported changed. *)
Theorem add_prints_what_it_executes :
  forall (fs : filesystem)
         (parseEntry : path -> path -> Entry.t -> ParseEntryOpts -> Outcome Entry.t)
         (sqlFails : Sql -> list Entry.t -> bool)
         (fuel : nat) (paths : list string) (w : World),
    let w' := snd (addToIndex fs parseEntry sqlFails fuel paths w) in
    exists stmts,
      executed w' = executed w ++ stmts
      /\ cout w' = cout w ++ map lineOf stmts
      /\ Forall (addMay fs parseEntry (rootDirectory (db w))) stmts.
Proof.
  intros fs parseEntry sqlFails fuel paths w. apply logs_addToIndex.
Qed.

(** Whatever state [syncIndex] starts from and however it ends, what it
    has printed is one line per statement it executed, in order:
    "U<TAB>path" for an UPDATE, "D<TAB>path" for a DELETE.  It never
    inserts; it updates only rows whose file exists and was reported
    changed, with what the classifier made of it; it deletes only rows
    whose file does not exist. *)
Theorem sync_prints_what_it_executes :
  forall (fs : filesystem)
         (parseEntry : path -> path -> Entry.t -> ParseEntryOpts -> Outcome Entry.t)
         (sqlFails : Sql -> list Entry.t -> bool) (w : World),
    let w' := snd (syncIndex fs parseEntry sqlFails w) in
    exists stmts,
      executed w' = executed w ++ stmts
      /\ cout w' = cout w ++ map lineOf stmts
      /\ Forall (syncMay fs parseEntry (rootDirectory (db w)) (entries (db w))) stmts.
Proof.
  intros fs parseEntry sqlFails w. apply logs_syncIndex.
Qed.

(** *** What add and sync do to the paths of the index *)

Lemma map_path_update (e : Entry.t) (t : list Entry.t) :
  map Entry.path (apply (Update e) t) = map Entry.path t.
Proof.
  cbn [apply]. induction t as [|r t IH]; [reflexivity|].
  cbn [map]. rewrite IH. f_equal. unfold has_path.
  destruct (String.eqb_spec (Entry.path r) (Entry.path e)); congruence.
Qed.

Lemma map_path_delete (p : string) (t : list Entry.t) :
  map Entry.path (apply (Delete p) t)
  = filter (fun q => negb (String.eqb q p)) (map Entry.path t).
Proof.
  cbn [apply]. induction t as [|r t IH]; [reflexivity|].
  cbn [map filter]. unfold has_path at 1.
  destruct (String.eqb (Entry.path r) p); cbn [negb map]; rewrite IH; reflexivity.
Qed.

Lemma filter_twice {A} (f g : A -> bool) (l : list A) :
  filter f (filter g l) = filter (fun x => g x && f x) l.
Proof.
  induction l as [|a l IH]; [reflexivity|].
  cbn [filter]. destruct (g a); cbn [filter andb]; rewrite IH; reflexivity.
Qed.

Lemma replay_inserts (stmts : list Sql) :
  forall t,
    Forall (fun s => match s with Insert _ | Update _ => True | _ => False end) stmts ->
    map Entry.path (replay stmts t) = map Entry.path t ++ inserted stmts.
Proof.
  induction stmts as [|s stmts IH]; intros t Hf.
  - cbn. rewrite app_nil_r. reflexivity.
  - inversion Hf as [|? ? Hs Hrest]; subst. unfold replay in *. cbn [fold_left].
    rewrite (IH _ Hrest). destruct s; try contradiction.
    + cbn [apply inserted flat_map]. rewrite map_app. cbn [map app].
      rewrite <- app_assoc. reflexivity.
    + rewrite map_path_update. reflexivity.
Qed.

Lemma replay_deletes (stmts : list Sql) :
  forall t,
    Forall (fun s => match s with Update _ | Delete _ => True | _ => False end) stmts ->
    map Entry.path (replay stmts t)
    = filter (fun q => negb (among (deleted stmts) q)) (map Entry.path t).
Proof.
  induction stmts as [|s stmts IH]; intros t Hf.
  - cbn. induction (map Entry.path t) as [|q l IHl]; [reflexivity|].
    cbn [filter]. rewrite <- IHl. reflexivity.
  - inversion Hf as [|? ? Hs Hrest]; subst. unfold replay in *. cbn [fold_left].
    rewrite (IH _ Hrest). destruct s; try contradiction.
    + rewrite map_path_update. reflexivity.
    + rewrite map_path_delete, filter_twice. cbn [deleted flat_map app].
      apply filter_ext. intros q. unfold among. cbn [existsb].
      rewrite negb_orb. reflexivity.
Qed.

Section Effects.
Variable fs : filesystem.
Variable parseEntry : path -> path -> Entry.t -> ParseEntryOpts -> Outcome Entry.t.
Variable sqlFails : Sql -> list Entry.t -> bool.

(** a call that returned: the persisted table is the former one with the
    statements executed applied in order *)
Lemma returned_run_replays (c : Call) (w w' : World) :
  run fs parseEntry sqlFails c w = (Returned tt, w') ->
  exists stmts,
    executed w' = executed w ++ stmts
    /\ entries (db w') = replay stmts (entries (db w)).
Proof.
  intros H.
  assert (Ht : transaction (db w) = None /\ transaction (db w') = None).
  { destruct c as [fuel paths|fuel paths|]; cbn [run] in H.
    - unfold addToIndex in H. unfold bind at 1, lift in H.
      destruct (getIndexPathList fs fuel (rootDirectory (db w)) paths true);
        [|discriminate|discriminate].
      exact (DdbFacts.returned_outside_transaction sqlFails _ _ _ H).
    - unfold removeFromIndex in H. unfold bind at 1, lift in H.
      destruct (getIndexPathList fs fuel (rootDirectory (db w)) paths false);
        [|discriminate|discriminate].
      exact (DdbFacts.returned_outside_transaction sqlFails _ _ _ H).
    - exact (DdbFacts.returned_outside_transaction sqlFails _ _ _ H). }
  destruct Ht as [Ht Ht'].
  destruct (DdbFacts.tracks_run fs parseEntry sqlFails c _ _ _ H) as [stmts [He Hv]].
  exists stmts. split; [exact He|].
  unfold view in Hv. rewrite Ht, Ht' in Hv. exact Hv.
Qed.

(** After an add that returned, every path that was in the index is
    still there, in the same place: the path column is the former one
    followed by the paths of the INSERTs executed.  Add never loses or
    renames a row's path, whatever the classifier returns. *)
Theorem add_only_appends_paths :
  forall (fuel : nat) (paths : list string) (w w' : World),
    addToIndex fs parseEntry sqlFails fuel paths w = (Returned tt, w') ->
    exists stmts,
      executed w' = executed w ++ stmts
      /\ map Entry.path (entries (db w'))
         = map Entry.path (entries (db w)) ++ inserted stmts.
Proof.
  intros fuel paths w w' H.
  destruct (returned_run_replays (Add fuel paths) w w' H) as [stmts [He Hr]].
  destruct (logs_addToIndex_run fs parseEntry sqlFails fuel paths w _ _ H)
    as [stmts' [He' [_ Hf]]].
  assert (stmts' = stmts) by (rewrite He in He'; exact (eq_sym (app_inv_head _ _ _ He'))).
  subst stmts'. exists stmts. split; [exact He|].
  rewrite Hr. apply replay_inserts.
  eapply Forall_impl; [|exact Hf]. intros s. destruct s; cbn; tauto.
Qed.

(** a row whose file is missing is deleted by the body of the loop, if
    the body returns *)
Lemma syncEntry_deletes (directory : path) (r : Entry.t) (w w1 : World) :
  syncEntry fs parseEntry sqlFails directory (fetched r) w = (Returned tt, w1) ->
  exists stmts,
    executed w1 = executed w ++ stmts
    /\ (present fs directory (Entry.path r) = false ->
        In (Delete (to_string (of_string (Entry.path r)))) stmts).
Proof.
  intros H. unfold present.
  unfold syncEntry, fetched, doUpdate, bind, lift, ret, execute, print in H.
  destruct (exists_ fs (append directory (of_string (Entry.path r)))) eqn:Hex.
  - destruct (checkUpdate fs Entry.empty _ (Entry.mtime r) (Entry.hash r))
      as [[u e]|ex|]; [|discriminate ..].
    destruct u.
    + destruct (parseEntry _ directory e opts) as [e1|ex|]; [|discriminate ..].
      destruct (sqlFails (Update e1) (view (db w))); [discriminate|].
      inversion H; subst. exists [Update e1]. cbn. split; [reflexivity|discriminate].
    + inversion H; subst. exists []. rewrite app_nil_r. split; [reflexivity|discriminate].
  - destruct (sqlFails (Delete _) (view (db w))); [discriminate|].
    inversion H; subst. eexists [Delete _]. cbn. split; [reflexivity|]. auto.
Qed.

Lemma syncLoop_deletes (directory : path) (rows : list Entry.t) :
  forall w w',
    forEach (map fetched rows) (syncEntry fs parseEntry sqlFails directory) w
    = (Returned tt, w') ->
    exists stmts,
      executed w' = executed w ++ stmts
      /\ forall r, In r rows -> present fs directory (Entry.path r) = false ->
                   In (Delete (to_string (of_string (Entry.path r)))) stmts.
Proof.
  induction rows as [|r rows IH]; intros w w' H; cbn [map forEach] in H.
  - inversion H; subst. exists []. rewrite app_nil_r. split; [reflexivity|].
    intros r [].
  - unfold bind at 1 in H.
    destruct (syncEntry fs parseEntry sqlFails directory (fetched r) w)
      as [[[]|ex|] w1] eqn:H1; [|discriminate ..].
    destruct (syncEntry_deletes _ _ _ _ H1) as [s1 [He1 Hd1]].
    destruct (IH _ _ H) as [s2 [He2 Hd2]].
    exists (s1 ++ s2). rewrite He2, He1, app_assoc. split; [reflexivity|].
    intros r' [<-|Hin] Hmiss; apply in_or_app; [left|right]; auto.
Qed.

Lemma syncIndex_deletes (w w' : World) :
  syncIndex fs parseEntry sqlFails w = (Returned tt, w') ->
  exists stmts,
    executed w' = executed w ++ stmts
    /\ forall r, In r (entries (db w)) ->
                 present fs (rootDirectory (db w)) (Entry.path r) = false ->
                 In (Delete (to_string (of_string (Entry.path r)))) stmts.
Proof.
  unfold syncIndex. set (d := rootDirectory (db w)).
  unfold bind at 1.
  destruct (exec sqlFails Begin w) as [[[]|ex|] w0] eqn:Hb; [|discriminate ..].
  assert (Hw0 : executed w0 = executed w /\ view (db w0) = entries (db w)).
  { unfold exec in Hb. destruct (sqlFails Begin (view (db w))); [discriminate|].
    destruct (transaction (db w)); [discriminate|].
    inversion Hb; subst. cbn. auto. }
  destruct Hw0 as [He0 Hv0].
  unfold bind at 1, syncRows, bind at 1, fetchAll.
  change (map (fun r => (Entry.path r, Entry.mtime r, Entry.hash r)) (view (db w0)))
    with (map fetched (view (db w0))).
  destruct (forEach (map fetched (view (db w0))) _ w0) as [[[]|ex|] w1] eqn:Hl;
    [|discriminate ..].
  intros Hc.
  assert (He1 : executed w' = executed w1).
  { unfold exec in Hc. destruct (sqlFails Commit (view (db w1))); [discriminate|].
    destruct (transaction (db w1)); inversion Hc; subst; reflexivity. }
  destruct (syncLoop_deletes _ _ _ _ Hl) as [stmts [He Hd]].
  exists stmts. rewrite He1, He, He0. split; [reflexivity|].
  rewrite <- Hv0. exact Hd.
Qed.

Lemma among_In (l : list string) (q : string) : among l q = true <-> In q l.
Proof.
  unfold among. rewrite existsb_exists. split.
  - intros [x [Hin Heq]]. apply String.eqb_eq in Heq. subst. exact Hin.
  - intros Hin. exists q. split; [exact Hin|apply String.eqb_refl].
Qed.

Lemma deleted_In (stmts : list Sql) (p : string) :
  In p (deleted stmts) <-> In (Delete p) stmts.
Proof.
  unfold deleted. rewrite in_flat_map. split.
  - intros [s [Hin Hp]]. destruct s; cbn in Hp; try contradiction.
    destruct Hp as [<-|[]]. exact Hin.
  - intros Hin. exists (Delete p). split; [exact Hin|left; reflexivity].
Qed.

(** After a sync that returned, on an index whose stored paths are in
    generic form, the path column is the former one without the paths
    whose file is missing: every row of a missing file is gone, every
    row of an existing file is still there, in the same place, and no
    row was added. *)
Theorem sync_leaves_the_rows_of_existing_files :
  forall (w w' : World),
    Forall genericPath (entries (db w)) ->
    syncIndex fs parseEntry sqlFails w = (Returned tt, w') ->
    map Entry.path (entries (db w'))
    = filter (present fs (rootDirectory (db w))) (map Entry.path (entries (db w))).
Proof.
  intros w w' Hgen H.
  destruct (returned_run_replays Sync w w' H) as [stmts [He Hr]].
  destruct (logs_syncIndex_run fs parseEntry sqlFails w _ _ H)
    as [stmts1 [He1 [_ Hf]]].
  assert (stmts1 = stmts) by (rewrite He in He1; exact (eq_sym (app_inv_head _ _ _ He1))).
  subst stmts1.
  destruct (syncIndex_deletes w w' H) as [stmts2 [He2 Hd]].
  assert (stmts2 = stmts) by (rewrite He in He2; exact (eq_sym (app_inv_head _ _ _ He2))).
  subst stmts2.
  rewrite Hr, replay_deletes.
  2:{ eapply Forall_impl; [|exact Hf]. intros s. destruct s; cbn; tauto. }
  apply filter_ext_in. intros q Hq.
  apply in_map_iff in Hq. destruct Hq as [r [<- Hr']].
  assert (Hg : to_string (of_string (Entry.path r)) = Entry.path r).
  { exact (proj1 (Forall_forall _ _) Hgen r Hr'). }
  destruct (among (deleted stmts) (Entry.path r)) eqn:Ha; cbn [negb].
  - apply among_In, deleted_In in Ha.
    rewrite Forall_forall in Hf. specialize (Hf _ Ha). cbn in Hf.
    destruct Hf as [r0 [Hr0 [Hp Hex]]]. unfold present.
    rewrite Forall_forall in Hgen. rewrite (Hgen r0 Hr0) in Hp.
    rewrite Hp, Hex. reflexivity.
  - destruct (present fs (rootDirectory (db w)) (Entry.path r)) eqn:Hp; [reflexivity|].
    specialize (Hd r Hr' Hp). rewrite Hg in Hd.
    apply deleted_In, among_In in Hd. congruence.
Qed.
End Effects.

(** *** What remove does *)

Section Removal.
Variable fs : filesystem.
Variable sqlFails : Sql -> list Entry.t -> bool.

Lemma changes_tell_a_row (k : string) (t : list Entry.t) :
  (Z.of_nat (List.length (filter (has_path k) t)) >=? 1)%Z = true
  <-> In k (map Entry.path t).
Proof.
  induction t as [|r t IH]; cbn [filter map In].
  - cbn. split; [discriminate|tauto].
  - unfold has_path at 1. destruct (String.eqb_spec (Entry.path r) k) as [->|Hn].
    + cbn [List.length]. split; [auto|]. intros _.
      apply Z.geb_le. lia.
    + rewrite IH. split; [auto|]. intros [H|H]; [contradiction|exact H].
Qed.

Lemma removeEntry_returned (directory p : path) (w w1 : World) :
  removeEntry fs sqlFails directory p w = (Returned tt, w1) ->
  let k := keyOf fs directory p in
  view (db w1) = filter (fun r => negb (has_path k r)) (view (db w))
  /\ ((In k (map Entry.path (view (db w))) /\ cout w1 = cout w ++ ["D" ++ TAB ++ k]%string)
      \/ (~ In k (map Entry.path (view (db w))) /\ cout w1 = cout w)).
Proof.
  intros H k. unfold removeEntry, bind, execute in H.
  fold (keyOf fs directory p) in H. fold k in H.
  destruct (sqlFails (Delete k) (view (db w))); [discriminate|].
  cbn [changed apply] in H.
  destruct (Z.of_nat (List.length (filter (has_path k) (view (db w)))) >=? 1)%Z eqn:Hc.
  - unfold print in H. inversion H; subst. cbn [db cout].
    rewrite DdbFacts.view_set_view. split; [reflexivity|].
    left. split; [apply changes_tell_a_row; exact Hc|reflexivity].
  - unfold ret in H. inversion H; subst. cbn [db cout].
    rewrite DdbFacts.view_set_view. split; [reflexivity|].
    right. split; [|reflexivity]. intros Hin.
    apply changes_tell_a_row in Hin. congruence.
Qed.

Lemma removeLoop_returned (directory : path) (ps : list path) :
  forall w w',
    forEach ps (removeEntry fs sqlFails directory) w = (Returned tt, w') ->
    let keys := map (keyOf fs directory) ps in
    view (db w') = filter (fun r => negb (among keys (Entry.path r))) (view (db w))
    /\ exists printed,
         cout w' = cout w ++ map (fun k => "D" ++ TAB ++ k)%string printed
         /\ NoDup printed
         /\ forall k, In k printed
                      <-> In k keys /\ In k (map Entry.path (view (db w))).
Proof.
  induction ps as [|p ps IH]; intros w w' H; cbn [forEach] in H.
  - inversion H; subst. cbn [map]. split.
    + unfold among. cbn [existsb negb].
      induction (view (db w')) as [|r t IHt]; [reflexivity|].
      cbn [filter]. rewrite <- IHt. reflexivity.
    + exists []. cbn [map]. rewrite app_nil_r. split; [reflexivity|].
      split; [constructor|]. intros k. cbn. tauto.
  - unfold bind at 1 in H.
    destruct (removeEntry fs sqlFails directory p w) as [[[]|ex|] w1] eqn:H1;
      [|discriminate ..].
    destruct (removeEntry_returned _ _ _ _ H1) as [Hv1 Hc1].
    destruct (IH _ _ H) as [Hv2 [printed [Hc2 [Hnd Hin]]]].
    set (k := keyOf fs directory p) in *.
    assert (Hpaths : forall q, In q (map Entry.path (view (db w1)))
                               <-> In q (map Entry.path (view (db w))) /\ q <> k).
    { intros q. rewrite Hv1.
      change (filter (fun r => negb (has_path k r)) (view (db w)))
        with (apply (Delete k) (view (db w))).
      rewrite map_path_delete, filter_In.
      destruct (String.eqb_spec q k); cbn [negb]; intuition congruence. }
    cbn [map]. fold k. split.
    + rewrite Hv2, Hv1, filter_twice. apply filter_ext. intros r.
      unfold among, has_path. cbn [existsb]. rewrite negb_orb. reflexivity.
    + destruct Hc1 as [[Hk Hc1]|[Hk Hc1]].
      * exists (k :: printed). rewrite Hc2, Hc1, <- app_assoc. cbn [map app].
        split; [reflexivity|]. split.
        -- constructor; [|exact Hnd]. intros Hp. apply Hin in Hp.
           destruct Hp as [_ Hp]. apply Hpaths in Hp. tauto.
        -- intros q. cbn [In]. rewrite Hin, Hpaths.
           destruct (string_dec k q) as [<-|Hn]; [tauto|].
           intuition congruence.
      * exists printed. rewrite Hc2, Hc1. split; [reflexivity|].
        split; [exact Hnd|]. intros q. cbn [In]. rewrite Hin, Hpaths.
        destruct (string_dec k q) as [<-|Hn]; [tauto|].
        intuition congruence.
Qed.

(** After a remove that returned, the index is the former one without
    the rows stored under the key of a listed path, the keys being those
    of the paths that [getIndexPathList] lists without the parent
    directories.  One line "D<TAB>key" is printed for each key that had a
    row, once, and nothing else is printed. *)
Theorem remove_deletes_the_rows_of_the_listed_paths :
  forall (fuel : nat) (paths : list string) (w w' : World),
    removeFromIndex fs sqlFails fuel paths w = (Returned tt, w') ->
    exists pathList printed,
      getIndexPathList fs fuel (rootDirectory (db w)) paths false = Returned pathList
      /\ entries (db w')
         = filter (fun r => negb (among (map (keyOf fs (rootDirectory (db w))) pathList)
                                        (Entry.path r)))
                  (entries (db w))
      /\ cout w' = cout w ++ map (fun k => "D" ++ TAB ++ k)%string printed
      /\ NoDup printed
      /\ forall k, In k printed
                   <-> In k (map (keyOf fs (rootDirectory (db w))) pathList)
                       /\ In k (map Entry.path (entries (db w))).
Proof.
  intros fuel paths w w' H. unfold removeFromIndex in H.
  set (d := rootDirectory (db w)) in *.
  unfold bind at 1, lift in H.
  destruct (getIndexPathList fs fuel d paths false) as [pathList|ex|];
    [|discriminate ..].
  exists pathList.
  unfold bind at 1 in H.
  destruct (exec sqlFails Begin w) as [[[]|ex|] w0] eqn:Hb; [|discriminate ..].
  assert (Hw0 : cout w0 = cout w /\ view (db w0) = entries (db w)).
  { unfold exec in Hb. destruct (sqlFails Begin (view (db w))); [discriminate|].
    destruct (transaction (db w)); [discriminate|].
    inversion Hb; subst. cbn. auto. }
  destruct Hw0 as [Hc0 Hv0].
  unfold bind at 1 in H.
  destruct (forEach pathList (removeEntry fs sqlFails d) w0) as [[[]|ex|] w1] eqn:Hl;
    [|discriminate ..].
  assert (Hw1 : cout w' = cout w1 /\ entries (db w') = view (db w1)).
  { unfold exec in H. destruct (sqlFails Commit (view (db w1))); [discriminate|].
    unfold view. destruct (transaction (db w1)); inversion H; subst; cbn; auto. }
  destruct Hw1 as [Hc1 Hv1].
  destruct (removeLoop_returned _ _ _ _ Hl) as [Hv [printed [Hc [Hnd Hin]]]].
  exists printed. rewrite Hc1, Hv1, Hc, Hv, Hc0, Hv0 in *.
  split; [reflexivity|]. split; [reflexivity|]. split; [reflexivity|].
  split; [exact Hnd|]. exact Hin.
Qed.

Lemma indexVisit_without_dirs (fuel : nat) (st : list path * list path) (rp : path) :
  indexVisit fs fuel false st rp = Returned (fst st ++ [rp], snd st).
Proof.
  unfold indexVisit. destruct st as [result directories].
  rewrite Bool.andb_false_r. reflexivity.
Qed.

Lemma ofold_indexVisit_without_dirs (fuel : nat) (rps : list path) :
  forall st,
    ofold (indexVisit fs fuel false) rps st = Returned (fst st ++ rps, snd st).
Proof.
  induction rps as [|rp rps IH]; intros st; cbn [ofold].
  - rewrite app_nil_r. destruct st; reflexivity.
  - rewrite indexVisit_without_dirs. cbn [obind]. rewrite IH. cbn [fst snd].
    rewrite <- app_assoc. reflexivity.
Qed.

Lemma indexCandidate_without_dirs (fuel : nat) (st : list path * list path) (s : string) :
  indexCandidate fs fuel false st s = indexCandidate fs 0 false st s
  /\ indexCandidate fs fuel false st s <> OutOfFuel.
Proof.
  unfold indexCandidate.
  destruct (String.eqb (filename (of_string s)) DDB_DIR); [split; [reflexivity|discriminate]|].
  destruct (is_directory fs (of_string s)).
  - rewrite !ofold_indexVisit_without_dirs. cbn [obind].
    split; [reflexivity|discriminate].
  - destruct (exists_ fs (of_string s)); destruct st;
      (split; [reflexivity|discriminate]).
Qed.

Lemma ofold_indexCandidate_without_dirs (fuel : nat) (paths : list string) :
  forall st,
    ofold (indexCandidate fs fuel false) paths st
    = ofold (indexCandidate fs 0 false) paths st
    /\ ofold (indexCandidate fs fuel false) paths st <> OutOfFuel.
Proof.
  induction paths as [|s paths IH]; intros st; cbn [ofold].
  - split; [reflexivity|discriminate].
  - destruct (indexCandidate_without_dirs fuel st s) as [-> Hn].
    destruct (indexCandidate fs 0 false st s) as [st'|ex|]; cbn [obind].
    + apply IH.
    + split; [reflexivity|discriminate].
    + destruct (indexCandidate_without_dirs 0 st s) as [_ H0]. contradiction.
Qed.

Lemma getIndexPathList_without_dirs (fuel : nat) (root : path) (paths : list string) :
  getIndexPathList fs fuel root paths false = getIndexPathList fs 0 root paths false
  /\ getIndexPathList fs fuel root paths false <> OutOfFuel.
Proof.
  unfold getIndexPathList.
  destruct (negb (pathsAreChildren fs root paths)); [split; [reflexivity|discriminate]|].
  destruct (ofold_indexCandidate_without_dirs fuel paths ([], [])) as [-> Hn].
  split; [reflexivity|].
  destruct (ofold (indexCandidate fs 0 false) paths ([], [])) as [[r d]|ex|];
    cbn [obind]; [discriminate|discriminate|].
  destruct (ofold_indexCandidate_without_dirs 0 paths ([], [])) as [_ H0].
  contradiction.
Qed.

Lemma removeLoop_ends (directory : path) (ps : list path) :
  forall w, fst (forEach ps (removeEntry fs sqlFails directory) w) <> OutOfFuel.
Proof.
  induction ps as [|p ps IH]; intros w; cbn [forEach]; [discriminate|].
  unfold bind at 1.
  destruct (removeEntry fs sqlFails directory p w) as [[[]|ex|] w1] eqn:H1;
    [apply IH|discriminate|].
  unfold removeEntry, bind, execute, print, ret in H1.
  destruct (sqlFails _ (view (db w))); [discriminate|].
  destruct (_ >=? 1)%Z; discriminate.
Qed.

(** The walk over the parents that keeps add from returning on an
    absolute path is not run by remove: whatever the paths, the index
    and the file system, remove ends, by returning or by throwing. *)
Theorem remove_always_ends :
  forall (fuel : nat) (paths : list string) (w : World),
    removeFromIndex fs sqlFails fuel paths w = removeFromIndex fs sqlFails 0 paths w
    /\ fst (removeFromIndex fs sqlFails fuel paths w) <> OutOfFuel.
Proof.
  intros fuel paths w.
  assert (Hrun : forall f,
             removeFromIndex fs sqlFails f paths w
             = match getIndexPathList fs 0 (rootDirectory (db w)) paths false with
               | Returned pathList =>
                   (exec sqlFails Begin ;;;
                    forEach pathList (removeEntry fs sqlFails (rootDirectory (db w))) ;;;
                    exec sqlFails Commit) w
               | Thrown e => (Thrown e, w)
               | OutOfFuel => (OutOfFuel, w)
               end).
  { intros f. unfold removeFromIndex. unfold bind at 1, lift.
    destruct (getIndexPathList_without_dirs f (rootDirectory (db w)) paths) as [-> _].
    reflexivity. }
  split; [rewrite (Hrun fuel), (Hrun 0%nat); reflexivity|].
  rewrite (Hrun fuel).
  set (d := rootDirectory (db w)).
  destruct (getIndexPathList_without_dirs 0 d paths) as [_ H0].
  destruct (getIndexPathList fs 0 d paths false) as [pathList|ex|];
    [|cbn; discriminate|contradiction].
  unfold bind at 1.
  destruct (exec sqlFails Begin w) as [[[]|ex|] w0] eqn:Hb; [|cbn; discriminate|].
  - unfold bind at 1.
    pose proof (removeLoop_ends d pathList w0) as Hloop.
    destruct (forEach pathList (removeEntry fs sqlFails d) w0) as [[[]|ex|] w1];
      [|cbn; discriminate|cbn in Hloop; contradiction].
    unfold exec. destruct (sqlFails Commit (view (db w1))); [cbn; discriminate|].
    destruct (transaction (db w1)); cbn; discriminate.
  - unfold exec in Hb. destruct (sqlFails Begin (view (db w))); [discriminate|].
    destruct (transaction (db w)); discriminate.
Qed.
End Removal.

(** *** The key that add and remove look up *)

Section Keys.
Variable fs : filesystem.

Lemma weakly_canonical_of_existing (q : path) :
  exists_ fs q = true -> exists loc, weakly_canonical fs q = "/" :: loc.
Proof.
  intros H. unfold weakly_canonical. rewrite H.
  unfold exists_, status in H. unfold canonical.
  destruct (resolve fs q) as [loc|]; [eauto|discriminate].
Qed.

Lemma key_of_existing (directory p : path) :
  exists_ fs (lexically_relative (absolute fs p) (absolute fs directory)) = true ->
  prefix "/" (keyOf fs directory p) = true.
Proof.
  intros H. unfold keyOf, relativePath.
  destruct (weakly_canonical_of_existing _ H) as [loc ->].
  change (to_string ("/" :: loc)) with (String "/"%char (join loc)).
  cbn [prefix]. destruct (ascii_dec "/" "/") as [_|Hn]; [|contradiction Hn; reflexivity].
  destruct (join loc); reflexivity.
Qed.

Lemma no_relative_row_has_the_key (k : string) (t : list Entry.t) :
  prefix "/" k = true -> Forall relativeRow t ->
  List.find (has_path k) t = None /\ filter (has_path k) t = []
  /\ filter (fun r => negb (has_path k r)) t = t.
Proof.
  intros Hk Ht. induction Ht as [|r t Hr _ IH]; [auto|].
  assert (Hno : has_path k r = false).
  { unfold has_path. destruct (String.eqb_spec (Entry.path r) k) as [E|_];
      [|reflexivity].
    unfold relativeRow in Hr. rewrite E in Hr. congruence. }
  cbn [List.find filter]. rewrite Hno. cbn [negb].
  destruct IH as [-> [-> ->]]. auto.
Qed.

(** When the path of a candidate relative to the root also names
    something from the working directory, as it does for every candidate
    when the process is in the root, [weakly_canonical] resolves it and
    the key looked up is an absolute path.  An index whose stored paths
    are relative has no row under that key: add takes the candidate for
    a new one and inserts what the classifier returns, whether or not the
    index has it already, and remove deletes nothing and prints nothing. *)
Theorem resolved_key_matches_no_relative_row :
  forall (parseEntry : path -> path -> Entry.t -> ParseEntryOpts -> Outcome Entry.t)
         (sqlFails : Sql -> list Entry.t -> bool)
         (directory p : path) (w : World),
    exists_ fs (lexically_relative (absolute fs p) (absolute fs directory)) = true ->
    Forall relativeRow (view (db w)) ->
    addEntry fs parseEntry sqlFails directory p w
    = (e <- lift (parseEntry p directory Entry.empty opts) ;;
       execute sqlFails (Insert e) ;;;
       print ("A" ++ TAB ++ Entry.path e)) w
    /\ view (db (snd (removeEntry fs sqlFails directory p w))) = view (db w)
    /\ cout (snd (removeEntry fs sqlFails directory p w)) = cout w.
Proof.
  intros parseEntry sqlFails directory p w Hex Hrel.
  pose proof (key_of_existing directory p Hex) as Hk.
  destruct (no_relative_row_has_the_key _ _ Hk Hrel) as [Hfind [Hnone Hall]].
  unfold keyOf in Hfind, Hnone, Hall.
  split; [|split].
  - unfold addEntry. unfold bind at 1. unfold fetchByPath. rewrite Hfind.
    unfold bind at 1, ret. cbn [orb].
    unfold bind at 1 3, lift.
    destruct (parseEntry p directory Entry.empty opts); reflexivity.
  - unfold removeEntry, bind, execute. cbn [changed apply].
    destruct (sqlFails _ (view (db w))); [reflexivity|].
    rewrite Hnone, Hall. cbn. apply DdbFacts.view_set_view.
  - unfold removeEntry, bind, execute. cbn [changed apply].
    destruct (sqlFails _ (view (db w))); [reflexivity|].
    rewrite Hnone. reflexivity.
Qed.
End Keys.

Lemma resolved_key_matches_no_relative_row_witness :
  addEntry fromRoot (classify fromRoot) noFault (of_string "/data/root")
           (of_string "img.jpg") staleIndex
  = (e <- lift (classify fromRoot (of_string "img.jpg") (of_string "/data/root")
                         Entry.empty opts) ;;
     execute noFault (Insert e) ;;;
     print ("A" ++ TAB ++ Entry.path e)) staleIndex
  /\ view (db (snd (removeEntry fromRoot noFault (of_string "/data/root")
                                (of_string "img.jpg") staleIndex)))
     = view (db staleIndex)
  /\ cout (snd (removeEntry fromRoot noFault (of_string "/data/root")
                            (of_string "img.jpg") staleIndex))
     = cout staleIndex.
Proof.
  apply (resolved_key_matches_no_relative_row fromRoot (classify fromRoot) noFault
           (of_string "/data/root") (of_string "img.jpg") staleIndex).
  - vm_compute. reflexivity.
  - repeat constructor.
Defined.

Lemma add_only_appends_paths_witness :
  exists w',
    addToIndex fromRoot (classify fromRoot) noFault 4 ["img.jpg"; "a"] staleIndex
    = (Returned tt, w')
    /\ exists stmts,
         executed w' = executed staleIndex ++ stmts
         /\ map Entry.path (entries (db w'))
            = map Entry.path (entries (db staleIndex)) ++ inserted stmts.
Proof.
  eexists. split; [vm_compute; reflexivity|].
  apply (add_only_appends_paths fromRoot (classify fromRoot) noFault 4
           ["img.jpg"; "a"] staleIndex _).
  vm_compute. reflexivity.
Defined.

Lemma sync_leaves_the_rows_of_existing_files_witness :
  exists w',
    syncIndex fromSlash (classify fromSlash) noFault staleIndex = (Returned tt, w')
    /\ map Entry.path (entries (db w'))
       = filter (present fromSlash (rootDirectory (db staleIndex)))
                (map Entry.path (entries (db staleIndex))).
Proof.
  eexists. split; [vm_compute; reflexivity|].
  apply (sync_leaves_the_rows_of_existing_files fromSlash (classify fromSlash) noFault
           staleIndex _).
  - repeat constructor.
  - vm_compute. reflexivity.
Defined.

Lemma remove_deletes_the_rows_of_the_listed_paths_witness :
  exists w',
    removeFromIndex fromSlash noFault 0 ["/data/root/img.jpg"; "/data/root/a"] staleIndex
    = (Returned tt, w')
    /\ exists pathList printed,
         getIndexPathList fromSlash 0 (rootDirectory (db staleIndex))
                          ["/data/root/img.jpg"; "/data/root/a"] false
         = Returned pathList
         /\ entries (db w')
            = filter (fun r => negb (among (map (keyOf fromSlash
                                                      (rootDirectory (db staleIndex)))
                                                pathList)
                                           (Entry.path r)))
                     (entries (db staleIndex))
         /\ cout w' = cout staleIndex ++ map (fun k => "D" ++ TAB ++ k)%string printed
         /\ NoDup printed
         /\ forall k, In k printed
                      <-> In k (map (keyOf fromSlash (rootDirectory (db staleIndex)))
                                    pathList)
                          /\ In k (map Entry.path (entries (db staleIndex))).
Proof.
  eexists. split; [vm_compute; reflexivity|].
  apply (remove_deletes_the_rows_of_the_listed_paths fromSlash noFault 0
           ["/data/root/img.jpg"; "/data/root/a"] staleIndex _).
  vm_compute. reflexivity.
Defined.

End MoreDdbFacts.

(* ================================================================== *)
(** ** Further theorems: the two listings of paths *)
(* ================================================================== *)

Module ListingFacts.
Import Path FS Ddb Scenario EngineSpec.
Local Open Scope list_scope.

(** *** Pathnames *)

Lemma is_absolute_cons (e : string) (p : path) :
  is_absolute (e :: p) = String.eqb e "/".
Proof.
  destruct (String.eqb_spec e "/") as [->|Hn]; [reflexivity|].
  destruct e as [|c e]; [reflexivity|].
  destruct c as [[] [] [] [] [] [] [] []]; try reflexivity.
  destruct e; [contradiction Hn; reflexivity|reflexivity].
Qed.

Lemma relative_path_cons (e : string) (p : path) :
  relative_path (e :: p) = if String.eqb e "/" then p else e :: p.
Proof.
  destruct (String.eqb_spec e "/") as [->|Hn]; [reflexivity|].
  destruct e as [|c e]; [reflexivity|].
  destruct c as [[] [] [] [] [] [] [] []]; try reflexivity.
  destruct e; [contradiction Hn; reflexivity|reflexivity].
Qed.

Lemma is_name_spec (x : string) :
  is_name x = true -> x <> "" /\ x <> "/" /\ x <> "." /\ x <> "..".
Proof.
  unfold is_name, is_dot, is_dotdot. intros H.
  apply Bool.negb_true_iff in H.
  repeat (apply Bool.orb_false_iff in H; destruct H as [H ?]).
  repeat split; intros ->; discriminate.
Qed.

Lemma strip_trailing_snoc (q : path) (x : string) :
  x <> "" -> strip_trailing (q ++ [x]) = q ++ [x].
Proof.
  intros Hx. unfold strip_trailing. rewrite rev_app_distr. cbn [rev app].
  destruct x; [contradiction Hx; reflexivity|reflexivity].
Qed.

Lemma append_name (base : path) (x : string) :
  is_name x = true -> append base [x] = strip_trailing base ++ [x].
Proof.
  intros Hx. destruct (is_name_spec x Hx) as [_ [Hs _]].
  unfold append. rewrite is_absolute_cons.
  destruct (String.eqb_spec x "/"); [contradiction|reflexivity].
Qed.

Lemma filename_snoc (q : path) (x : string) :
  is_name x = true -> filename (q ++ [x]) = x.
Proof.
  intros Hx. destruct (is_name_spec x Hx) as [_ [Hs _]].
  unfold filename, has_relative_path.
  assert (Hr : relative_path (q ++ [x]) <> []).
  { destruct q as [|e q]; cbn [app]; rewrite relative_path_cons.
    - destruct (String.eqb_spec x "/"); [contradiction|discriminate].
    - destruct (String.eqb e "/"); [destruct q|]; discriminate. }
  destruct (relative_path (q ++ [x])); [contradiction Hr; reflexivity|].
  apply last_last.
Qed.

(** *** The tree *)

Lemma node_induction (P : node -> Prop) :
  (forall m h, P (File m h)) ->
  (forall m es, Forall (fun e => P (snd e)) es -> P (Dir m es)) ->
  forall n, P n.
Proof.
  intros HF HD. fix IH 1. intros [m h|m es]; [apply HF|].
  apply HD. induction es as [|[k c] es IHes]; constructor; [apply IH|exact IHes].
Qed.

Lemma wellNamed_Dir (m : Z) (es : list (string * node)) :
  wellNamed (Dir m es)
  = forallb (fun e => is_name (fst e) && wellNamed (snd e)) es.
Proof.
  cbn [wellNamed]. induction es as [|[k c] es IH]; [reflexivity|].
  cbn [forallb fst snd]. rewrite IH. reflexivity.
Qed.

Lemma find_entry_In (name : string) (es : list (string * node)) (c : node) :
  find_entry name es = Some c -> In (name, c) es.
Proof.
  induction es as [|[k n] es IH]; cbn [find_entry]; [discriminate|].
  destruct (String.eqb_spec k name) as [->|Hn].
  - intros H. inversion H; subst. left. reflexivity.
  - intros H. right. exact (IH H).
Qed.

Lemma get_wellNamed (loc : list string) :
  forall n c, wellNamed n = true -> get n loc = Some c -> wellNamed c = true.
Proof.
  induction loc as [|name loc IH]; intros n c Hn Hg; cbn [get] in Hg.
  - inversion Hg; subst. exact Hn.
  - destruct n as [m h|m es]; [discriminate|].
    destruct (find_entry name es) as [c'|] eqn:Hf; [|discriminate].
    apply find_entry_In in Hf. rewrite wellNamed_Dir, forallb_forall in Hn.
    specialize (Hn _ Hf). cbn [fst snd] in Hn.
    apply Bool.andb_true_iff in Hn. destruct Hn as [_ Hc].
    exact (IH _ _ Hc Hg).
Qed.

Lemma status_wellNamed (fs : filesystem) (p : path) (n : node) :
  wellNamed (tree fs) = true -> status fs p = Some n -> wellNamed n = true.
Proof.
  intros Hw Hs. unfold status in Hs.
  destruct (resolve fs p) as [loc|]; [|discriminate].
  exact (get_wellNamed _ _ _ Hw Hs).
Qed.

(** *** The iterator *)

Lemma walk_Dir (prune : path -> Z -> bool) (base : path) (depth m : Z)
  (es : list (string * node)) :
  walk prune base depth (Dir m es)
  = flat_map (fun e =>
                (append base [fst e], depth)
                  :: (if is_dir (snd e) && negb (prune (append base [fst e]) depth)
                      then walk prune (append base [fst e]) (depth + 1) (snd e)
                      else []))
             es.
Proof.
  cbn [walk]. induction es as [|[k c] es IH]; [reflexivity|].
  cbn [flat_map fst snd]. rewrite IH. reflexivity.
Qed.

(** what the iterator yields below [base]: the entry that some names
    lead to, at the depth that is their number less one, the iterator
    having gone down through every directory on the way *)
Lemma walk_sound (prune : path -> Z -> bool) (n : node) :
  forall (base : path) (depth : Z) (rp : path) (d : Z),
    wellNamed n = true ->
    In (rp, d) (walk prune base depth n) ->
    exists names,
      names <> []
      /\ rp = strip_trailing base ++ names
      /\ d = (depth + Z.of_nat (List.length names) - 1)%Z
      /\ Forall (fun x => is_name x = true) names
      /\ forall pre post,
           names = pre ++ post -> pre <> [] -> post <> [] ->
           prune (strip_trailing base ++ pre)
                 (depth + Z.of_nat (List.length pre) - 1)%Z = false.
Proof.
  induction n as [m h|m es IH] using node_induction;
    intros base depth rp d Hw Hin; [contradiction|].
  rewrite walk_Dir in Hin. apply in_flat_map in Hin.
  destruct Hin as [[name c] [He Hin]]. cbn [fst snd] in Hin.
  rewrite wellNamed_Dir, forallb_forall in Hw.
  pose proof (Hw _ He) as Hnc. cbn [fst snd] in Hnc.
  apply Bool.andb_true_iff in Hnc. destruct Hnc as [Hname Hc].
  rewrite (append_name base name Hname) in Hin.
  destruct Hin as [Heq|Hin].
  - inversion Heq; subst. exists [name]. split; [discriminate|].
    split; [reflexivity|]. split; [cbn; lia|].
    split; [repeat constructor; exact Hname|].
    intros pre post Hsplit Hpre Hpost.
    destruct pre as [|x pre]; [contradiction Hpre; reflexivity|].
    destruct pre; [|destruct pre; discriminate].
    destruct post; [contradiction Hpost; reflexivity|discriminate].
  - destruct (is_dir c && negb (prune (strip_trailing base ++ [name]) depth)) eqn:Hgo;
      [|contradiction].
    apply Bool.andb_true_iff in Hgo. destruct Hgo as [_ Hgo].
    apply Bool.negb_true_iff in Hgo.
    rewrite Forall_forall in IH. specialize (IH _ He). cbn [snd] in IH.
    destruct (IH _ _ _ _ Hc Hin) as [names [Hne [Hrp [Hd [Hnames Hpre]]]]].
    destruct (is_name_spec name Hname) as [Hnonempty _].
    rewrite (strip_trailing_snoc _ _ Hnonempty) in Hrp, Hpre.
    exists (name :: names). split; [discriminate|].
    split; [rewrite Hrp, <- app_assoc; reflexivity|].
    split; [cbn [List.length]; lia|].
    split; [constructor; assumption|].
    intros pre post Hsplit Hp Hpost.
    destruct pre as [|x pre]; [contradiction Hp; reflexivity|].
    cbn [app] in Hsplit. inversion Hsplit; subst x.
    destruct pre as [|y pre].
    + cbn [List.length].
      replace (depth + Z.of_nat 1 - 1)%Z with depth by lia. exact Hgo.
    + specialize (Hpre (y :: pre) post H1 ltac:(discriminate) Hpost).
      rewrite <- app_assoc in Hpre. cbn [app] in Hpre.
      replace (depth + Z.of_nat (List.length (name :: y :: pre)) - 1)%Z
        with (depth + 1 + Z.of_nat (List.length (y :: pre)) - 1)%Z
        by (cbn [List.length]; lia).
      exact Hpre.
Qed.

(** the names that lead to an entry the iterator yields, when it does
    not go down into a .ddb directory, go through none *)
Lemma names_outsideDdb (prune : path -> Z -> bool) (q : path) (depth : Z)
  (names : list string) :
  (forall rp d, String.eqb (filename rp) DDB_DIR = true -> prune rp d = true) ->
  Forall (fun x => is_name x = true) names ->
  (forall pre post,
      names = pre ++ post -> pre <> [] -> post <> [] ->
      prune (q ++ pre) (depth + Z.of_nat (List.length pre) - 1)%Z = false) ->
  outsideDdb names.
Proof.
  intros Hprune Hnames Hpre Hin.
  destruct names as [|x0 names0] eqn:En; [contradiction|]. rewrite <- En in *.
  assert (Hne : names <> []) by (rewrite En; discriminate).
  pose proof (app_removelast_last "" Hne) as Hsplit.
  apply in_split in Hin. destruct Hin as [l1 [l2 Hrl]].
  rewrite Hrl, <- app_assoc in Hsplit. cbn [app] in Hsplit.
  specialize (Hpre (l1 ++ [DDB_DIR]) (l2 ++ [last names ""])).
  rewrite <- !app_assoc in Hpre. cbn [app] in Hpre.
  specialize (Hpre Hsplit).
  assert (H1 : l1 ++ [DDB_DIR] <> []) by (destruct l1; discriminate).
  assert (H2 : l2 ++ [last names ""] <> []) by (destruct l2; discriminate).
  specialize (Hpre H1 H2).
  rewrite Hprune in Hpre; [discriminate|].
  rewrite app_assoc, filename_snoc; reflexivity.
Qed.

(** *** getPathList *)

Section PathList.
Variable fs : filesystem.
Hypothesis tree_wellNamed : wellNamed (tree fs) = true.

Lemma pathCandidate_sound (includeDirs : bool) (maxDepth : Z)
  (result : list path) (s : string) (l : list path) :
  pathCandidate fs includeDirs maxDepth result s = Returned l ->
  forall rp,
    In rp l ->
    In rp result
    \/ (filename (of_string s) <> DDB_DIR
        /\ (includeDirs = false -> is_directory fs rp = false)
        /\ (rp = of_string s
            \/ exists names,
                 entryBelow (of_string s) names rp
                 /\ outsideDdb names
                 /\ ((0 < maxDepth)%Z -> (Z.of_nat (List.length names) <= maxDepth)%Z))).
Proof.
  unfold pathCandidate. intros H rp Hin.
  destruct (String.eqb_spec (filename (of_string s)) DDB_DIR) as [|Hddb].
  { inversion H; subst. left. exact Hin. }
  destruct (is_directory fs (of_string s)) eqn:Hdir.
  - inversion H; subst l; clear H.
    apply DdbFacts.In_listed in Hin. destruct Hin as [Hin|[Hin Hkind]]; [left; exact Hin|].
    right. split; [exact Hddb|]. split.
    { intros ->. destruct Hkind; [assumption|discriminate]. }
    right. apply in_map_iff in Hin. destruct Hin as [[rp' d] [Hfst Hin]].
    cbn [fst] in Hfst. subst rp'.
    unfold recursive_directory_iterator in Hin.
    destruct (status fs (of_string s)) as [n|] eqn:Hst; [|contradiction].
    pose proof (status_wellNamed _ _ _ tree_wellNamed Hst) as Hn.
    destruct (walk_sound _ _ _ _ _ _ Hn Hin) as [names [Hne [Hrp [Hd [Hnames Hpre]]]]].
    exists names. split; [split; assumption|]. split.
    + refine (names_outsideDdb
                (fun rp depth =>
                   String.eqb (filename rp) DDB_DIR
                   || ((maxDepth >? 0)%Z && (depth >=? maxDepth - 1)%Z))
                (strip_trailing (of_string s)) 0 names _ Hnames Hpre).
      intros rp' d' ->. reflexivity.
    + intros Hmax.
      destruct (Nat.le_gt_cases (List.length names) 1) as [Hle|Hgt]; [lia|].
      pose proof (app_removelast_last "" Hne) as Hsplit.
      assert (Hlen : List.length names = S (List.length (removelast names))).
      { rewrite Hsplit at 1. rewrite length_app. cbn. lia. }
      specialize (Hpre (removelast names) [last names ""] Hsplit).
      assert (H1 : removelast names <> []).
      { intros E. rewrite E in Hlen. cbn in Hlen. lia. }
      specialize (Hpre H1 ltac:(discriminate)).
      apply Bool.orb_false_iff in Hpre. destruct Hpre as [_ Hpre].
      apply Bool.andb_false_iff in Hpre. destruct Hpre as [Hpre|Hpre].
      * rewrite Z.gtb_ltb in Hpre. apply Z.ltb_ge in Hpre. lia.
      * rewrite Z.geb_leb in Hpre. apply Z.leb_gt in Hpre. lia.
  - destruct (exists_ fs (of_string s)); [|discriminate].
    inversion H; subst l; clear H.
    apply in_app_iff in Hin. destruct Hin as [Hin|[<-|[]]]; [left; exact Hin|].
    right. split; [exact Hddb|]. split; [intros _; exact Hdir|].
    left. reflexivity.
Qed.

Lemma getPathList_sound (includeDirs : bool) (maxDepth : Z) (paths : list string) :
  forall (result l : list path),
    ofold (pathCandidate fs includeDirs maxDepth) paths result = Returned l ->
    forall rp,
      In rp l ->
      In rp result
      \/ exists s,
           In s paths
           /\ filename (of_string s) <> DDB_DIR
           /\ (includeDirs = false -> is_directory fs rp = false)
           /\ (rp = of_string s
               \/ exists names,
                    entryBelow (of_string s) names rp
                    /\ outsideDdb names
                    /\ ((0 < maxDepth)%Z
                        -> (Z.of_nat (List.length names) <= maxDepth)%Z)).
Proof.
  induction paths as [|s paths IH]; intros result l H rp Hin; cbn [ofold] in H.
  - inversion H; subst. left. exact Hin.
  - destruct (pathCandidate fs includeDirs maxDepth result s) as [r1|ex|] eqn:H1;
      cbn [obind] in H; [|discriminate ..].
    destruct (IH _ _ H rp Hin) as [Hr1|[s' [Hs' Hrest]]].
    + destruct (pathCandidate_sound _ _ _ _ _ H1 rp Hr1) as [Hr|Hq];
        [left; exact Hr|].
      right. exists s. split; [left; reflexivity|exact Hq].
    + right. exists s'. split; [right; exact Hs'|exact Hrest].
Qed.

(** What [getPathList] lists, on a file system whose names are file
    names.  Every path listed is a candidate that is not a directory, or
    the entry that some names lead to from a candidate directory; the
    candidate is not named .ddb; the names go through no .ddb directory
    (an entry named .ddb is listed, what it holds is not); with a
    positive [maxDepth] there are at most [maxDepth] names; and without
    [includeDirs] no directory is listed. *)
Theorem getPathList_lists_below_the_candidates :
  forall (paths : list string) (includeDirs : bool) (maxDepth : Z) (l : list path),
    getPathList fs paths includeDirs maxDepth = Returned l ->
    forall rp,
      In rp l ->
      exists s,
        In s paths
        /\ filename (of_string s) <> DDB_DIR
        /\ (includeDirs = false -> is_directory fs rp = false)
        /\ (rp = of_string s
            \/ exists names,
                 entryBelow (of_string s) names rp
                 /\ outsideDdb names
                 /\ ((0 < maxDepth)%Z
                     -> (Z.of_nat (List.length names) <= maxDepth)%Z)).
Proof.
  intros paths includeDirs maxDepth l H rp Hin.
  destruct (getPathList_sound _ _ _ _ _ H rp Hin) as [[]|Hq]. exact Hq.
Qed.
End PathList.

Lemma getPathList_lists_below_the_candidates_witness :
  exists s,
    In s ["/data/root"]
    /\ filename (of_string s) <> DDB_DIR
    /\ (true = false -> is_directory fromSlash ["/"; "data"; "root"; "a"; "b"] = false)
    /\ (["/"; "data"; "root"; "a"; "b"] = of_string s
        \/ exists names,
             entryBelow (of_string s) names ["/"; "data"; "root"; "a"; "b"]
             /\ outsideDdb names
             /\ ((0 < 2)%Z -> (Z.of_nat (List.length names) <= 2)%Z)).
Proof.
  apply (getPathList_lists_below_the_candidates fromSlash eq_refl
           ["/data/root"] true 2
           [["/"; "data"; "root"; ".ddb"]; ["/"; "data"; "root"; "img.jpg"];
            ["/"; "data"; "root"; "a"]; ["/"; "data"; "root"; "a"; "b"]]).
  - vm_compute. reflexivity.
  - cbn. auto.
Defined.

(** *** getIndexPathList *)

Lemma path_eqb_eq (p q : path) : path_eqb p q = true <-> p = q.
Proof.
  unfold path_eqb. destruct (list_eq_dec string_dec p q); split; auto; discriminate.
Qed.

Lemma insertDir_In (d x : path) (ds : list path) :
  In x (insertDir d ds) <-> x = d \/ In x ds.
Proof.
  unfold insertDir. destruct (existsb (path_eqb d) ds) eqn:He.
  - split; [auto|]. intros [->|H]; [|exact H].
    apply existsb_exists in He. destruct He as [y [Hy Heq]].
    apply path_eqb_eq in Heq. subst. exact Hy.
  - rewrite in_app_iff. cbn [In]. intuition (subst; auto).
Qed.

Lemma ancestorOrSelf_refl (p : path) : ancestorOrSelf p p.
Proof. exists []. rewrite app_nil_r. reflexivity. Qed.

Lemma ancestorOrSelf_trans (p q r : path) :
  ancestorOrSelf p q -> ancestorOrSelf q r -> ancestorOrSelf p r.
Proof.
  intros [a ->] [b ->]. exists (a ++ b). rewrite app_assoc. reflexivity.
Qed.

Lemma removelast_ancestor (p : path) : ancestorOrSelf (removelast p) p.
Proof.
  destruct p as [|e p]; [apply ancestorOrSelf_refl|].
  exists [last (e :: p) ""]. apply app_removelast_last. discriminate.
Qed.

Lemma parent_path_ancestor (p : path) : ancestorOrSelf (parent_path p) p.
Proof.
  unfold parent_path. destruct (has_relative_path p);
    [apply removelast_ancestor|apply ancestorOrSelf_refl].
Qed.

Lemma strip_trailing_ancestor (p : path) : ancestorOrSelf (strip_trailing p) p.
Proof.
  unfold strip_trailing. destruct (rev p) as [|e r] eqn:Hr;
    [apply ancestorOrSelf_refl|].
  destruct e; [|apply ancestorOrSelf_refl].
  exists [""]. rewrite <- (rev_involutive p), Hr. reflexivity.
Qed.

Section IndexList.
Variable fs : filesystem.

(** what the walk over the parents adds, when it stops *)
Lemma addParents_sound (fuel : nat) :
  forall (rp : path) (ds ds' : list path),
    addParents fuel rp ds = Returned ds' ->
    forall x, In x ds' -> In x ds \/ ancestorOrSelf x rp.
Proof.
  induction fuel as [|fuel IH]; intros rp ds ds' H x Hx; cbn [addParents] in H;
    [discriminate|].
  destruct (has_parent_path rp).
  - destruct (IH _ _ _ H x Hx) as [Hin|Ha].
    + apply insertDir_In in Hin. destruct Hin as [->|Hin]; [|left; exact Hin].
      right. apply parent_path_ancestor.
    + right. exact (ancestorOrSelf_trans _ _ _ Ha (parent_path_ancestor rp)).
  - inversion H; subst. left. exact Hx.
Qed.

Lemma addParents_grows (fuel : nat) :
  forall (rp : path) (ds ds' : list path),
    addParents fuel rp ds = Returned ds' -> forall x, In x ds -> In x ds'.
Proof.
  induction fuel as [|fuel IH]; intros rp ds ds' H x Hx; cbn [addParents] in H;
    [discriminate|].
  destruct (has_parent_path rp).
  - apply (IH _ _ _ H). apply insertDir_In. right. exact Hx.
  - inversion H; subst. exact Hx.
Qed.

(** every ancestor of [rp] proper is there when the walk has stopped *)
Lemma addParents_complete (fuel : nat) :
  forall (rp : path) (ds ds' : list path),
    addParents fuel rp ds = Returned ds' ->
    forall pre rest, rp = pre ++ rest -> pre <> [] -> rest <> [] -> In pre ds'.
Proof.
  induction fuel as [|fuel IH]; intros rp ds ds' H pre rest Hsplit Hpre Hrest;
    cbn [addParents] in H; [discriminate|].
  destruct (has_parent_path rp) eqn:Hpp.
  - unfold parent_path in H, Hpp.
    destruct (has_relative_path rp) eqn:Hrel.
    + (* the parent is the path less its last element *)
      assert (Hrm : removelast rp = pre ++ removelast rest).
      { rewrite Hsplit. apply removelast_app. exact Hrest. }
      destruct (removelast rest) as [|e r] eqn:Hrr.
      * rewrite app_nil_r in Hrm. rewrite Hrm in H.
        apply (addParents_grows _ _ _ _ H). apply insertDir_In. left. reflexivity.
      * apply (IH _ _ _ H pre (e :: r)); [exact Hrm|exact Hpre|discriminate].
    + apply (IH _ _ _ H pre rest); assumption.
  - exfalso. unfold has_parent_path, parent_path in Hpp.
    destruct (has_relative_path rp).
    + assert (Hrm : removelast rp = pre ++ removelast rest).
      { rewrite Hsplit. apply removelast_app. exact Hrest. }
      rewrite Hrm in Hpp. destruct pre; [contradiction Hpre; reflexivity|discriminate].
    + rewrite Hsplit in Hpp. destruct pre; [contradiction Hpre; reflexivity|discriminate].
Qed.

Lemma indexVisit_sound (fuel : nat) (includeDirs : bool)
  (st st' : list path * list path) (rp : path) :
  indexVisit fs fuel includeDirs st rp = Returned st' ->
  forall x,
    In x (fst st' ++ snd st') -> In x (fst st ++ snd st) \/ ancestorOrSelf x rp.
Proof.
  unfold indexVisit. destruct st as [result ds]. cbn [fst snd].
  intros H x Hx.
  destruct (is_directory fs rp && includeDirs).
  - destruct includeDirs.
    + destruct (addParents fuel rp (insertDir rp ds)) as [ds'|ex|] eqn:Ha;
        cbn [obind] in H; [|discriminate ..].
      inversion H; subst. cbn [fst snd] in Hx.
      apply in_app_iff in Hx. destruct Hx as [Hx|Hx].
      * left. apply in_app_iff. left. exact Hx.
      * destruct (addParents_sound _ _ _ _ Ha x Hx) as [Hin|Hanc]; [|right; exact Hanc].
        apply insertDir_In in Hin. destruct Hin as [->|Hin].
        -- right. apply ancestorOrSelf_refl.
        -- left. apply in_app_iff. right. exact Hin.
    + inversion H; subst. cbn [fst snd] in Hx.
      apply in_app_iff in Hx. destruct Hx as [Hx|Hx].
      * left. apply in_app_iff. left. exact Hx.
      * apply insertDir_In in Hx. destruct Hx as [->|Hx].
        -- right. apply ancestorOrSelf_refl.
        -- left. apply in_app_iff. right. exact Hx.
  - destruct includeDirs.
    + destruct (addParents fuel rp ds) as [ds'|ex|] eqn:Ha;
        cbn [obind] in H; [|discriminate ..].
      inversion H; subst. cbn [fst snd] in Hx.
      rewrite !in_app_iff in Hx. cbn [In] in Hx.
      destruct Hx as [[Hx|[<-|[]]]|Hx].
      * left. apply in_app_iff. left. exact Hx.
      * right. apply ancestorOrSelf_refl.
      * destruct (addParents_sound _ _ _ _ Ha x Hx) as [Hin|Hanc]; [|right; exact Hanc].
        left. apply in_app_iff. right. exact Hin.
    + inversion H; subst. cbn [fst snd] in Hx.
      rewrite !in_app_iff in Hx. cbn [In] in Hx.
      destruct Hx as [[Hx|[<-|[]]]|Hx].
      * left. apply in_app_iff. left. exact Hx.
      * right. apply ancestorOrSelf_refl.
      * left. apply in_app_iff. right. exact Hx.
Qed.

Lemma indexVisit_grows (fuel : nat) (includeDirs : bool)
  (st st' : list path * list path) (rp : path) :
  indexVisit fs fuel includeDirs st rp = Returned st' ->
  forall x, In x (fst st ++ snd st) -> In x (fst st' ++ snd st').
Proof.
  unfold indexVisit. destruct st as [result ds]. cbn [fst snd].
  intros H x Hx. apply in_app_iff in Hx.
  destruct (is_directory fs rp && includeDirs).
  - destruct includeDirs.
    + destruct (addParents fuel rp (insertDir rp ds)) as [ds'|ex|] eqn:Ha;
        cbn [obind] in H; [|discriminate ..].
      inversion H; subst. cbn [fst snd]. apply in_app_iff.
      destruct Hx as [Hx|Hx]; [left; exact Hx|right].
      apply (addParents_grows _ _ _ _ Ha). apply insertDir_In. right. exact Hx.
    + inversion H; subst. cbn [fst snd]. apply in_app_iff.
      destruct Hx as [Hx|Hx]; [left; exact Hx|right].
      apply insertDir_In. right. exact Hx.
  - destruct includeDirs.
    + destruct (addParents fuel rp ds) as [ds'|ex|] eqn:Ha;
        cbn [obind] in H; [|discriminate ..].
      inversion H; subst. cbn [fst snd]. rewrite !in_app_iff.
      destruct Hx as [Hx|Hx]; [left; left; exact Hx|right].
      apply (addParents_grows _ _ _ _ Ha). exact Hx.
    + inversion H; subst. cbn [fst snd]. rewrite !in_app_iff. tauto.
Qed.

Lemma ofold_indexVisit_sound (fuel : nat) (includeDirs : bool) (rps : list path) :
  forall st st',
    ofold (indexVisit fs fuel includeDirs) rps st = Returned st' ->
    forall x,
      In x (fst st' ++ snd st') ->
      In x (fst st ++ snd st) \/ exists rp, In rp rps /\ ancestorOrSelf x rp.
Proof.
  induction rps as [|rp rps IH]; intros st st' H x Hx; cbn [ofold] in H.
  - inversion H; subst. left. exact Hx.
  - destruct (indexVisit fs fuel includeDirs st rp) as [st1|ex|] eqn:H1;
      cbn [obind] in H; [|discriminate ..].
    destruct (IH _ _ H x Hx) as [Hin|[rp' [Hrp' Ha]]].
    + destruct (indexVisit_sound _ _ _ _ _ H1 x Hin) as [Hin0|Ha]; [left; exact Hin0|].
      right. exists rp. split; [left; reflexivity|exact Ha].
    + right. exists rp'. split; [right; exact Hrp'|exact Ha].
Qed.

Lemma ofold_indexVisit_grows (fuel : nat) (includeDirs : bool) (rps : list path) :
  forall st st',
    ofold (indexVisit fs fuel includeDirs) rps st = Returned st' ->
    forall x, In x (fst st ++ snd st) -> In x (fst st' ++ snd st').
Proof.
  induction rps as [|rp rps IH]; intros st st' H x Hx; cbn [ofold] in H.
  - inversion H; subst. exact Hx.
  - destruct (indexVisit fs fuel includeDirs st rp) as [st1|ex|] eqn:H1;
      cbn [obind] in H; [|discriminate ..].
    apply (IH _ _ H). exact (indexVisit_grows _ _ _ _ _ H1 x Hx).
Qed.

(** one candidate: what was listed stays listed, the candidate is
    listed, and so are the ancestors of a candidate that is not a
    directory when [includeDirs] is set *)
Lemma indexCandidate_grows (fuel : nat) (includeDirs : bool)
  (st st' : list path * list path) (s : string) :
  indexCandidate fs fuel includeDirs st s = Returned st' ->
  (forall x, In x (fst st ++ snd st) -> In x (fst st' ++ snd st'))
  /\ (filename (of_string s) <> DDB_DIR ->
      In (of_string s) (fst st' ++ snd st')
      /\ (includeDirs = true -> is_directory fs (of_string s) = false ->
          forall pre rest,
            of_string s = pre ++ rest -> pre <> [] -> In pre (fst st' ++ snd st'))).
Proof.
  unfold indexCandidate. intros H.
  destruct (String.eqb_spec (filename (of_string s)) DDB_DIR) as [Hd|Hd].
  { inversion H; subst. split; [auto|]. intros Hn. contradiction. }
  destruct (is_directory fs (of_string s)) eqn:Hdir.
  - destruct (ofold _ _ st) as [[result ds]|ex|] eqn:Hf; cbn [obind] in H;
      [|discriminate ..].
    inversion H; subst. cbn [fst snd]. split.
    + intros x Hx. pose proof (ofold_indexVisit_grows _ _ _ _ _ Hf x Hx) as Hx'.
      cbn [fst snd] in Hx'. rewrite in_app_iff in *. rewrite insertDir_In. tauto.
    + intros _. split; [|discriminate].
      rewrite in_app_iff, insertDir_In. auto.
  - destruct (exists_ fs (of_string s)); [|discriminate].
    destruct st as [result ds]. cbn [fst snd].
    destruct includeDirs.
    + destruct (addParents fuel (of_string s) ds) as [ds'|ex|] eqn:Ha;
        cbn [obind] in H; [|discriminate ..].
      inversion H; subst. cbn [fst snd]. split.
      * intros x Hx. rewrite !in_app_iff in *.
        destruct Hx as [Hx|Hx]; [auto|right].
        exact (addParents_grows _ _ _ _ Ha x Hx).
      * intros _. split; [rewrite !in_app_iff; cbn; auto|].
        intros _ _ pre rest Hsplit Hpre.
        destruct rest as [|e rest].
        -- rewrite app_nil_r in Hsplit. subst pre. rewrite !in_app_iff. cbn. auto.
        -- rewrite in_app_iff. right.
           apply (addParents_complete _ _ _ _ Ha pre (e :: rest));
             [exact Hsplit|exact Hpre|discriminate].
    + inversion H; subst. cbn [fst snd]. split.
      * intros x Hx. rewrite !in_app_iff in *. tauto.
      * intros _. split; [rewrite !in_app_iff; cbn; auto|discriminate].
Qed.

Lemma ofold_indexCandidate_grows (fuel : nat) (includeDirs : bool) (paths : list string) :
  forall st st',
    ofold (indexCandidate fs fuel includeDirs) paths st = Returned st' ->
    (forall x, In x (fst st ++ snd st) -> In x (fst st' ++ snd st'))
    /\ forall s,
         In s paths -> filename (of_string s) <> DDB_DIR ->
         In (of_string s) (fst st' ++ snd st')
         /\ (includeDirs = true -> is_directory fs (of_string s) = false ->
             forall pre rest,
               of_string s = pre ++ rest -> pre <> [] -> In pre (fst st' ++ snd st')).
Proof.
  induction paths as [|s paths IH]; intros st st' H; cbn [ofold] in H.
  - inversion H; subst. split; [auto|]. intros s [].
  - destruct (indexCandidate fs fuel includeDirs st s) as [st1|ex|] eqn:H1;
      cbn [obind] in H; [|discriminate ..].
    destruct (indexCandidate_grows _ _ _ _ _ H1) as [Hg1 Hc1].
    destruct (IH _ _ H) as [Hg Hc].
    split; [auto|].
    intros s' [<-|Hs'] Hn; [|exact (Hc s' Hs' Hn)].
    destruct (Hc1 Hn) as [Hin Hanc]. split; [auto|].
    intros Hi Hd pre rest Hsplit Hpre. apply Hg.
    exact (Hanc Hi Hd pre rest Hsplit Hpre).
Qed.

(** Every candidate that is not named .ddb is in the list that
    [getIndexPathList] returns, a directory too, with or without
    [includeDirs]; with [includeDirs], so is every ancestor of a
    candidate that is not a directory: "if path/to/file is in paths,
    both path/ and path/to are included in the result". *)
Theorem getIndexPathList_lists_every_candidate :
  forall (fuel : nat) (root : path) (paths : list string) (includeDirs : bool)
         (l : list path),
    getIndexPathList fs fuel root paths includeDirs = Returned l ->
    forall s,
      In s paths -> filename (of_string s) <> DDB_DIR ->
      In (of_string s) l
      /\ (includeDirs = true -> is_directory fs (of_string s) = false ->
          forall pre rest, of_string s = pre ++ rest -> pre <> [] -> In pre l).
Proof.
  intros fuel root paths includeDirs l H s Hs Hn. unfold getIndexPathList in H.
  destruct (negb (pathsAreChildren fs root paths)); [discriminate|].
  destruct (ofold _ paths ([], [])) as [[result ds]|ex|] eqn:Hf; cbn [obind] in H;
    [|discriminate ..].
  inversion H; subst.
  destruct (ofold_indexCandidate_grows _ _ _ _ _ Hf) as [_ Hc].
  exact (Hc s Hs Hn).
Qed.
End IndexList.

Lemma getIndexPathList_lists_every_candidate_witness :
  In (of_string "a/b/c.txt")
     [["a"; "b"; "c.txt"]; ["a"; "b"]; ["a"]]
  /\ (true = true -> is_directory fromRoot (of_string "a/b/c.txt") = false ->
      forall pre rest,
        of_string "a/b/c.txt" = pre ++ rest -> pre <> [] ->
        In pre [["a"; "b"; "c.txt"]; ["a"; "b"]; ["a"]]).
Proof.
  apply (getIndexPathList_lists_every_candidate fromRoot 5 (of_string "/data/root")
           ["a/b/c.txt"] true [["a"; "b"; "c.txt"]; ["a"; "b"]; ["a"]]).
  - vm_compute. reflexivity.
  - left. reflexivity.
  - vm_compute. discriminate.
Defined.

Lemma In_removelast (y : string) (l : list string) :
  In y (removelast l) -> In y l.
Proof.
  intros H. destruct (removelast_ancestor l) as [rest Hl].
  rewrite Hl. apply in_app_iff. left. exact H.
Qed.

Lemma outsideDdb_prefix (l r : list string) :
  outsideDdb (l ++ r) -> outsideDdb l.
Proof.
  unfold outsideDdb. intros H Hin. apply H.
  destruct r as [|e r]; [rewrite app_nil_r; exact Hin|].
  rewrite removelast_app by discriminate.
  apply in_app_iff. left. apply In_removelast. exact Hin.
Qed.

Section IndexSound.
Variable fs : filesystem.
Hypothesis tree_wellNamed : wellNamed (tree fs) = true.

Lemma indexCandidate_sound (fuel : nat) (includeDirs : bool)
  (st st' : list path * list path) (s : string) :
  indexCandidate fs fuel includeDirs st s = Returned st' ->
  forall x,
    In x (fst st' ++ snd st') ->
    In x (fst st ++ snd st)
    \/ (filename (of_string s) <> DDB_DIR
        /\ (ancestorOrSelf x (of_string s)
            \/ exists names, entryBelow (of_string s) names x /\ outsideDdb names)).
Proof.
  unfold indexCandidate. intros H x Hx.
  destruct (String.eqb_spec (filename (of_string s)) DDB_DIR) as [Hd|Hd].
  { inversion H; subst. left. exact Hx. }
  destruct (is_directory fs (of_string s)) eqn:Hdir.
  - destruct (ofold _ _ st) as [[result ds]|ex|] eqn:Hf; cbn [obind] in H;
      [|discriminate ..].
    inversion H; subst. cbn [fst snd] in Hx.
    assert (Hx' : x = of_string s \/ In x (fst (result, ds) ++ snd (result, ds))).
    { cbn [fst snd]. rewrite in_app_iff in *. rewrite insertDir_In in Hx. tauto. }
    destruct Hx' as [->|Hx'].
    { right. split; [exact Hd|]. left. apply ancestorOrSelf_refl. }
    destruct (ofold_indexVisit_sound _ _ _ _ _ _ Hf x Hx') as [Hin|[rp [Hrp Ha]]];
      [left; exact Hin|].
    right. split; [exact Hd|].
    apply in_map_iff in Hrp. destruct Hrp as [[rp' d] [Hfst Hin]].
    cbn [fst] in Hfst. subst rp'.
    unfold recursive_directory_iterator in Hin.
    destruct (status fs (of_string s)) as [n|] eqn:Hst; [|contradiction].
    pose proof (status_wellNamed _ _ _ tree_wellNamed Hst) as Hn.
    destruct (walk_sound _ _ _ _ _ _ Hn Hin) as [names [Hne [Hrp [_ [Hnames Hpre]]]]].
    assert (Hout : outsideDdb names).
    { refine (names_outsideDdb
                (fun rp (_ : Z) => String.eqb (filename rp) DDB_DIR)
                (strip_trailing (of_string s)) 0 names _ Hnames Hpre).
      intros rp' d' H'. exact H'. }
    destruct Ha as [r Hr]. rewrite Hrp in Hr. symmetry in Hr.
    apply app_eq_app in Hr. destruct Hr as [l [[Hxl Hnl]|[Hsl Hrl]]].
    + destruct l as [|e l].
      * left. rewrite app_nil_r in Hxl. subst x. apply strip_trailing_ancestor.
      * right. exists (e :: l). split; [split; [discriminate|exact Hxl]|].
        rewrite Hnl in Hout. exact (outsideDdb_prefix _ _ Hout).
    + left. apply (ancestorOrSelf_trans _ (strip_trailing (of_string s)));
        [exists l; exact Hsl|apply strip_trailing_ancestor].
  - destruct (exists_ fs (of_string s)); [|discriminate].
    destruct st as [result ds]. cbn [fst snd].
    destruct includeDirs.
    + destruct (addParents fuel (of_string s) ds) as [ds'|ex|] eqn:Ha;
        cbn [obind] in H; [|discriminate ..].
      inversion H; subst. cbn [fst snd] in Hx.
      rewrite !in_app_iff in Hx. cbn [In] in Hx.
      destruct Hx as [[Hx|[<-|[]]]|Hx].
      * left. apply in_app_iff. left. exact Hx.
      * right. split; [exact Hd|]. left. apply ancestorOrSelf_refl.
      * destruct (addParents_sound _ _ _ _ Ha x Hx) as [Hin|Hanc].
        -- left. apply in_app_iff. right. exact Hin.
        -- right. split; [exact Hd|]. left. exact Hanc.
    + inversion H; subst. cbn [fst snd] in Hx.
      rewrite !in_app_iff in Hx. cbn [In] in Hx.
      destruct Hx as [[Hx|[<-|[]]]|Hx].
      * left. apply in_app_iff. left. exact Hx.
      * right. split; [exact Hd|]. left. apply ancestorOrSelf_refl.
      * left. apply in_app_iff. right. exact Hx.
Qed.

Lemma ofold_indexCandidate_sound (fuel : nat) (includeDirs : bool)
  (paths : list string) :
  forall st st',
    ofold (indexCandidate fs fuel includeDirs) paths st = Returned st' ->
    forall x,
      In x (fst st' ++ snd st') ->
      In x (fst st ++ snd st)
      \/ exists s,
           In s paths
           /\ filename (of_string s) <> DDB_DIR
           /\ (ancestorOrSelf x (of_string s)
               \/ exists names, entryBelow (of_string s) names x /\ outsideDdb names).
Proof.
  induction paths as [|s paths IH]; intros st st' H x Hx; cbn [ofold] in H.
  - inversion H; subst. left. exact Hx.
  - destruct (indexCandidate fs fuel includeDirs st s) as [st1|ex|] eqn:H1;
      cbn [obind] in H; [|discriminate ..].
    destruct (IH _ _ H x Hx) as [Hin|[s' [Hs' Hq]]].
    + destruct (indexCandidate_sound _ _ _ _ _ H1 x Hin) as [Hin0|Hq];
        [left; exact Hin0|].
      right. exists s. split; [left; reflexivity|exact Hq].
    + right. exists s'. split; [right; exact Hs'|exact Hq].
Qed.

(** What [getIndexPathList] lists, on a file system whose names are file
    names: a candidate not named .ddb, an ancestor of such a candidate,
    or the entry that some names lead to from such a candidate without
    going through a .ddb directory.  Nothing that a .ddb directory below
    a candidate holds is ever listed, so add never indexes it and remove
    never looks it up. *)
Theorem getIndexPathList_lists_nothing_inside_ddb :
  forall (fuel : nat) (root : path) (paths : list string) (includeDirs : bool)
         (l : list path),
    getIndexPathList fs fuel root paths includeDirs = Returned l ->
    forall rp,
      In rp l ->
      exists s,
        In s paths
        /\ filename (of_string s) <> DDB_DIR
        /\ (ancestorOrSelf rp (of_string s)
            \/ exists names, entryBelow (of_string s) names rp /\ outsideDdb names).
Proof.
  intros fuel root paths includeDirs l H rp Hin. unfold getIndexPathList in H.
  destruct (negb (pathsAreChildren fs root paths)); [discriminate|].
  destruct (ofold _ paths ([], [])) as [[result ds]|ex|] eqn:Hf; cbn [obind] in H;
    [|discriminate ..].
  inversion H; subst.
  destruct (ofold_indexCandidate_sound _ _ _ _ _ Hf rp Hin) as [[]|Hq]. exact Hq.
Qed.
End IndexSound.

Lemma getIndexPathList_lists_nothing_inside_ddb_witness :
  exists s,
    In s ["a"; "img.jpg"]
    /\ filename (of_string s) <> DDB_DIR
    /\ (ancestorOrSelf ["a"; "b"; "c.txt"] (of_string s)
        \/ exists names,
             entryBelow (of_string s) names ["a"; "b"; "c.txt"] /\ outsideDdb names).
Proof.
  apply (getIndexPathList_lists_nothing_inside_ddb fromRoot eq_refl 5
           (of_string "/data/root") ["a"; "img.jpg"] true
           [["a"; "b"; "c.txt"]; ["img.jpg"]; ["a"; "b"]; ["a"]]).
  - vm_compute. reflexivity.
  - left. reflexivity.
Defined.

(** *** Every entry below a candidate is listed *)

(** the iterator yields the entry that [names] lead to when it goes down
    through every directory on the way *)
Lemma walk_complete (prune : path -> Z -> bool) (names : list string) :
  forall (n : node) (base : path) (depth : Z) (c : node),
    wellNamed n = true ->
    names <> [] ->
    leads n names c ->
    (forall pre post,
        names = pre ++ post -> pre <> [] -> post <> [] ->
        prune (strip_trailing base ++ pre)
              (depth + Z.of_nat (List.length pre) - 1)%Z = false) ->
    In (strip_trailing base ++ names,
        (depth + Z.of_nat (List.length names) - 1)%Z)
       (walk prune base depth n).
Proof.
  induction names as [|name rest IH]; intros n base depth c Hw Hne Hl Hpre;
    [contradiction Hne; reflexivity|].
  cbn [leads] in Hl. destruct n as [m h|m es]; [contradiction|].
  destruct Hl as [c' [He Hl]].
  rewrite wellNamed_Dir, forallb_forall in Hw.
  pose proof (Hw _ He) as Hnc. cbn [fst snd] in Hnc.
  apply Bool.andb_true_iff in Hnc. destruct Hnc as [Hname Hc'].
  destruct (is_name_spec name Hname) as [Hnonempty _].
  rewrite walk_Dir. apply in_flat_map. exists (name, c'). split; [exact He|].
  cbn [fst snd]. rewrite (append_name base name Hname).
  destruct rest as [|r rest].
  - left. f_equal. cbn [List.length]. lia.
  - right.
    assert (Hdir : is_dir c' = true).
    { cbn [leads] in Hl. destruct c'; [contradiction|reflexivity]. }
    assert (Hgo : prune (strip_trailing base ++ [name]) depth = false).
    { specialize (Hpre [name] (r :: rest) eq_refl ltac:(discriminate) ltac:(discriminate)).
      cbn [List.length] in Hpre.
      replace (depth + Z.of_nat 1 - 1)%Z with depth in Hpre by lia. exact Hpre. }
    rewrite Hdir, Hgo. cbn [andb negb].
    specialize (IH c' (strip_trailing base ++ [name]) (depth + 1)%Z c Hc'
                   ltac:(discriminate) Hl).
    rewrite (strip_trailing_snoc _ _ Hnonempty) in IH.
    rewrite <- app_assoc in IH. cbn [app] in IH.
    replace (depth + Z.of_nat (List.length (name :: r :: rest)) - 1)%Z
      with (depth + 1 + Z.of_nat (List.length (r :: rest)) - 1)%Z
      by (cbn [List.length]; lia).
    apply IH. intros pre post Hsplit Hp Hpost.
    specialize (Hpre (name :: pre) post).
    rewrite <- app_assoc. cbn [app].
    replace (depth + 1 + Z.of_nat (List.length pre) - 1)%Z
      with (depth + Z.of_nat (List.length (name :: pre)) - 1)%Z
      by (cbn [List.length]; lia).
    apply Hpre; [cbn [app]; rewrite Hsplit; reflexivity|discriminate|exact Hpost].
Qed.

Lemma leads_names (names : list string) :
  forall n c, wellNamed n = true -> leads n names c ->
              Forall (fun x => is_name x = true) names.
Proof.
  induction names as [|name rest IH]; intros n c Hw Hl; [constructor|].
  cbn [leads] in Hl. destruct n as [m h|m es]; [contradiction|].
  destruct Hl as [c' [He Hl]].
  rewrite wellNamed_Dir, forallb_forall in Hw.
  pose proof (Hw _ He) as Hnc. cbn [fst snd] in Hnc.
  apply Bool.andb_true_iff in Hnc. destruct Hnc as [Hname Hc'].
  constructor; [exact Hname|exact (IH _ _ Hc' Hl)].
Qed.

(** no proper prefix of names that go through no .ddb directory ends in
    ".ddb" *)
Lemma outsideDdb_prefixes (q : path) (names pre post : list string) :
  Forall (fun x => is_name x = true) names ->
  outsideDdb names ->
  names = pre ++ post -> pre <> [] -> post <> [] ->
  String.eqb (filename (q ++ pre)) DDB_DIR = false.
Proof.
  intros Hnames Hout Hsplit Hpre Hpost.
  pose proof (app_removelast_last "" Hpre) as Hp.
  assert (Hin : In (last pre "") pre).
  { rewrite Hp at 2. apply in_app_iff. right. left. reflexivity. }
  assert (Hlast : is_name (last pre "") = true).
  { rewrite Forall_forall in Hnames. apply Hnames. rewrite Hsplit.
    apply in_app_iff. left. exact Hin. }
  rewrite Hp, app_assoc, (filename_snoc _ _ Hlast).
  destruct (String.eqb_spec (last pre "") DDB_DIR) as [E|]; [|reflexivity].
  exfalso. apply Hout. rewrite Hsplit, removelast_app by exact Hpost.
  apply in_app_iff. left. rewrite <- E. exact Hin.
Qed.

Section Complete.
Variable fs : filesystem.
Hypothesis tree_wellNamed : wellNamed (tree fs) = true.

Lemma pathCandidate_grows (includeDirs : bool) (maxDepth : Z)
  (result : list path) (s : string) (l : list path) :
  pathCandidate fs includeDirs maxDepth result s = Returned l ->
  forall x, In x result -> In x l.
Proof.
  unfold pathCandidate. intros H x Hx.
  destruct (String.eqb (filename (of_string s)) DDB_DIR); [inversion H; subst; exact Hx|].
  destruct (is_directory fs (of_string s)).
  - inversion H; subst. apply DdbFacts.In_listed. left. exact Hx.
  - destruct (exists_ fs (of_string s)); [|discriminate].
    inversion H; subst. apply in_app_iff. left. exact Hx.
Qed.

Lemma ofold_pathCandidate_grows (includeDirs : bool) (maxDepth : Z)
  (paths : list string) :
  forall result l,
    ofold (pathCandidate fs includeDirs maxDepth) paths result = Returned l ->
    forall x, In x result -> In x l.
Proof.
  induction paths as [|s paths IH]; intros result l H x Hx; cbn [ofold] in H.
  - inversion H; subst. exact Hx.
  - destruct (pathCandidate fs includeDirs maxDepth result s) as [r1|ex|] eqn:H1;
      cbn [obind] in H; [|discriminate ..].
    apply (IH _ _ H). exact (pathCandidate_grows _ _ _ _ _ H1 x Hx).
Qed.

(** Every entry below a candidate directory is listed by [getPathList]
    when the names that lead to it go through no .ddb directory and,
    with a positive [maxDepth], are at most [maxDepth]; a directory only
    with [includeDirs].  With the theorem on what is listed, this says
    which entries [getPathList] lists. *)
Theorem getPathList_lists_every_entry_within_the_depth :
  forall (paths : list string) (includeDirs : bool) (maxDepth : Z) (l : list path)
         (s : string) (n c : node) (names : list string),
    getPathList fs paths includeDirs maxDepth = Returned l ->
    In s paths ->
    filename (of_string s) <> DDB_DIR ->
    status fs (of_string s) = Some n ->
    names <> [] ->
    leads n names c ->
    outsideDdb names ->
    ((0 < maxDepth)%Z -> (Z.of_nat (List.length names) <= maxDepth)%Z) ->
    is_directory fs (strip_trailing (of_string s) ++ names) = false
    \/ includeDirs = true ->
    In (strip_trailing (of_string s) ++ names) l.
Proof.
  intros paths includeDirs maxDepth l s n c names H Hs Hddb Hst Hne Hl Hout Hmax Hkind.
  unfold getPathList in H. revert H. generalize (@nil path).
  induction paths as [|s' paths IH]; intros result H; [contradiction|].
  cbn [ofold] in H.
  destruct (pathCandidate fs includeDirs maxDepth result s') as [r1|ex|] eqn:H1;
    cbn [obind] in H; [|discriminate ..].
  destruct Hs as [->|Hs]; [|exact (IH Hs _ H)].
  apply (ofold_pathCandidate_grows _ _ _ _ _ H).
  unfold pathCandidate in H1.
  destruct (String.eqb_spec (filename (of_string s)) DDB_DIR); [contradiction|].
  pose proof (status_wellNamed _ _ _ tree_wellNamed Hst) as Hn.
  assert (Hdir : is_directory fs (of_string s) = true).
  { unfold is_directory. rewrite Hst.
    destruct names; [contradiction Hne; reflexivity|].
    cbn [leads] in Hl. destruct n; [contradiction|reflexivity]. }
  rewrite Hdir in H1. inversion H1; subst r1; clear H1.
  apply DdbFacts.In_listed. right. split; [|exact Hkind].
  apply in_map_iff. exists (strip_trailing (of_string s) ++ names,
                            (0 + Z.of_nat (List.length names) - 1)%Z).
  split; [reflexivity|].
  unfold recursive_directory_iterator. rewrite Hst.
  apply (walk_complete _ names n (of_string s) 0 c Hn Hne Hl).
  intros pre post Hsplit Hpre Hpost.
  rewrite (outsideDdb_prefixes _ names pre post (leads_names _ _ _ Hn Hl) Hout
             Hsplit Hpre Hpost).
  cbn [orb]. destruct (maxDepth >? 0)%Z eqn:Hpos; [|reflexivity].
  cbn [andb]. rewrite Z.gtb_ltb in Hpos. apply Z.ltb_lt in Hpos.
  specialize (Hmax Hpos). rewrite Z.geb_leb. apply Z.leb_gt.
  assert (Hlen : (List.length names = List.length pre + List.length post)%nat)
    by (rewrite Hsplit; apply length_app).
  destruct post; [contradiction Hpost; reflexivity|]. cbn [List.length] in Hlen. lia.
Qed.

Lemma ofold_indexVisit_holds (fuel : nat) (includeDirs : bool) (rps : list path) :
  forall st st',
    ofold (indexVisit fs fuel includeDirs) rps st = Returned st' ->
    forall rp, In rp rps -> In rp (fst st' ++ snd st').
Proof.
  induction rps as [|rp0 rps IH]; intros st st' H rp Hrp; [contradiction|].
  cbn [ofold] in H.
  destruct (indexVisit fs fuel includeDirs st rp0) as [st1|ex|] eqn:H1;
    cbn [obind] in H; [|discriminate ..].
  destruct Hrp as [->|Hrp]; [|exact (IH _ _ H rp Hrp)].
  apply (ofold_indexVisit_grows _ _ _ _ _ _ H).
  unfold indexVisit in H1. destruct st as [result ds].
  destruct (is_directory fs rp && includeDirs); destruct includeDirs;
    try (inversion H1; subst; cbn [fst snd]; rewrite !in_app_iff;
         rewrite ?insertDir_In; cbn; auto; fail);
    match type of H1 with
    | context [addParents ?f ?r ?d] =>
        destruct (addParents f r d) as [ds'|ex|] eqn:Ha; cbn [obind] in H1;
        [|discriminate ..]
    end; inversion H1; subst; cbn [fst snd]; rewrite !in_app_iff.
  - right. apply (addParents_grows _ _ _ _ Ha). apply insertDir_In. auto.
  - left. right. left. reflexivity.
Qed.

(** Every entry below a candidate directory is in the list that
    [getIndexPathList] returns when the names that lead to it go through
    no .ddb directory, with or without [includeDirs]: add looks at every
    one of them and remove looks every one of them up. *)
Theorem getIndexPathList_lists_every_entry_below :
  forall (fuel : nat) (root : path) (paths : list string) (includeDirs : bool)
         (l : list path) (s : string) (n c : node) (names : list string),
    getIndexPathList fs fuel root paths includeDirs = Returned l ->
    In s paths ->
    filename (of_string s) <> DDB_DIR ->
    status fs (of_string s) = Some n ->
    names <> [] ->
    leads n names c ->
    outsideDdb names ->
    In (strip_trailing (of_string s) ++ names) l.
Proof.
  intros fuel root paths includeDirs l s n c names H Hs Hddb Hst Hne Hl Hout.
  unfold getIndexPathList in H.
  destruct (negb (pathsAreChildren fs root paths)); [discriminate|].
  destruct (ofold _ paths ([], [])) as [[result ds]|ex|] eqn:Hf; cbn [obind] in H;
    [|discriminate ..].
  inversion H; subst l; clear H.
  change (In (strip_trailing (of_string s) ++ names)
             (fst (result, ds) ++ snd (result, ds))).
  revert Hf. generalize (@nil path, @nil path). generalize (result, ds).
  clear result ds.
  induction paths as [|s' paths IH]; intros st' st Hf; [contradiction|].
  cbn [ofold] in Hf.
  destruct (indexCandidate fs fuel includeDirs st s') as [st1|ex|] eqn:H1;
    cbn [obind] in Hf; [|discriminate ..].
  destruct Hs as [->|Hs]; [|exact (IH Hs _ _ Hf)].
  destruct (ofold_indexCandidate_grows _ _ _ _ _ _ Hf) as [Hg _]. apply Hg.
  unfold indexCandidate in H1.
  destruct (String.eqb_spec (filename (of_string s)) DDB_DIR); [contradiction|].
  pose proof (status_wellNamed _ _ _ tree_wellNamed Hst) as Hn.
  assert (Hdir : is_directory fs (of_string s) = true).
  { unfold is_directory. rewrite Hst.
    destruct names; [contradiction Hne; reflexivity|].
    cbn [leads] in Hl. destruct n; [contradiction|reflexivity]. }
  rewrite Hdir in H1.
  destruct (ofold _ _ st) as [[result ds]|ex|] eqn:Hv; cbn [obind] in H1;
    [|discriminate ..].
  inversion H1; subst st1; clear H1. cbn [fst snd].
  assert (Hin : In (strip_trailing (of_string s) ++ names)
                   (fst (result, ds) ++ snd (result, ds))).
  { apply (ofold_indexVisit_holds _ _ _ _ _ Hv).
    apply in_map_iff. exists (strip_trailing (of_string s) ++ names,
                              (0 + Z.of_nat (List.length names) - 1)%Z).
    split; [reflexivity|].
    unfold recursive_directory_iterator. rewrite Hst.
    apply (walk_complete _ names n (of_string s) 0 c Hn Hne Hl).
    intros pre post Hsplit Hpre Hpost.
    exact (outsideDdb_prefixes _ names pre post (leads_names _ _ _ Hn Hl) Hout
             Hsplit Hpre Hpost). }
  cbn [fst snd] in Hin. rewrite in_app_iff in *. rewrite insertDir_In. tauto.
Qed.
End Complete.

Lemma getPathList_lists_every_entry_within_the_depth_witness :
  In (strip_trailing (of_string "/data/root") ++ ["a"; "b"])
     [["/"; "data"; "root"; ".ddb"]; ["/"; "data"; "root"; "img.jpg"];
      ["/"; "data"; "root"; "a"]; ["/"; "data"; "root"; "a"; "b"]].
Proof.
  eapply (getPathList_lists_every_entry_within_the_depth fromSlash eq_refl
            ["/data/root"] true 2 _ "/data/root" _ _ ["a"; "b"]).
  - vm_compute. reflexivity.
  - left. reflexivity.
  - vm_compute. discriminate.
  - vm_compute. reflexivity.
  - discriminate.
  - cbn. eexists. split; [right; right; left; reflexivity|].
    cbn. eexists. split; [left; reflexivity|reflexivity].
  - unfold outsideDdb. cbn. intros [H|[]]. discriminate.
  - cbn. lia.
  - right. reflexivity.
Defined.

Lemma getIndexPathList_lists_every_entry_below_witness :
  In (strip_trailing (of_string "a") ++ ["b"; "c.txt"])
     [["a"; "b"; "c.txt"]; ["img.jpg"]; ["a"; "b"]; ["a"]].
Proof.
  eapply (getIndexPathList_lists_every_entry_below fromRoot eq_refl 5
            (of_string "/data/root") ["a"; "img.jpg"] true _ "a" _ _ ["b"; "c.txt"]).
  - vm_compute. reflexivity.
  - left. reflexivity.
  - vm_compute. discriminate.
  - vm_compute. reflexivity.
  - discriminate.
  - cbn. eexists. split; [left; reflexivity|].
    cbn. eexists. split; [left; reflexivity|reflexivity].
  - unfold outsideDdb. cbn. intros [H|[]]. discriminate.
Defined.

(** *** Candidates that name nothing *)

Lemma is_directory_exists (fs : filesystem) (p : path) :
  is_directory fs p = true -> exists_ fs p = true.
Proof.
  unfold is_directory, exists_. destruct (status fs p); [reflexivity|discriminate].
Qed.

Lemma pathCandidate_outcome (fs : filesystem) (includeDirs : bool) (maxDepth : Z)
  (result : list path) (s : string) :
  if listable fs s
  then exists l, pathCandidate fs includeDirs maxDepth result s = Returned l
  else pathCandidate fs includeDirs maxDepth result s
       = Thrown (FSException ("Path does not exist: " ++ to_string (of_string s))).
Proof.
  unfold listable, pathCandidate.
  destruct (String.eqb (filename (of_string s)) DDB_DIR); cbn [orb]; [eauto|].
  destruct (is_directory fs (of_string s)) eqn:Hd.
  - rewrite (is_directory_exists _ _ Hd). eauto.
  - destruct (exists_ fs (of_string s)); [eauto|reflexivity].
Qed.

Lemma ofold_pathCandidate_outcome (fs : filesystem) (includeDirs : bool) (maxDepth : Z)
  (paths : list string) :
  forall result,
    match ofold (pathCandidate fs includeDirs maxDepth) paths result with
    | Returned _ => forallb (listable fs) paths = true
    | Thrown e =>
        exists before s after,
          paths = before ++ s :: after
          /\ forallb (listable fs) before = true
          /\ listable fs s = false
          /\ e = FSException ("Path does not exist: " ++ to_string (of_string s))
    | OutOfFuel => False
    end.
Proof.
  induction paths as [|s paths IH]; intros result; cbn [ofold forallb]; [reflexivity|].
  pose proof (pathCandidate_outcome fs includeDirs maxDepth result s) as Hs.
  destruct (listable fs s) eqn:Hl.
  - destruct Hs as [l ->]. cbn [obind andb].
    specialize (IH l).
    destruct (ofold (pathCandidate fs includeDirs maxDepth) paths l) as [l'|e|];
      [exact IH| |exact IH].
    destruct IH as [before [s' [after [Hp [Hb [Hs' He]]]]]].
    exists (s :: before), s', after. rewrite Hp. cbn [app forallb]. rewrite Hl, Hb.
    auto.
  - rewrite Hs. cbn [obind]. exists [], s, paths. auto.
Qed.

(** How [getPathList] ends.  It returns exactly when every candidate is
    named .ddb or names something; otherwise it throws, and the message
    names the first candidate that is not named .ddb and names nothing.
    A candidate named .ddb is skipped without being looked for. *)
Theorem getPathList_throws_at_the_first_missing_candidate :
  forall (fs : filesystem) (paths : list string) (includeDirs : bool) (maxDepth : Z),
    match getPathList fs paths includeDirs maxDepth with
    | Returned _ => forallb (listable fs) paths = true
    | Thrown e =>
        exists before s after,
          paths = before ++ s :: after
          /\ forallb (listable fs) before = true
          /\ listable fs s = false
          /\ e = FSException ("Path does not exist: " ++ to_string (of_string s))
    | OutOfFuel => False
    end.
Proof.
  intros fs paths includeDirs maxDepth. apply ofold_pathCandidate_outcome.
Qed.

Section Missing.
Variable fs : filesystem.





End Missing.


End ListingFacts.

(* ================================================================== *)
(** ** Further theorems: opening an index *)
(* ================================================================== *)

Module OpenFacts.
Import Path FS Ddb Scenario EngineSpec Opening.
Local Open Scope list_scope.

Lemma strip_trailing_root (l : list string) :
  strip_trailing ("/" :: l) = "/" :: strip_trailing l.
Proof.
  unfold strip_trailing. cbn [rev].
  destruct (rev l) as [|x r] eqn:Hr.
  - apply (f_equal (@rev string)) in Hr. rewrite rev_involutive in Hr.
    subst l. reflexivity.
  - cbn [app]. destruct x; [|reflexivity].
    rewrite rev_app_distr. reflexivity.
Qed.

Lemma absolute_is_absolute (fs : filesystem) (p : path) :
  is_absolute (absolute fs p) = true.
Proof.
  unfold absolute. destruct (is_absolute p) eqn:Hp; [exact Hp|].
  unfold append. rewrite Hp. destruct p as [|e p].
  - destruct (has_relative_path ("/" :: cwd fs) && _); reflexivity.
  - rewrite strip_trailing_root. reflexivity.
Qed.

Lemma absolute_of_absolute (fs : filesystem) (p : path) :
  is_absolute p = true -> absolute fs p = p.
Proof. intros H. unfold absolute. rewrite H. reflexivity. Qed.

Lemma dbaseOf_names (p : path) :
  dbaseOf p = strip_trailing p ++ [".ddb"; "dbase.sqlite"].
Proof.
  unfold dbaseOf. change (of_string ".ddb") with [".ddb"].
  change (of_string "dbase.sqlite") with ["dbase.sqlite"].
  rewrite (ListingFacts.append_name p ".ddb" eq_refl).
  rewrite (ListingFacts.append_name _ "dbase.sqlite" eq_refl).
  rewrite ListingFacts.strip_trailing_snoc by discriminate.
  rewrite <- app_assoc. reflexivity.
Qed.

Lemma parent_path_snoc (q : path) (x : string) :
  is_name x = true -> parent_path (q ++ [x]) = q.
Proof.
  intros Hx. unfold parent_path, has_relative_path.
  assert (Hr : relative_path (q ++ [x]) <> []).
  { destruct (ListingFacts.is_name_spec x Hx) as [_ [Hs _]].
    destruct q as [|e q]; cbn [app]; rewrite ListingFacts.relative_path_cons.
    - destruct (String.eqb_spec x "/"); [contradiction|discriminate].
    - destruct (String.eqb e "/"); [destruct q|]; discriminate. }
  destruct (relative_path (q ++ [x])); [contradiction Hr; reflexivity|].
  apply removelast_last.
Qed.

(** the round trip: the root directory of the database in [p] is [p] *)
Lemma rootDirectory_dbaseOf (p : path) (rows : list Entry.t) :
  rootDirectory (mkDb (dbaseOf p) rows None) = strip_trailing p.
Proof.
  unfold rootDirectory. cbn [openFile]. rewrite dbaseOf_names.
  change (strip_trailing p ++ [".ddb"; "dbase.sqlite"])
    with (strip_trailing p ++ [".ddb"] ++ ["dbase.sqlite"]).
  rewrite app_assoc, (parent_path_snoc _ "dbase.sqlite" eq_refl).
  apply (parent_path_snoc _ ".ddb" eq_refl).
Qed.

Lemma path_eqb_refl (p : path) : path_eqb p p = true.
Proof. apply ListingFacts.path_eqb_eq. reflexivity. Qed.

Lemma parent_path_shorter (p : path) :
  path_eqb (parent_path p) p = false ->
  S (List.length (parent_path p)) = List.length p.
Proof.
  unfold parent_path. destruct (has_relative_path p) eqn:Hrel.
  - intros _. destruct p as [|e p]; [discriminate|].
    rewrite (app_removelast_last "" (l := e :: p)) at 2 by discriminate.
    rewrite length_app. cbn [List.length]. lia.
  - rewrite path_eqb_refl. discriminate.
Qed.

Lemma above_parent (j : nat) (p : path) :
  above (S j) p = above j (parent_path p).
Proof. unfold above. apply Nat.iter_succ_r. Qed.

Lemma above_top (j : nat) (p : path) :
  parent_path p = p -> above j p = p.
Proof.
  intros H. unfold above. induction j as [|j IH]; [reflexivity|].
  rewrite Nat.iter_succ, IH. exact H.
Qed.

Section Open.
Variable fs : filesystem.
Variable tableExists : path -> string -> bool.
Variable stored : path -> list Entry.t.

Lemma open_absolute (fuel : nat) (directory : path) (traverseUp : bool) :
  open fs tableExists stored fuel directory traverseUp
  = open fs tableExists stored fuel (absolute fs directory) traverseUp.
Proof.
  destruct fuel as [|fuel]; [reflexivity|]. cbn [open].
  rewrite (absolute_of_absolute fs (absolute fs directory)
             (absolute_is_absolute fs directory)).
  reflexivity.
Qed.

Lemma open_from (fuel : nat) :
  forall (dirPath : path) (traverseUp : bool),
    is_absolute dirPath = true ->
    match open fs tableExists stored fuel dirPath traverseUp with
    | Returned d =>
        exists i,
          (traverseUp = false -> i = 0%nat)
          /\ (forall j, (j < i)%nat -> exists_ fs (dbaseOf (above j dirPath)) = false)
          /\ exists_ fs (dbaseOf (above i dirPath)) = true
          /\ tableExists (dbaseOf (above i dirPath)) "entries" = true
          /\ d = mkDb (dbaseOf (above i dirPath))
                      (stored (dbaseOf (above i dirPath))) None
    | Thrown (DBException _) =>
        exists i,
          (traverseUp = false -> i = 0%nat)
          /\ (forall j, (j < i)%nat -> exists_ fs (dbaseOf (above j dirPath)) = false)
          /\ exists_ fs (dbaseOf (above i dirPath)) = true
          /\ tableExists (dbaseOf (above i dirPath)) "entries" = false
    | Thrown (FSException _) =>
        if traverseUp
        then forall j, exists_ fs (dbaseOf (above j dirPath)) = false
        else exists_ fs (dbaseOf dirPath) = false
    | Thrown (AppException _) => False
    | OutOfFuel => (fuel <= List.length dirPath)%nat
    end.
Proof.
  induction fuel as [|fuel IH]; intros dirPath traverseUp Habs; [cbn; lia|].
  cbn [open]. rewrite (absolute_of_absolute fs dirPath Habs).
  fold (dbaseOf dirPath).
  destruct (exists_ fs (dbaseOf dirPath)) eqn:Hex.
  - destruct (tableExists (dbaseOf dirPath) "entries") eqn:Ht; cbn [negb];
      exists 0%nat; (split; [reflexivity|]); (split; [intros j Hj; lia|]);
      cbn [above Nat.iter]; auto.
  - destruct traverseUp; cbn [andb]; [|reflexivity].
    destruct (path_eqb (parent_path dirPath) dirPath) eqn:Htop; cbn [negb].
    + apply ListingFacts.path_eqb_eq in Htop.
      intros j. rewrite (above_top j _ Htop). exact Hex.
    + pose proof (parent_path_shorter _ Htop) as Hlen.
      destruct (DdbFacts.parent_path_absolute dirPath Habs) as [_ Hpabs].
      specialize (IH (parent_path dirPath) true Hpabs).
      destruct (open fs tableExists stored fuel (parent_path dirPath) true)
        as [d|[what|what|what]|].
      * destruct IH as [i [_ [Hbefore [Hthere [Htable Hd]]]]].
        exists (S i). rewrite above_parent.
        split; [discriminate|]. split; [|auto].
        intros [|j] Hj; [exact Hex|]. rewrite above_parent. apply Hbefore. lia.
      * intros [|j]; [exact Hex|]. rewrite above_parent. apply IH.
      * destruct IH as [i [_ [Hbefore [Hthere Htable]]]].
        exists (S i). rewrite above_parent.
        split; [discriminate|]. split; [|auto].
        intros [|j] Hj; [exact Hex|]. rewrite above_parent. apply Hbefore. lia.
      * exact IH.
      * lia.
Qed.

(** How [open] ends on a directory, [dirPath] being its absolute path
    (the empty path, of which [fs::absolute] makes no directory, is left
    out).  It looks for .ddb/dbase.sqlite in [dirPath] and, with [traverseUp],
    in the directories above it, nearest first, and stops at the first
    one that has the file.  If that file holds the table 'entries' it
    returns the database, and [rootDirectory] of the database is the
    directory the file was found in; if not it throws a [DBException]
    and looks no further up.  If no directory looked at has the file it
    throws an [FSException].  The search always ends: one call for
    [dirPath] and one for each directory above it are enough. *)
Theorem open_finds_the_nearest_index :
  forall (fuel : nat) (directory : path) (traverseUp : bool),
    directory <> [] ->
    let dirPath := absolute fs directory in
    match open fs tableExists stored fuel directory traverseUp with
    | Returned d =>
        exists i,
          (traverseUp = false -> i = 0%nat)
          /\ (forall j, (j < i)%nat -> exists_ fs (dbaseOf (above j dirPath)) = false)
          /\ exists_ fs (dbaseOf (above i dirPath)) = true
          /\ tableExists (dbaseOf (above i dirPath)) "entries" = true
          /\ openFile d = dbaseOf (above i dirPath)
          /\ entries d = stored (openFile d)
          /\ transaction d = None
          /\ rootDirectory d = strip_trailing (above i dirPath)
    | Thrown (DBException _) =>
        exists i,
          (traverseUp = false -> i = 0%nat)
          /\ (forall j, (j < i)%nat -> exists_ fs (dbaseOf (above j dirPath)) = false)
          /\ exists_ fs (dbaseOf (above i dirPath)) = true
          /\ tableExists (dbaseOf (above i dirPath)) "entries" = false
    | Thrown (FSException _) =>
        if traverseUp
        then forall j, exists_ fs (dbaseOf (above j dirPath)) = false
        else exists_ fs (dbaseOf dirPath) = false
    | Thrown (AppException _) => False
    | OutOfFuel => (fuel <= List.length dirPath)%nat
    end.
Proof.
  intros fuel directory traverseUp _ dirPath. rewrite open_absolute. fold dirPath.
  pose proof (open_from fuel dirPath traverseUp (absolute_is_absolute fs directory))
    as H.
  destruct (open fs tableExists stored fuel dirPath traverseUp)
    as [d|[what|what|what]|]; try exact H.
  destruct H as [i [H0 [Hbefore [Hthere [Htable ->]]]]].
  exists i. cbn [openFile entries transaction].
  rewrite rootDirectory_dbaseOf. auto 10.
Qed.
End Open.

Lemma open_finds_the_nearest_index_witness :
  exists i,
    (true = false -> i = 0%nat)
    /\ (forall j, (j < i)%nat ->
                  exists_ fromSlash (dbaseOf (above j (of_string "/data/root/a/b"))) = false)
    /\ exists_ fromSlash (dbaseOf (above i (of_string "/data/root/a/b"))) = true
    /\ valid (dbaseOf (above i (of_string "/data/root/a/b"))) "entries" = true
    /\ openFile (db emptyIndex) = dbaseOf (above i (of_string "/data/root/a/b"))
    /\ entries (db emptyIndex) = noRows (openFile (db emptyIndex))
    /\ transaction (db emptyIndex) = None
    /\ rootDirectory (db emptyIndex)
       = strip_trailing (above i (of_string "/data/root/a/b")).
Proof.
  exact (open_finds_the_nearest_index fromSlash valid noRows 6
           (of_string "/data/root/a/b") true ltac:(discriminate)).
Defined.

End OpenFacts.
